(** * typo-ime: fuzzy search worker (TypoSM.js) and input method
      (TypoAPI.js)

    A shallow embedding of the matching engine of [src/TypoSM.js], of the
    request/response correlation of [src/TypoAPI.js] and of its input
    method: creation, attachment and the handlers of the page.

    Conventions of the embedding:
    - a JavaScript string is the list of its UTF-16 code units, so
      [length] is [String.prototype.length];
    - lengths, matrix cells, search ids and heap references are natural
      numbers (JavaScript numbers holding integers, exact below 2^53);
    - scores, thresholds and bigram probabilities are doubles, taken by
      their rational value; the two operations that compute a score round
      their exact result ([Rounding]);
    - [String.prototype.toLowerCase] is an interface of the host
      ([CaseMapping]);
    - JavaScript objects used as dictionaries are finite maps ([gmap]) of
      their own keys. The bigram table comes from [JSON.parse]: a read of a
      name that is not one of its keys finds what the object inherits from
      [Object.prototype]. These members are an interface of the host
      ([Prototype]); a read of one of them is taken to return (the
      accessors [caller] and [arguments] of a built-in function, which
      throw, are left out);
    - of a value that is not a number the embedding keeps what the engine
      reads of it: whether it is truthy, the number it converts to, and
      whether [postMessage] can copy it;
    - dictionary records are objects shared between [dictionary] and the
      buckets of [searchIndex]: they live in a heap and are named by
      references;
    - a run of a message handler is one step: the [await]s of [initialize]
      come before its assignments or between the first two, and the index
      is built without suspension after the last one, so that a search
      never meets a half-built index. What the fetches of an [init] deliver
      is part of the message;
    - of the page, the instance sees the value of the input and the
      children of the suggestions element; an event is given by what its
      handler reads of it; listeners are functions with an identity,
      called in the order of their registration; a call of [_handleInput]
      is suspended at its [await] and continues, as a microtask, when the
      listener that resolved its promise returns. The user callback
      [onCommit] is taken to return without touching the instance or the
      page; [suggestionLimit] is an integer. The making of the worker in
      [create] and [terminate] are calls of the host and are left out. *)

From Stdlib Require Import QArith Lqa.
From stdpp Require Import gmap list strings sorting.

Open Scope nat_scope.

(** ** JavaScript strings *)

Abbreviation jsstring := (list N).

(** The code units of an ASCII literal, to write property names and test
    data. *)
Definition js (s : string) : jsstring :=
  Ascii.N_of_ascii <$> String.list_ascii_of_string s.

(** ** levenshteinDistance (TypoSM.js, lines 18-37) *)

Module Lev.

(** [matrix[j][i]]: rows indexed by [j] (prefixes of [b]), columns by [i]
    (prefixes of [a]); a cell is [null] until it is written. *)
Abbreviation matrix := (list (list (option nat))).

(** [Array(b.length + 1).fill(null).map(() => Array(a.length + 1).fill(null))] *)
Definition new_matrix (a b : jsstring) : matrix :=
  replicate (S (length b)) (replicate (S (length a)) None).

(** [matrix[j][i]] read as a number operand. Every cell the loops read
    lies inside the matrix and has been written before (lemma
    [fill_invariant]); [null] would coerce to [0]. *)
Definition mget (m : matrix) (j i : nat) : option nat :=
  row ← m !! j; cell ← row !! i; cell.

Definition to_number (v : option nat) : nat := default 0 v.

(** [matrix[j][i] = v]; the loop bounds keep [j] and [i] inside the
    dimensions fixed by [new_matrix]. *)
Definition mset (m : matrix) (j i v : nat) : matrix :=
  alter (λ row, <[i := Some v]> row) j m.

(** [Math.min(x, y, z)] *)
Definition min3 (x y z : nat) : nat := Nat.min (Nat.min x y) z.

(** [for (let i = 0; i <= a.length; i++) matrix[0][i] = i;] *)
Definition init_first_row (a : jsstring) (m : matrix) : matrix :=
  foldl (λ m i, mset m 0 i i) m (seq 0 (S (length a))).

(** [for (let j = 0; j <= b.length; j++) matrix[j][0] = j;] *)
Definition init_first_col (b : jsstring) (m : matrix) : matrix :=
  foldl (λ m j, mset m j 0 j) m (seq 0 (S (length b))).

(** [const cost = a[i - 1] === b[j - 1] ? 0 : 1;] *)
Definition cost (a b : jsstring) (j i : nat) : nat :=
  if bool_decide (a !! (i - 1) = b !! (j - 1)) then 0 else 1.

(** The body of the inner loop. *)
Definition fill_cell (a b : jsstring) (j : nat) (m : matrix) (i : nat) : matrix :=
  mset m j i
    (min3 (to_number (mget m j (i - 1)) + 1)
          (to_number (mget m (j - 1) i) + 1)
          (to_number (mget m (j - 1) (i - 1)) + cost a b j i)).

(** [for (let i = 1; i <= a.length; i++) ...] *)
Definition fill_row (a b : jsstring) (m : matrix) (j : nat) : matrix :=
  foldl (fill_cell a b j) m (seq 1 (length a)).

(** [for (let j = 1; j <= b.length; j++) ...] *)
Definition fill (a b : jsstring) (m : matrix) : matrix :=
  foldl (fill_row a b) m (seq 1 (length b)).

Definition final_matrix (a b : jsstring) : matrix :=
  fill a b (init_first_col b (init_first_row a (new_matrix a b))).

Definition levenshteinDistance (a b : jsstring) : nat :=
  to_number (mget (final_matrix a b) (length b) (length a)).

(** The textbook recursion on the first characters, used only to reason
    about the table: the cell [matrix[j][i]] holds [lev] of the reversed
    prefixes of lengths [i] and [j]. *)
Fixpoint lev (a b : jsstring) : nat :=
  match a with
  | [] => length b
  | x :: a' =>
      (fix lev_a (b : jsstring) : nat :=
         match b with
         | [] => S (length a')
         | y :: b' =>
             min3 (lev a' b + 1) (lev_a b' + 1)
                  (lev a' b' + (if bool_decide (x = y) then 0 else 1))
         end) b
  end.

Definition prefix_distance (a b : jsstring) (i j : nat) : nat :=
  lev (rev (take i a)) (rev (take j b)).

(** *** Invariants of the table *)

Definition dims (m : list (list (option nat))) (rows cols : nat) : Prop :=
  length m = rows ∧ ∀ j row, m !! j = Some row → length row = cols.

(** Loop invariant: the dimensions are those of [new_matrix], row 0 and
    column 0 are initialised, rows below [J] are complete and row [J] is
    complete up to column [I] (excluded); every such cell holds the
    distance between the corresponding prefixes. *)
Definition filled (a b : jsstring) (J I : nat) (m : list (list (option nat))) : Prop :=
  dims m (S (length b)) (S (length a)) ∧
  ∀ j i, j ≤ length b → i ≤ length a →
    j = 0 ∨ i = 0 ∨ j < J ∨ (j = J ∧ i < I) →
    mget m j i = Some (prefix_distance a b i j).

End Lev.

Export Lev.

(** ** The worker (TypoSM.js) *)

(** [String.prototype.toLowerCase] follows the Unicode case mapping of the
    host; the engine is written against this interface. *)
Class CaseMapping := toLowerCase : jsstring → jsstring.

(** The mapping restricted to the basic Latin letters (every other code unit
    is kept), enough to run the engine on romanised input. *)
Definition latin_toLowerCase : CaseMapping :=
  fmap (λ c : N, if ((65 <=? c) && (c <=? 90))%N then (c + 32)%N else c).

(** JavaScript numbers are IEEE 754 doubles: an arithmetic operation yields
    its exact result rounded to a double. Lengths, distances and their
    maximum are integers below 2^53 and exact; the division and the
    subtraction that compute a similarity score round. [round] is that
    rounding, on the rational value of a double. *)
Class Rounding := round : Q → Q.

(** What the range of a score rests on: rounding is monotone and leaves 0
    and 1 as they are. *)
Class RoundingLaws `{Hround : Rounding} : Prop := {
  round_le x y : (x <= y)%Q → (round x <= round y)%Q;
  round_0 : round 0 == 0;
  round_1 : round 1 == 1
}.

(** Arithmetic without rounding, to run the engine on sample data. *)
Definition exact : Rounding := λ x, x.

(** Rounding to the nearest double, ties to the even significand: a
    significand of 53 bits, scaled by a power of two. The range of the
    exponent is left out; no score comes near its ends. *)
Definition round_pos (n d : positive) : Q :=
  let e0 := (Z.log2 (Zpos n) - Z.log2 (Zpos d) - 52)%Z in
  let scaled (e : Z) := (Zpos n * 2 ^ Z.max 0 (- e), Zpos d * 2 ^ Z.max 0 e)%Z in
  let e := if ((scaled e0).1 / (scaled e0).2 <? 2 ^ 52)%Z then (e0 - 1)%Z else e0 in
  let '(num, den) := scaled e in
  let m0 := (num / den)%Z in
  let r := (num mod den)%Z in
  let m :=
    if (2 * r <? den)%Z then m0
    else if (den <? 2 * r)%Z then (m0 + 1)%Z
    else if Z.even m0 then m0 else (m0 + 1)%Z in
  Qred (Qmake (m * 2 ^ Z.max 0 e) (Z.to_pos (2 ^ Z.max 0 (- e)))).

Definition binary64 : Rounding := λ x,
  match Qnum x with
  | Z0 => 0%Q
  | Zpos n => round_pos n (Qden x)
  | Zneg n => (- round_pos n (Qden x))%Q
  end.

Module Engine.

(** *** Data *)

(** [keysToProcess = ['pinyin', 'hanzi']] *)
Inductive field := Pinyin | Hanzi.

#[global] Instance field_eq_dec : EqDecision field.
Proof. solve_decision. Defined.

Definition field_name (f : field) : jsstring :=
  match f with Pinyin => js "pinyin" | Hanzi => js "hanzi" end.

(** A dictionary record: the two fields delivered by the data load, each a
    string or absent, and the two properties [searchable_pinyin] and
    [searchable_hanzi] that [initialize] writes into the object. *)
Record record := Record_ {
  pinyin : option jsstring;
  hanzi : option jsstring;
  searchable_pinyin : option jsstring;
  searchable_hanzi : option jsstring
}.

(** [record[key]] for a key of [keysToProcess] *)
Definition raw_field (f : field) (r : record) : option jsstring :=
  match f with Pinyin => pinyin r | Hanzi => hanzi r end.

Definition get_searchable (f : field) (r : record) : option jsstring :=
  match f with Pinyin => searchable_pinyin r | Hanzi => searchable_hanzi r end.

(** [record[`searchable_${key}`] = s] *)
Definition set_searchable (f : field) (s : jsstring) (r : record) : record :=
  match f with
  | Pinyin => Record_ (pinyin r) (hanzi r) (Some s) (searchable_hanzi r)
  | Hanzi => Record_ (pinyin r) (hanzi r) (searchable_pinyin r) (Some s)
  end.

(** [record[`searchable_${key}`]] for an arbitrary string [key];
    [undefined] for a property the record does not have. *)
Definition searchable_prop (key : jsstring) (r : record) : option jsstring :=
  if decide (key = js "pinyin") then searchable_pinyin r
  else if decide (key = js "hanzi") then searchable_hanzi r
  else None.

Abbreviation bigramTable := (gmap (list N) (gmap (list N) Q)).
Abbreviation bucketGroup := (gmap nat (list nat)).
Abbreviation index := (gmap (list N) (gmap nat (list nat))).

(** The module-level state of the worker. Records are objects: [heap]
    holds them, [dictionary] and the buckets hold references (positions in
    [heap]). *)
Record worker := Worker {
  heap : list record;
  dictionary : list nat;
  bigramProbabilities : bigramTable;
  searchIndex : index
}.

(** [let dictionary = []; let bigramProbabilities = {}; let searchIndex = {};] *)
Definition initial_worker : worker := Worker [] [] ∅ ∅.

(** *** Values *)

(** What a read of the bigram table gives: nothing, a number of the table,
    or a value of the host that the table inherits from [Object.prototype].
    Of such a value the engine reads three things, which are what [Other]
    keeps of it: whether it is truthy ([!!v], [v || 0]), the number it
    converts to in the comparator ([None] for [NaN]), and whether the
    structured clone of [postMessage] copies it. *)
Inductive jsvalue :=
| Undefined
| Number (q : Q)
| Other (truthy : bool) (number : option Q) (cloneable : bool).

(** A function object, such as [Object] or [Object.prototype.toString]: it
    is truthy, [NaN] as a number, and refused by the structured clone
    ([DataCloneError]). *)
Definition function_object : jsvalue := Other true None false.

(** An object that is not a function and has no primitive value, such as
    [Object.prototype]: truthy, [NaN] as a number, copied as an object. *)
Definition plain_object : jsvalue := Other true None true.

(** A non-empty string that does not read as a number, such as the name
    of a function: truthy, [NaN] as a number, copied. *)
Definition text_value : jsvalue := Other true None true.

(** [!!v] *)
Definition ToBoolean (v : jsvalue) : bool :=
  match v with
  | Undefined => false
  | Number q => negb (Qeq_bool q 0)
  | Other truthy _ _ => truthy
  end.

(** The operand [v] of a subtraction; [None] is [NaN]. *)
Definition ToNumber (v : jsvalue) : option Q :=
  match v with
  | Undefined => None
  | Number q => Some q
  | Other _ number _ => number
  end.

(** Whether the structured clone copies [v]. *)
Definition serializable (v : jsvalue) : bool :=
  match v with
  | Undefined | Number _ => true
  | Other _ _ cloneable => cloneable
  end.

(** What an object made by [JSON.parse] has besides its own keys: the
    members of [Object.prototype], and what a read finds on such a
    member. *)
Class Prototype := {
  (** [o[name]] for an object [o] made by [JSON.parse] and a [name] that
      is not one of its keys; [Undefined] when [Object.prototype] has no
      such member *)
  inherited : jsstring → jsvalue;
  (** [o[name]?.[member]] for the same [o] and [name] *)
  inherited_member : jsstring → jsstring → jsvalue
}.

(** The functions of [Object.prototype] in ECMAScript, with their
    [length]. *)
Definition prototype_functions : list (string * Z) :=
  [("constructor", 1); ("hasOwnProperty", 1); ("isPrototypeOf", 1);
   ("propertyIsEnumerable", 1); ("toLocaleString", 0); ("toString", 0);
   ("valueOf", 0); ("__defineGetter__", 2); ("__defineSetter__", 2);
   ("__lookupGetter__", 1); ("__lookupSetter__", 1)]%Z.

(** The [length] of the function of [Object.prototype] named [name]. *)
Definition prototype_function (name : jsstring) : option Z :=
  (λ f, f.2.2) <$> list_find (λ f, js f.1 = name) prototype_functions.

(** [Object.prototype] as ECMAScript defines it, to run the engine on
    sample data: its eleven functions and the accessor [__proto__], which
    gives [Object.prototype] itself on an object made by [JSON.parse]. Of
    a function it lists [length], [name], the members it has under the
    names of [Object.prototype] (functions all, [__proto__] being
    [Function.prototype]), [apply], [bind] and [call], and the
    [prototype] of [Object]; the static methods of [Object] and the
    accessors [caller] and [arguments] are not listed. Of
    [Object.prototype] it lists the eleven functions;
    [Object.prototype.__proto__] is [null]. *)
Definition object_prototype : Prototype := {|
  inherited name :=
    if bool_decide (name = js "__proto__") then plain_object
    else match prototype_function name with
         | Some _ => function_object
         | None => Undefined
         end;
  inherited_member name member :=
    if bool_decide (name = js "__proto__") then
      match prototype_function member with
      | Some _ => function_object
      | None => Undefined
      end
    else match prototype_function name with
         | Some len =>
             if bool_decide (member = js "length") then Number (inject_Z len)
             else if bool_decide (member = js "name") then text_value
             else if bool_decide (member = js "prototype") then
               if bool_decide (name = js "constructor") then plain_object else Undefined
             else if bool_decide (member ∈ [js "apply"; js "bind"; js "call"; js "__proto__"])
             then function_object
             else match prototype_function member with
                  | Some _ => function_object
                  | None => Undefined
                  end
         | None => Undefined
         end
|}.

(** *** Messages and effects *)

(** The [options] of a search; a property can be missing. *)
Record options := Options {
  key : option jsstring;
  threshold : option Q;
  lengthTolerance : option Z
}.

(** The [payload] of a [search] message. *)
Record payload := Payload {
  query : jsstring;
  search_options : options;
  previousWordHanzi : option jsstring
}.

(** What the two fetches deliver to one run of [initialize]. *)
Inductive loadOutcome :=
| LoadFailed (message : string)
    (** a fetch rejects, a response is not [ok], or the dictionary body
        does not parse: thrown before any assignment *)
| BigramFailed (dict : list record) (message : string)
    (** [dictionary] is assigned, then the bigram body does not parse *)
| Loaded (dict : list record) (bigram : bigramTable).

(** A message delivered to the worker; an [init] comes with what its
    fetches deliver. *)
Inductive event :=
| Init (o : loadOutcome)
| Search (p : payload) (searchId : nat)
| Unhandled.                     (* any other [type]: the switch has no default *)

(** A result: the record, by reference, its similarity score and what
    the read of the bigram table gave. *)
Inductive result := Result { item : nat; score : Q; bigramScore : jsvalue }.

(** The messages the worker posts. *)
Inductive outMessage :=
| InitSuccess
| InitError (error : string)
| SearchResults (results : list result) (searchId : nat).

(** What a handler does besides changing the state. *)
Inductive effect :=
| ConsoleLog (line : string)
| ConsoleError (line error : string)
| PostMessage (m : outMessage).

(** *** Normalisation (line 82) *)

(** The code units [String.prototype.trim] removes: WhiteSpace and
    LineTerminator of ECMAScript. *)
Definition is_white_space (c : N) : bool :=
  bool_decide (c ∈ [9; 10; 11; 12; 13; 32; 160; 5760; 8232; 8233; 8239; 8287;
                    12288; 65279]%N)
  || ((8192 <=? c) && (c <=? 8202))%N.

Fixpoint trimStart (s : jsstring) : jsstring :=
  match s with
  | c :: s' => if is_white_space c then trimStart s' else s
  | [] => []
  end.

Definition trim (s : jsstring) : jsstring := rev (trimStart (rev (trimStart s))).

(** [/[0-9]/] *)
Definition is_digit (c : N) : bool := ((48 <=? c) && (c <=? 57))%N.

(** [.replace(/[0-9]/g, '')] *)
Definition strip_digits (s : jsstring) : jsstring :=
  filter (λ c, is_digit c = false) s.

Section Host.
Context `{Hcase : CaseMapping} `{Hround : Rounding} `{Hproto : Prototype}.

(** [target.trim().replace(/[0-9]/g, '').toLowerCase()] *)
Definition normalize (target : jsstring) : jsstring :=
  toLowerCase (strip_digits (trim target)).

(** *** initialize (lines 58-93) *)

(** [if (!searchIndex[key][len]) searchIndex[key][len] = [];
     searchIndex[key][len].push(record);]
    The group [searchIndex[key]] exists: the loop runs on the index
    [{ pinyin: {}, hanzi: {} }] with a key of [keysToProcess]. *)
Definition push_bucket (key : jsstring) (len : nat) (r : nat) (idx : index) : index :=
  alter (λ grp : bucketGroup, <[len := default [] (grp !! len) ++ [r]]> grp) key idx.

(** The body of [for (const key of keysToProcess)], for the record
    referenced by [r]. A reference always names a heap object. *)
Definition index_field (r : nat) (st : list record * index) (f : field)
  : list record * index :=
  match st.1 !! r with
  | None => st
  | Some rec =>
      match raw_field f rec with
      | None => st                                  (* typeof target !== 'string' *)
      | Some target =>
          if bool_decide (target = []) then st      (* !target *)
          else
            let searchableTarget := normalize target in
            if bool_decide (searchableTarget = []) then st
            else (<[r := set_searchable f searchableTarget rec]> st.1,
                  push_bucket (field_name f) (length searchableTarget) r st.2)
      end
  end.

(** The body of [for (const record of dictionary)]. *)
Definition index_record (st : list record * index) (r : nat) : list record * index :=
  foldl (index_field r) st [Pinyin; Hanzi].

(** [searchIndex = { pinyin: {}, hanzi: {} }; for (const record of dictionary) ...] *)
Definition build_index (h : list record) (dict : list nat) : list record * index :=
  foldl index_record (h, {[ js "pinyin" := ∅; js "hanzi" := ∅ ]}) dict.

(** [dictionary = await dictResponse.json()]: the parsed records are new
    objects, allocated at the end of the heap. *)
Definition assign_dictionary (w : worker) (dict : list record) : worker :=
  Worker (heap w ++ dict) (seq (length (heap w)) (length dict))
         (bigramProbabilities w) (searchIndex w).

(** Returns the new state, the console output and the exception thrown,
    if any. *)
Definition initialize (w : worker) (o : loadOutcome)
  : worker * list effect * option string :=
  match o with
  | LoadFailed message =>
      (w, [ConsoleLog "[Worker] Loading data..."], Some message)
  | BigramFailed dict message =>
      (assign_dictionary w dict, [ConsoleLog "[Worker] Loading data..."], Some message)
  | Loaded dict bigram =>
      let w1 := assign_dictionary w dict in
      let st := build_index (heap w1) (dictionary w1) in
      (Worker st.1 (dictionary w1) bigram st.2,
       [ConsoleLog "[Worker] Loading data...";
        ConsoleLog "[Worker] Pre-processing and indexing data...";
        ConsoleLog "[Worker] Indexing complete."],
       None)
  end.

(** *** performSearch (lines 104-145) *)

(** A loop whose body can throw: the first exception ends it. *)
Fixpoint foldlM {A B} (f : A → B → option A) (a : A) (l : list B) : option A :=
  match l with
  | [] => Some a
  | x :: l' => a' ← f a x; foldlM f a' l'
  end.

(** [!!(previousWordHanzi && bigramProbabilities[previousWordHanzi])]: a
    row of the table is an object, which is truthy; under a name that is
    not a key of the table the read finds what the table inherits. *)
Definition hasBigramContext (w : worker) (previousWordHanzi : option jsstring) : bool :=
  match previousWordHanzi with
  | None | Some [] => false
  | Some p =>
      match bigramProbabilities w !! p with
      | Some _ => true
      | None => ToBoolean (inherited p)
      end
  end.

(** [v || 0] *)
Definition or_zero (v : jsvalue) : jsvalue :=
  if ToBoolean v then v else Number 0.

(** [bigramProbabilities[p]?.[hanzi]]: the entry of the row of [p]; what
    the row inherits under the name [hanzi] when it has no such entry;
    what the member the table inherits under the name [p] has under the
    name [hanzi] when the table has no such row. *)
Definition read_bigram (w : worker) (p hz : jsstring) : jsvalue :=
  match bigramProbabilities w !! p with
  | Some row =>
      match row !! hz with
      | Some q => Number q
      | None => inherited hz
      end
  | None => inherited_member p hz
  end.

(** [bigramProbabilities[previousWordHanzi]?.[hanzi] || 0]. The code
    evaluates it under [hasBigramContext], hence for a string. *)
Definition lookup_bigram (w : worker) (previousWordHanzi : option jsstring)
  (hz : jsstring) : jsvalue :=
  or_zero (match previousWordHanzi with
           | Some p => read_bigram w p hz
           | None => Undefined
           end).

(** [1 - distance / Math.max(queryLength, target.length)], for a non-zero
    maximum *)
Definition similarityScore (distance m : nat) : Q :=
  round (1 - round (inject_Z (Z.of_nat distance) / inject_Z (Z.of_nat m)))%Q.

(** The body of [for (const record of bucket)]; [None] is the [TypeError]
    of [levenshteinDistance] reading [b.length] on an [undefined] target
    (a reference always names a heap object). *)
Definition visit_record (w : worker) (k normalizedQuery : jsstring) (thr : Q)
  (previousWordHanzi : option jsstring) (results : list result) (r : nat)
  : option (list result) :=
  rec ← heap w !! r;
  match hanzi rec with
  | None | Some [] => Some results                     (* if (!hanzi) continue; *)
  | Some hz =>
      target ← searchable_prop k rec;
      let distance := levenshteinDistance normalizedQuery target in
      let m := Nat.max (length normalizedQuery) (length target) in
      if bool_decide (m = 0) then Some results         (* 0 / 0 is NaN *)
      else
        let score := similarityScore distance m in
        if Qle_bool thr score then
          let bigramScore :=
            if hasBigramContext w previousWordHanzi
            then lookup_bigram w previousWordHanzi hz
            else Number 0 in
          Some (results ++ [Result r score bigramScore])
        else Some results
  end.

(** The body of the [for (let len = ...)] loop. *)
Definition visit_bucket (w : worker) (grp : bucketGroup) (k normalizedQuery : jsstring)
  (thr : Q) (previousWordHanzi : option jsstring) (results : list result) (len : Z)
  : option (list result) :=
  match grp !! Z.to_nat len with
  | None => Some results                               (* if (!bucket) continue; *)
  | Some bucket =>
      foldlM (visit_record w k normalizedQuery thr previousWordHanzi) results bucket
  end.

(** The values [len] takes:
    [Math.max(1, queryLength - lengthTolerance) <= len <= queryLength + lengthTolerance]. *)
Definition candidate_lengths (queryLength tolerance : Z) : list Z :=
  let first := Z.max 1 (queryLength - tolerance) in
  seqZ first (queryLength + tolerance - first + 1).

(** [u - v]: [NaN] ([None]) unless both operands convert to numbers. The
    difference of two doubles has the sign of the exact difference, which
    is all [sort] reads of it. *)
Definition subtract (u v : jsvalue) : option Q :=
  x ← ToNumber u; y ← ToNumber v; Some (x - y)%Q.

(** The comparator passed to [sort]. *)
Definition compare_results (a b : result) : option Q :=
  if negb (Qeq_bool (score b) (score a)) then Some (score b - score a)%Q
  else subtract (bigramScore b) (bigramScore a).

(** What [sort] reads of a result [v] of the comparator: whether it is
    positive. [NaN] is read as [+0]. *)
Definition not_positive (v : option Q) : bool :=
  match v with
  | Some q => Qle_bool q 0
  | None => true
  end.

(** [Array.prototype.sort(comparefn)] is stable (ECMAScript 2019): the
    result is the one of inserting each element, from the last to the
    first, in front of the first element it does not have to follow. For
    a comparator that is not consistent, which takes a [bigramScore] that
    is [NaN] as a number, ECMAScript leaves the order to the
    implementation. The statements then use of the array only that it is
    a permutation of the elements, non-increasing in similarity score (the
    comparator orders results of different similarity scores
    consistently), and say no more of its order. *)
Fixpoint sort_insert {A} (comparefn : A → A → option Q) (x : A) (l : list A) : list A :=
  match l with
  | [] => [x]
  | y :: l' =>
      if not_positive (comparefn x y) then x :: l else y :: sort_insert comparefn x l'
  end.

Definition sort {A} (comparefn : A → A → option Q) (l : list A) : list A :=
  foldr (sort_insert comparefn) [] l.

(** The array [results] when the loops end, before it is sorted. *)
Definition collect_results (w : worker) (grp : bucketGroup) (k normalizedQuery : jsstring)
  (thr : Q) (tolerance : Z) (previousWordHanzi : option jsstring)
  : option (list result) :=
  foldlM (visit_bucket w grp k normalizedQuery thr previousWordHanzi) []
    (candidate_lengths (Z.of_nat (length normalizedQuery)) tolerance).

Definition performSearch (w : worker) (query : jsstring) (o : options)
  (previousWordHanzi : option jsstring) : option (list result) :=
  let thr := default (round (6 # 10)) (threshold o) in
  let tolerance := default 2%Z (lengthTolerance o) in
  match query, key o with
  | [], _ | _, None | _, Some [] => Some []            (* !query || !key *)
  | _, Some k =>
      match searchIndex w !! k with
      | None => Some []          (* !searchIndex[key], or no bucket in what
                                    the index inherits under that name *)
      | Some grp =>
          results ← collect_results w grp k (toLowerCase query) thr tolerance
                      previousWordHanzi;
          Some (sort compare_results results)
      end
  end.

(** *** Message handling (lines 148-168) *)

(** [self.onmessage]: the switch on [type]. *)
Definition onmessage (w : worker) (e : event) : worker * list effect :=
  match e with
  | Init o =>
      let '(w', log, thrown) := initialize w o in
      match thrown with
      | None => (w', log ++ [PostMessage InitSuccess])
      | Some message =>
          (w', log ++ [ConsoleError "[Worker] Init error:" message;
                       PostMessage (InitError message)])
      end
  | Search p searchId =>
      match performSearch w (query p) (search_options p) (previousWordHanzi p) with
      | Some results =>
          if forallb (λ x, serializable (bigramScore x)) results
          then (w, [PostMessage (SearchResults results searchId)])
          else (w, [])           (* [DataCloneError]: the handler rejects *)
      | None => (w, [])          (* uncaught exception: the handler rejects *)
      end
  | Unhandled => (w, [])
  end.

(** The worker over a sequence of messages, with everything it emits. *)
Fixpoint run (w : worker) (events : list event) : worker * list effect :=
  match events with
  | [] => (w, [])
  | e :: events' =>
      let '(w1, out1) := onmessage w e in
      let '(w2, out2) := run w1 events' in
      (w2, out1 ++ out2)
  end.

(** The states the worker can be in. *)
Inductive reachable : worker → Prop :=
| reachable_initial : reachable initial_worker
| reachable_step w e : reachable w → reachable (onmessage w e).1.

End Host.

End Engine.

(** ** The client (TypoAPI.js): request and response correlation *)

Module Client.

Import Engine.

(** The promise returned by [search]. *)
Inductive promise := Pending | Resolved (results : list result).

(** A message posted to the worker. *)
Inductive workerMessage :=
| InitMessage
| SearchMessage (p : payload) (searchId : nat).

(** The fields of a [TypoAPI] instance the correlation uses, the promises
    it has handed out and the messages it has posted. A resolver is named
    by the promise it resolves. *)
Record api := Api {
  pendingSearches : gmap nat nat;
  searchIdCounter : nat;
  promises : list promise;
  posted : list workerMessage
}.

(** [this.pendingSearches = new Map(); this.searchIdCounter = 0;] *)
Definition constructor : api := Api ∅ 0 [] [].

(** [new Promise(resolve => ...)] *)
Definition new_promise (st : api) : api * nat :=
  (Api (pendingSearches st) (searchIdCounter st) (promises st ++ [Pending]) (posted st),
   length (promises st)).

(** [const id = this.searchIdCounter++; this.pendingSearches.set(id, resolve);] *)
Definition register (st : api) (resolve : nat) : api * nat :=
  let id := searchIdCounter st in
  (Api (<[id := resolve]> (pendingSearches st)) (S id) (promises st) (posted st), id).

(** [this.worker.postMessage(m)] *)
Definition postMessage (st : api) (m : workerMessage) : api :=
  Api (pendingSearches st) (searchIdCounter st) (promises st) (posted st ++ [m]).

(** [search(query, options, previousWordHanzi = null)]: the new state and
    the promise returned. *)
Definition search (st : api) (p : payload) : api * nat :=
  let '(st1, resolve) := new_promise st in
  let '(st2, id) := register st1 resolve in
  (postMessage st2 (SearchMessage p id), resolve).

(** Calling a resolver: a promise is settled once. *)
Definition resolve_promise (p : nat) (results : list result) (ps : list promise)
  : list promise :=
  match ps !! p with
  | Some Pending => <[p := Resolved results]> ps
  | _ => ps
  end.

(** [_handleSearchResult(event)] on the message [event.data]. The handler
    is attached when the worker reports [init_success], which is when
    [create] hands out the instance. *)
Definition _handleSearchResult (st : api) (m : outMessage) : api :=
  match m with
  | SearchResults results searchId =>
      match pendingSearches st !! searchId with
      | Some cb =>
          Api (delete searchId (pendingSearches st)) (searchIdCounter st)
              (resolve_promise cb results (promises st)) (posted st)
      | None => st
      end
  | _ => st
  end.

(** Several calls of [search], none of them answered in between. *)
Fixpoint search_all (st : api) (requests : list payload) : api * list nat :=
  match requests with
  | [] => (st, [])
  | p :: requests' =>
      let '(st1, pr) := search st p in
      let '(st2, prs) := search_all st1 requests' in
      (st2, pr :: prs)
  end.

(** The responses [messages], handled in the order of their arrival. *)
Definition deliver (st : api) (messages : list outMessage) : api :=
  foldl _handleSearchResult st messages.

(** The states an instance can be in. *)
Inductive reachable : api → Prop :=
| reachable_new : reachable constructor
| reachable_search st p : reachable st → reachable (search st p).1
| reachable_result st m : reachable st → reachable (_handleSearchResult st m).

End Client.

(** ** The input method (TypoAPI.js): creation, attachment and handlers *)

Module Ime.

Import Engine Client.

(** *** Methods of strings and arrays *)

(** An index argument of [slice]: counted from the end when it is
    negative, and clamped to the length. *)
Definition relative_index (len i : Z) : Z :=
  if (i <? 0)%Z then Z.max (len + i) 0 else Z.min i len.

(** [s.slice(start, end)], of a string or of an array; [end_] is [None]
    when the argument is not given. *)
Definition slice {A} (s : list A) (start : Z) (end_ : option Z) : list A :=
  let len := Z.of_nat (length s) in
  let from := relative_index len start in
  let to := match end_ with Some e => relative_index len e | None => len end in
  take (Z.to_nat (to - from)) (drop (Z.to_nat from) s).

(** [s.endsWith(searchString)] *)
Definition endsWith (s searchString : jsstring) : bool :=
  if length s <? length searchString then false
  else bool_decide (drop (length s - length searchString) s = searchString).

(** [array.at(-1)] *)
Definition at_last {A} (l : list A) : option A := last l.

Definition is_leading_surrogate (c : N) : bool := ((55296 <=? c) && (c <=? 56319))%N.

Definition is_trailing_surrogate (c : N) : bool := ((56320 <=? c) && (c <=? 57343))%N.

(** [[...s]]: the iterator of a string yields its code points, a
    surrogate pair as one string of two code units. *)
Fixpoint code_points (s : jsstring) : list jsstring :=
  match s with
  | [] => []
  | c :: s' =>
      match s' with
      | d :: s'' =>
          if is_leading_surrogate c && is_trailing_surrogate d
          then [c; d] :: code_points s''
          else [c] :: code_points s'
      | [] => [[c]]
      end
  end.

(** [String(v)] of a string or [undefined] *)
Definition to_string (v : option jsstring) : jsstring := default (js "undefined") v.

(** *** The fragment being typed (line 108) *)

(** [\w]: without the [u] flag the [i] flag adds nothing to the class. *)
Definition is_word_char (c : N) : bool :=
  ((48 <=? c) && (c <=? 57) || (65 <=? c) && (c <=? 90) || (c =? 95)
   || (97 <=? c) && (c <=? 122))%N.

(** [[\w']] *)
Definition in_fragment_class (c : N) : bool := is_word_char c || (c =? 39)%N.

(** [val.match(/[\w']+$/i)]: the match at the leftmost position from
    which the class matches one or more times up to the end of the
    string; [m[0]], or [None] for [null]. *)
Fixpoint match_fragment (val : jsstring) : option jsstring :=
  match val with
  | [] => None
  | _ :: val' => if forallb in_fragment_class val then Some val else match_fragment val'
  end.

(** *** The page *)

(** A child of the suggestions element: a button made by
    [_displaySuggestions], or what an assignment to [innerHTML] parses to,
    kept as its markup. *)
Inductive node :=
| Markup (html : string)
| Button (className textContent dataset_hanzi : jsstring).

Definition is_ascii_whitespace (c : N) : bool := bool_decide (c ∈ [9; 10; 12; 13; 32]%N).

(** The tokens of a [class] attribute; [cur] is the token being read. *)
Fixpoint tokens (cur s : jsstring) : list jsstring :=
  match s with
  | [] => match cur with [] => [] | _ => [cur] end
  | c :: s' =>
      if is_ascii_whitespace c
      then match cur with [] => tokens [] s' | _ => cur :: tokens [] s' end
      else tokens (cur ++ [c]) s'
  end.

(** [n.matches('.suggestion-btn')] *)
Definition matches_suggestion_btn (n : node) : bool :=
  match n with
  | Button className _ _ => bool_decide (js "suggestion-btn" ∈ tokens [] className)
  | Markup _ => false      (* the [i] element of the notice has no class *)
  end.

(** [n.dataset.hanzi] *)
Definition dataset_of (n : node) : option jsstring :=
  match n with
  | Button _ _ h => Some h
  | Markup _ => None
  end.

(** What reaches the page besides the state of the two elements: the
    calls of the callback [onCommit] (named by the callback), of
    [inputEl.focus] and of [e.preventDefault]. *)
Inductive call :=
| OnCommit (callback : option nat) (text : jsstring)
| Focus
| PreventDefault.

(** *** The instance *)

(** A result as the page receives it: [postMessage] copies the record. *)
Record suggestion := Suggestion {
  record_of : record;            (* [item] *)
  score_of : Q;
  bigramScore_of : jsvalue
}.

(** The fields of the input method, with the part of the two elements
    the handlers read and write. *)
Record ime := Ime {
  onCommit : option nat;                  (* [None]: the initial [() => {}] *)
  conversationHistory : list jsstring;
  currentPinyinQuery : jsstring;
  currentSuggestions : list suggestion;
  suggestionLimit : Z;
  suggestionBtnClass : jsstring;
  value : jsstring;                       (* [inputEl.value] *)
  children : list node;                   (* of [suggestionsEl] *)
  calls : list call
}.

Definition set_onCommit (f : option nat) (s : ime) : ime :=
  Ime f (conversationHistory s) (currentPinyinQuery s) (currentSuggestions s)
      (suggestionLimit s) (suggestionBtnClass s) (value s) (children s) (calls s).

Definition set_conversationHistory (h : list jsstring) (s : ime) : ime :=
  Ime (onCommit s) h (currentPinyinQuery s) (currentSuggestions s)
      (suggestionLimit s) (suggestionBtnClass s) (value s) (children s) (calls s).

Definition set_currentPinyinQuery (q : jsstring) (s : ime) : ime :=
  Ime (onCommit s) (conversationHistory s) q (currentSuggestions s)
      (suggestionLimit s) (suggestionBtnClass s) (value s) (children s) (calls s).

Definition set_currentSuggestions (l : list suggestion) (s : ime) : ime :=
  Ime (onCommit s) (conversationHistory s) (currentPinyinQuery s) l
      (suggestionLimit s) (suggestionBtnClass s) (value s) (children s) (calls s).

Definition set_suggestionLimit (n : Z) (s : ime) : ime :=
  Ime (onCommit s) (conversationHistory s) (currentPinyinQuery s) (currentSuggestions s)
      n (suggestionBtnClass s) (value s) (children s) (calls s).

Definition set_suggestionBtnClass (c : jsstring) (s : ime) : ime :=
  Ime (onCommit s) (conversationHistory s) (currentPinyinQuery s) (currentSuggestions s)
      (suggestionLimit s) c (value s) (children s) (calls s).

Definition set_value (v : jsstring) (s : ime) : ime :=
  Ime (onCommit s) (conversationHistory s) (currentPinyinQuery s) (currentSuggestions s)
      (suggestionLimit s) (suggestionBtnClass s) v (children s) (calls s).

Definition set_children (l : list node) (s : ime) : ime :=
  Ime (onCommit s) (conversationHistory s) (currentPinyinQuery s) (currentSuggestions s)
      (suggestionLimit s) (suggestionBtnClass s) (value s) l (calls s).

Definition add_call (c : call) (s : ime) : ime :=
  Ime (onCommit s) (conversationHistory s) (currentPinyinQuery s) (currentSuggestions s)
      (suggestionLimit s) (suggestionBtnClass s) (value s) (children s) (calls s ++ [c]).

(** The methods registered as listeners. *)
Inductive method :=
| HandleInitMessage | HandleSearchResult | HandleInput | HandleSuggestionClick
| HandleFormSubmit.

(** A function value: a method read from the instance, or what a call of
    [bind] returned; every call returns a new function. *)
Inductive callback := Unbound (m : method) | Bound (m : method) (serial : nat).

(** The targets of the listeners. Each receives one type of event:
    ['message'], ['input'], ['click'], ['submit']. *)
Inductive target := TheWorker | InputEl | SuggestionsEl | TheForm.

Record listener := Listener { listens_on : target; calls_back : callback }.

#[global] Instance method_eq_dec : EqDecision method.
Proof. solve_decision. Defined.

#[global] Instance callback_eq_dec : EqDecision callback.
Proof. solve_decision. Defined.

#[global] Instance target_eq_dec : EqDecision target.
Proof. solve_decision. Defined.

#[global] Instance listener_eq_dec : EqDecision listener.
Proof. solve_decision. Defined.

(** The promise [create] returns. *)
Inductive creation := Creating | Created | Rejected (error : string).

(** An instance with its worker and its page: the correlation state
    ([base]), the listeners registered on the worker and on the elements,
    the number of functions [bind] has made, the promise of [create], the
    calls of [_handleInput] suspended at their [await] (the promise awaited
    and the query [q]), the two element fields ([false] for [null]) and
    the fields of the input method. *)
Record instance := Instance {
  base : api;
  listeners : list listener;
  bound : nat;
  created : creation;
  awaiting : list (nat * jsstring);
  inputEl : bool;
  suggestionsEl : bool;
  state : ime
}.

Definition set_base (b : api) (st : instance) : instance :=
  Instance b (listeners st) (bound st) (created st) (awaiting st)
           (inputEl st) (suggestionsEl st) (state st).

Definition set_listeners (l : list listener) (st : instance) : instance :=
  Instance (base st) l (bound st) (created st) (awaiting st)
           (inputEl st) (suggestionsEl st) (state st).

Definition set_created (c : creation) (st : instance) : instance :=
  Instance (base st) (listeners st) (bound st) c (awaiting st)
           (inputEl st) (suggestionsEl st) (state st).

Definition set_awaiting (a : list (nat * jsstring)) (st : instance) : instance :=
  Instance (base st) (listeners st) (bound st) (created st) a
           (inputEl st) (suggestionsEl st) (state st).

Definition set_elements (i s : bool) (st : instance) : instance :=
  Instance (base st) (listeners st) (bound st) (created st) (awaiting st) i s (state st).

Definition set_state (s : ime) (st : instance) : instance :=
  Instance (base st) (listeners st) (bound st) (created st) (awaiting st)
           (inputEl st) (suggestionsEl st) s.

(** [this.m.bind(this)] *)
Definition bind_method (m : method) (st : instance) : instance * callback :=
  (Instance (base st) (listeners st) (S (bound st)) (created st) (awaiting st)
            (inputEl st) (suggestionsEl st) (state st),
   Bound m (bound st)).

(** [t.addEventListener(type, f)]: a listener registered already is not
    registered again. *)
Definition addEventListener (t : target) (f : callback) (st : instance) : instance :=
  if bool_decide (Listener t f ∈ listeners st) then st
  else set_listeners (listeners st ++ [Listener t f]) st.

(** [t.removeEventListener(type, f)] *)
Definition removeEventListener (t : target) (f : callback) (st : instance) : instance :=
  set_listeners (filter (λ l, l ≠ Listener t f) (listeners st)) st.

Section Host.
Context `{Hcase : CaseMapping} `{Hround : Rounding} `{Hproto : Prototype}.

(** *** constructor and create (lines 12-57) *)

(** The fields the constructor sets, on a page whose input holds
    [value0] and whose suggestions element holds [children0]. *)
Definition initial_ime (value0 : jsstring) (children0 : list node) : ime :=
  Ime None [] [] [] 15 (js "btn btn-outline-secondary suggestion-btn")
      value0 children0 [].

(** [new TypoAPI(worker)] *)
Definition constructor (value0 : jsstring) (children0 : list node) : instance :=
  let st := Instance Client.constructor [] 0 Creating [] false false
                     (initial_ime value0 children0) in
  let '(st1, f) := bind_method HandleInitMessage st in
  addEventListener TheWorker f st1.

(** [TypoAPI.create()], up to the promise it returns: the worker is
    made from the script, the instance is constructed, the two functions of
    the promise are stored and [init] is posted. *)
Definition create (value0 : jsstring) (children0 : list node) : instance :=
  let st := constructor value0 children0 in
  set_base (postMessage (base st) InitMessage) st.

(** [_initResolve(this)] and [_initReject(e)]: a promise is settled once. *)
Definition settle (c : creation) (st : instance) : instance :=
  match created st with
  | Creating => set_created c st
  | _ => st
  end.

(** [_handleInitMessage(event)] (lines 60-69) *)
Definition _handleInitMessage (m : outMessage) (st : instance) : instance :=
  match m with
  | InitSuccess =>
      let st1 := removeEventListener TheWorker (Unbound HandleInitMessage) st in
      let '(st2, f) := bind_method HandleSearchResult st1 in
      let st3 := addEventListener TheWorker f st2 in
      settle Created st3
  | InitError error => settle (Rejected error) st
  | SearchResults _ _ => st
  end.

(** *** attach (lines 72-82) *)

(** The argument of [attach]: whether the two elements are given and
    whether the input has a form, and the three optional properties. *)
Record attachOptions := AttachOptions {
  with_inputEl : bool;
  with_suggestionsEl : bool;
  with_form : bool;
  with_onCommit : option nat;
  with_suggestionLimit : option Z;
  with_suggestionBtnClass : option jsstring
}.

(** [None] is the [Error] thrown when an element is missing. *)
Definition attach (o : attachOptions) (st : instance) : option instance :=
  if negb (with_inputEl o) || negb (with_suggestionsEl o) then None
  else
    let s0 := state st in
    let s1 := match with_onCommit o with Some f => set_onCommit (Some f) s0 | None => s0 end in
    let s2 := match with_suggestionLimit o with
              | Some n => set_suggestionLimit n s1
              | None => s1
              end in
    let s3 := match with_suggestionBtnClass o with
              | Some ((_ :: _) as c) => set_suggestionBtnClass c s2
              | _ => s2
              end in
    let st0 := set_state s3 (set_elements true true st) in
    let '(st1, f1) := bind_method HandleInput st0 in
    let st2 := addEventListener InputEl f1 st1 in
    let '(st3, f2) := bind_method HandleSuggestionClick st2 in
    let st4 := addEventListener SuggestionsEl f2 st3 in
    if with_form o then
      let '(st5, f3) := bind_method HandleFormSubmit st4 in
      Some (addEventListener TheForm f3 st5)
    else Some st4.

(** *** The handlers of the page (lines 105-158) *)

(** [_clearSuggestions()] *)
Definition _clearSuggestions (s : ime) : ime :=
  set_children [] (set_currentSuggestions [] (set_currentPinyinQuery [] s)).

(** The button [_displaySuggestions] makes for a suggestion. The setter
    of [textContent] takes [undefined] for the empty string, the one of
    [dataset] converts to a string. *)
Definition button (cls : jsstring) (x : suggestion) : node :=
  Button (js "suggestion-btn " ++ cls)
         (default [] (hanzi (record_of x)))
         (to_string (hanzi (record_of x))).

(** [_displaySuggestions(results)] *)
Definition _displaySuggestions (results : list suggestion) (s : ime) : ime :=
  let s1 := set_children [] s in
  let s2 := set_currentSuggestions (slice results 0 (Some (suggestionLimit s1))) s1 in
  match currentSuggestions s2 with
  | [] => set_children [Markup "<i>No suggestions.</i>"] s2
  | _ =>
      foldl (λ s' x, set_children (children s' ++ [button (suggestionBtnClass s') x]) s')
            s2 (currentSuggestions s2)
  end.

(** [_handleSuggestionClick(e)], for an event whose target answers
    [matches] to [matches('.suggestion-btn')] and has [dataset_hanzi] for
    [dataset.hanzi]. *)
Definition _handleSuggestionClick (matches : bool) (dataset_hanzi : option jsstring)
  (s : ime) : ime :=
  if matches then
    let base := slice (value s) 0 (Some (- Z.of_nat (length (currentPinyinQuery s))))%Z in
    add_call Focus (_clearSuggestions (set_value (base ++ to_string dataset_hanzi) s))
  else s.

(** [_handleFormSubmit(e)] *)
Definition _handleFormSubmit (s : ime) : ime :=
  let s1 := add_call PreventDefault s in
  let txt := trim (value s1) in
  let txt1 :=
    match currentPinyinQuery s1, currentSuggestions s1 with
    | _ :: _, x :: _ =>
        slice txt 0 (Some (- Z.of_nat (length (currentPinyinQuery s1))))%Z
        ++ to_string (hanzi (record_of x))
    | _, _ => txt
    end in
  match txt1 with
  | [] => s1
  | _ =>
      let s2 := add_call (OnCommit (onCommit s1) txt1) s1 in
      let s3 := set_conversationHistory (conversationHistory s2 ++ code_points txt1) s2 in
      _clearSuggestions (set_value [] s3)
  end.

(** [_handleInput(e)], for an event whose target has the value [val], up
    to its [await]: the call of [search] and the suspension on the promise
    it returns. *)
Definition _handleInput (val : jsstring) (st : instance) : instance :=
  match match_fragment val with
  | None => set_state (_clearSuggestions (state st)) st
  | Some m0 =>
      let q := toLowerCase m0 in
      let st1 := set_state (set_currentPinyinQuery q (state st)) st in
      let pre := slice val 0 (Some (- Z.of_nat (length q)))%Z in
      let ctx := match pre with
                 | [] => at_last (conversationHistory (state st1))
                 | _ => Some (slice pre (-1) None)
                 end in
      let opts := Options (Some (js "pinyin")) (Some (round (2 # 10))) None in
      let '(b, p) := search (base st1) (Payload q opts ctx) in
      set_awaiting (awaiting st1 ++ [(p, q)]) (set_base b st1)
  end.

(** [_handleInput] after its [await], with the query [q] of the call and
    the results the promise was resolved with. *)
Definition _handleInput_resume (q : jsstring) (res : list suggestion) (s : ime) : ime :=
  if endsWith (value s) q then _displaySuggestions res s else s.

(** *** Events *)

(** What happens to an instance: a message of the worker arrives, whose
    results name records of [objects]; the user edits the input, which then
    holds [val]; a click reaches the suggestions element, on a target
    described by what the handler reads of it; the form is submitted. *)
Inductive event :=
| Message (m : outMessage) (objects : list record)
| Input (val : jsstring)
| Click (matches : bool) (dataset_hanzi : option jsstring)
| Submit.

(** A click on a child of the suggestions element. *)
Definition click_on (n : node) : event := Click (matches_suggestion_btn n) (dataset_of n).

Definition event_target (e : event) : target :=
  match e with
  | Message _ _ => TheWorker
  | Input _ => InputEl
  | Click _ _ => SuggestionsEl
  | Submit => TheForm
  end.

(** The call of a listener. Only functions made by [bind] are registered
    (lemma [listeners_bound]); each is registered for the events its method
    handles. *)
Definition call_listener (f : callback) (e : event) (st : instance) : instance :=
  match f, e with
  | Bound HandleInitMessage _, Message m _ => _handleInitMessage m st
  | Bound HandleSearchResult _, Message m _ => set_base (_handleSearchResult (base st) m) st
  | Bound HandleInput _, Input val => _handleInput val st
  | Bound HandleSuggestionClick _, Click matches h =>
      set_state (_handleSuggestionClick matches h (state st)) st
  | Bound HandleFormSubmit _, Submit => set_state (_handleFormSubmit (state st)) st
  | _, _ => st
  end.

(** The records the page receives for the results of a message. *)
Definition received (objects : list record) (results : list result) : list suggestion :=
  omap (λ x, rec ← objects !! item x; Some (Suggestion rec (score x) (bigramScore x)))
       results.

(** What the promise [p] was resolved with. *)
Definition resolved_with (ps : list promise) (p : nat) : option (list result) :=
  match ps !! p with
  | Some (Resolved results) => Some results
  | _ => None
  end.

(** The calls of [_handleInput] whose promise is now resolved continue,
    in the order of their suspension. *)
Definition run_continuations (objects : list record) (st : instance) : instance :=
  let ps := promises (base st) in
  let ready := omap (λ a, results ← resolved_with ps a.1; Some (a.2, results))
                    (awaiting st) in
  let st1 := set_awaiting (filter (λ a, resolved_with ps a.1 = None) (awaiting st)) st in
  foldl (λ st' a, set_state (_handleInput_resume a.1 (received objects a.2) (state st')) st')
        st1 ready.

(** The microtasks run when a listener returns: only the listener of a
    message resolves a promise. *)
Definition microtasks (e : event) (st : instance) : instance :=
  match e with
  | Message _ objects => run_continuations objects st
  | _ => st
  end.

(** The listeners of the target are called in the order of their
    registration; one registered during the dispatch is not called, one
    removed during the dispatch is skipped. *)
Definition dispatch (e : event) (st : instance) : instance :=
  foldl (λ st' l, if bool_decide (l ∈ listeners st')
                  then microtasks e (call_listener (calls_back l) e st') else st')
        st (filter (λ l, listens_on l = event_target e) (listeners st)).

Definition step (st : instance) (e : event) : instance :=
  match e with
  | Input val => dispatch e (set_state (set_value val (state st)) st)
  | _ => dispatch e st
  end.

(** The states of an instance: after [create], the events of the worker
    and of the page; once the promise of [create] has handed out the
    instance, the calls of [attach] that do not throw and of [search] by the
    page. *)
Inductive reachable (value0 : jsstring) (children0 : list node) : instance → Prop :=
| reachable_create : reachable value0 children0 (create value0 children0)
| reachable_step st e :
    reachable value0 children0 st → reachable value0 children0 (step st e)
| reachable_attach st o st' :
    reachable value0 children0 st → created st = Created → attach o st = Some st' →
    reachable value0 children0 st'
| reachable_search st p :
    reachable value0 children0 st → created st = Created →
    reachable value0 children0 (set_base (search (base st) p).1 st).

End Host.

End Ime.

(** ** Vocabulary of the statements *)

Module Spec.

Import Engine Client.

Section Host.
Context `{Hcase : CaseMapping} `{Hround : Rounding} `{Hproto : Prototype}.

(** *** The index *)

(** The normalised form under which [initialize] indexes a record for the
    field [f], when it does. *)
Definition searchable_form (f : field) (rec : record) : option jsstring :=
  match raw_field f rec with
  | Some ((_ :: _) as target) =>
      match normalize target with [] => None | t => Some t end
  | _ => None
  end.

Definition form_length (h : list record) (f : field) (r : nat) : option nat :=
  rec ← h !! r; length <$> searchable_form f rec.

(** [searchIndex[key][len]], empty when there is no such bucket. *)
Definition bucket (idx : gmap (list N) (gmap nat (list nat))) (k : jsstring) (len : nat)
  : list nat :=
  default [] (grp ← idx !! k; grp !! len).

(** The reference [r] names a record whose searchable property for the
    field named [k] is its normalised form, of length [len]. *)
Definition entry_ok (h : list record) (k : jsstring) (len r : nat) : Prop :=
  ∃ f rec t, k = field_name f ∧ h !! r = Some rec ∧
             searchable_form f rec = Some t ∧ get_searchable f rec = Some t ∧
             length t = len.

(** Every reference in a bucket is such an entry of the bucket. *)
Definition index_ok (h : list record) (idx : gmap (list N) (gmap nat (list nat))) : Prop :=
  ∀ k grp len b r,
    idx !! k = Some grp → grp !! len = Some b → r ∈ b → entry_ok h k len r.

(** The index was built from the references [refs]: each bucket holds
    those whose record has a normalised form of the length of the bucket
    for the field of the bucket, in the order of [refs]. *)
Definition built_from (h : list record) (idx : gmap (list N) (gmap nat (list nat)))
  (refs : list nat) : Prop :=
  NoDup refs ∧ (∀ r, r ∈ refs → r < length h) ∧
  ∀ f len, bucket idx (field_name f) len
           = filter (λ r, form_length h f r = Some len) refs.

(** What one or more steps of the indexing loop do to the heap and to the
    index: the records keep their two fields, the index keeps its groups,
    each bucket receives the references [new] at its end. *)
Definition indexing_step (st st' : list record * gmap (list N) (gmap nat (list nat)))
  (new : field → nat → list nat) : Prop :=
  length st'.1 = length st.1 ∧
  (∀ r rec, st.1 !! r = Some rec →
     ∃ rec', st'.1 !! r = Some rec' ∧ pinyin rec' = pinyin rec ∧ hanzi rec' = hanzi rec) ∧
  (∀ k, is_Some (st'.2 !! k) ↔ is_Some (st.2 !! k)) ∧
  (∀ f len, bucket st'.2 (field_name f) len = bucket st.2 (field_name f) len ++ new f len) ∧
  (index_ok st.1 st.2 → index_ok st'.1 st'.2).

(** *** The search *)

(** The bucket [grp[len]] the loop visits, empty when there is none. *)
Definition bucket_at (grp : gmap nat (list nat)) (len : Z) : list nat :=
  default [] (grp !! Z.to_nat len).

(** The references the loops visit, in the order of the visit: the buckets
    by increasing length, each in insertion order. *)
Definition candidates (grp : gmap nat (list nat)) (q : jsstring) (tolerance : Z)
  : list nat :=
  candidate_lengths (Z.of_nat (length q)) tolerance ≫= bucket_at grp.

(** What visiting [r] appends to [results]. *)
Definition outcome (w : worker) (k q : jsstring) (thr : Q)
  (prev : option jsstring) (r : nat) : list result :=
  default [] (visit_record w k q thr prev [] r).

(** The record [r] passes the two tests of the loop body. *)
Definition accepts (w : worker) (k q : jsstring) (thr : Q) (r : nat) : bool :=
  match heap w !! r with
  | Some rec =>
      match hanzi rec, searchable_prop k rec with
      | Some (_ :: _), Some t =>
          Qle_bool thr (similarityScore (levenshteinDistance q t)
                          (Nat.max (length q) (length t)))
      | _, _ => false
      end
  | None => false
  end.

(** *** Names that [Object.prototype] does not have *)

(** A read under the name [n] finds nothing in [Object.prototype]. *)
Definition plain (n : jsstring) : Prop := inherited n = Undefined.

(** The hanzi of the record, when it has one, is such a name. *)
Definition plain_record (rec : record) : Prop := ∀ hz, hanzi rec = Some hz → plain hz.

(** The context, when there is one, is such a name. *)
Definition plain_context (prev : option jsstring) : Prop := ∀ p, prev = Some p → plain p.

(** No record of the worker has the name of a member of
    [Object.prototype] as its hanzi. *)
Definition plain_worker (w : worker) : Prop := Forall plain_record (heap w).

(** The message brings no such record and no such context. *)
Definition plain_event (e : event) : Prop :=
  match e with
  | Init (BigramFailed dict _) | Init (Loaded dict _) => Forall plain_record dict
  | Search p _ => plain_context (previousWordHanzi p)
  | _ => True
  end.

End Host.

(** *** The order of the results *)

(** [a] may stand before [b]: the comparator does not ask for the
    opposite order. *)
Definition before (a b : result) : Prop := not_positive (compare_results a b) = true.

(** The bigram score of [x] is a number, or converts to one: on such
    results the comparator does not return [NaN]. *)
Definition numeric (x : result) : Prop := is_Some (ToNumber (bigramScore x)).

(** [a] and [b] have the same two scores: the same similarity score, and
    bigram scores that are the same number, or [NaN] both. *)
Definition tie (a b : result) : bool :=
  Qeq_bool (score a) (score b) &&
  match ToNumber (bigramScore a), ToNumber (bigramScore b) with
  | Some u, Some v => Qeq_bool u v
  | None, None => true
  | _, _ => false
  end.

(** *** The console of the worker *)

Definition is_log (line : string) (e : effect) : bool :=
  match e with
  | ConsoleLog l => bool_decide (l = line)
  | _ => false
  end.

(** How often [initialize] was entered, and how often it reached the end
    of the index construction, as the console shows. *)
Definition load_attempts (out : list effect) : nat :=
  length (filter (λ e, is_log "[Worker] Loading data..." e) out).

Definition index_constructions (out : list effect) : nat :=
  length (filter (λ e, is_log "[Worker] Indexing complete." e) out).

Definition is_init (e : event) : bool :=
  match e with Init _ => true | _ => false end.

(** An [init] whose two fetches deliver their data. *)
Definition is_loaded_init (e : event) : bool :=
  match e with Init (Loaded _ _) => true | _ => false end.

(** *** The client *)

(** The pending entries name distinct promises that are still pending, under
    ids already handed out; the ids of the requests posted so far are below
    the counter. *)
Definition api_ok (st : api) : Prop :=
  (∀ id p, pendingSearches st !! id = Some p →
     id < searchIdCounter st ∧ promises st !! p = Some Pending) ∧
  (∀ id1 id2 p, pendingSearches st !! id1 = Some p →
     pendingSearches st !! id2 = Some p → id1 = id2) ∧
  (∀ p id, SearchMessage p id ∈ posted st → id < searchIdCounter st).

(** The response to the request [id], carrying the results [res id]. *)
Definition respond (res : nat → list result) (id : nat) : outMessage :=
  SearchResults (res id) id.

(** *** Further vocabulary: windows, message sequences, letters and digits *)

(** The record [r] has a non-empty hanzi field. *)
Definition has_hanzi (w : worker) (r : nat) : bool :=
  match heap w !! r ≫= hanzi with Some (_ :: _) => true | _ => false end.

(** The length [len] lies in the window of the loop over the buckets. *)
Definition in_window (queryLength tolerance len : Z) : bool :=
  bool_decide (Z.max 1 (queryLength - tolerance) ≤ len ≤ queryLength + tolerance)%Z.

(** The searchable property of the record [r], for the field named [k],
    has a length in the window. *)
Definition within_window (w : worker) (k : jsstring) (queryLength tolerance : Z) (r : nat)
  : bool :=
  match heap w !! r ≫= searchable_prop k with
  | Some t => in_window queryLength tolerance (Z.of_nat (length t))
  | None => false
  end.

(** The [searchId]s of the [search] messages, in the order of their
    arrival. *)
Definition search_ids (events : list event) : list nat :=
  omap (λ e, match e with Search _ id => Some id | _ => None end) events.

(** The [searchId]s of the [search_results] messages posted, in the order
    of their posting. *)
Definition reply_ids (out : list effect) : list nat :=
  omap (λ e, match e with PostMessage (SearchResults _ id) => Some id | _ => None end) out.

(** The [init_success] and [init_error] messages posted. *)
Definition init_replies (out : list effect) : list outMessage :=
  omap (λ e, match e with
             | PostMessage InitSuccess => Some InitSuccess
             | PostMessage (InitError m) => Some (InitError m)
             | _ => None
             end) out.

(** The message of the exception a load ends with, if it does. *)
Definition failed (o : loadOutcome) : option string :=
  match o with
  | LoadFailed m | BigramFailed _ m => Some m
  | Loaded _ _ => None
  end.

(** The lower case of a basic Latin letter; any other code unit below 128
    is its own lower case. *)
Definition ascii_toLowerCase (c : N) : N :=
  if ((65 <=? c) && (c <=? 90))%N then (c + 32)%N else c.

(** What the statements about letters and digits use of the case mapping
    of the host: on a string of code units below 128 it maps each code unit
    by itself, and the result has a digit exactly when the string has
    one. *)
Class CaseMappingLaws `{Hcase : CaseMapping} : Prop := {
  toLowerCase_ascii s :
    Forall (λ c, (c < 128)%N) s → toLowerCase s = ascii_toLowerCase <$> s;
  toLowerCase_digit s :
    Exists (λ c, is_digit c = true) (toLowerCase s) ↔ Exists (λ c, is_digit c = true) s
}.

End Spec.

(** ** Vocabulary of the statements about the input method *)

Module ImeSpec.

Import Engine Client Ime Spec.

(** A basic Latin capital letter. *)
Definition is_upper (c : N) : bool := ((65 <=? c) && (c <=? 90))%N.

(** [_clearSuggestions] has run and nothing was displayed since. *)
Definition cleared (s : ime) : Prop :=
  currentPinyinQuery s = [] ∧ currentSuggestions s = [] ∧ children s = [].

(** What a submission that commits [text] does to [s]: the callback is
    called with the text, the history receives its code points, the input is
    emptied and the suggestions are cleared; an empty text is not
    committed. *)
Definition commits (s s' : ime) (text : jsstring) : Prop :=
  match text with
  | [] => s' = add_call PreventDefault s
  | _ =>
      calls s' = calls s ++ [PreventDefault; OnCommit (onCommit s) text] ∧
      conversationHistory s' = conversationHistory s ++ code_points text ∧
      value s' = [] ∧ cleared s' ∧
      onCommit s' = onCommit s ∧ suggestionLimit s' = suggestionLimit s ∧
      suggestionBtnClass s' = suggestionBtnClass s
  end.

(** The target on which a method is registered. *)
Definition handles (m : method) : target :=
  match m with
  | HandleInitMessage | HandleSearchResult => TheWorker
  | HandleInput => InputEl
  | HandleSuggestionClick => SuggestionsEl
  | HandleFormSubmit => TheForm
  end.

(** The first listener, registered by the constructor. *)
Definition init_listener : listener := Listener TheWorker (Bound HandleInitMessage 0).

Definition is_search_listener (l : listener) : bool :=
  match calls_back l with Bound HandleSearchResult _ => true | _ => false end.

(** What holds of every state of an instance: the correlation state is
    consistent; every listener is a function made by [bind] for a method,
    registered on the target of the method; the suspended calls of
    [_handleInput] wait for promises that are pending; the listener of the
    constructor is registered, first, and no other listener calls
    [_handleInitMessage]; an instance that was handed out has a
    listener for the results, and a listener on the page only once the two
    elements are set. *)
Definition instance_ok (st : instance) : Prop :=
  api_ok (base st) ∧
  (∀ l, l ∈ listeners st → ∃ m n, l = Listener (handles m) (Bound m n) ∧ n < bound st) ∧
  (∀ a, a ∈ awaiting st → promises (base st) !! a.1 = Some Pending) ∧
  (∃ rest, listeners st = init_listener :: rest ∧
           ∀ l n, l ∈ rest → calls_back l ≠ Bound HandleInitMessage n) ∧
  (created st = Created → ∃ l, l ∈ listeners st ∧ is_search_listener l = true) ∧
  ((∃ l, l ∈ listeners st ∧ listens_on l ≠ TheWorker) →
   inputEl st = true ∧ suggestionsEl st = true).

(** The buttons shown are those of the current suggestions. *)
Definition shows (s : ime) : Prop :=
  match currentSuggestions s with
  | [] => Forall (λ n, matches_suggestion_btn n = false) (children s)
  | l => ∃ cls, children s = button cls <$> l
  end.

(** The fields after the assignments of [attach]. *)
Definition attach_fields (o : attachOptions) (s0 : ime) : ime :=
  let s1 := match with_onCommit o with Some f => set_onCommit (Some f) s0 | None => s0 end in
  let s2 := match with_suggestionLimit o with
            | Some n => set_suggestionLimit n s1
            | None => s1
            end in
  match with_suggestionBtnClass o with
  | Some ((_ :: _) as c) => set_suggestionBtnClass c s2
  | _ => s2
  end.

(** The listeners [attach] registers, for the number [n] of functions
    bound before. *)
Definition attach_listeners (o : attachOptions) (n : nat) : list listener :=
  [Listener InputEl (Bound HandleInput n);
   Listener SuggestionsEl (Bound HandleSuggestionClick (S n))]
  ++ (if with_form o then [Listener TheForm (Bound HandleFormSubmit (S (S n)))] else []).

(** The listeners registered on the input. *)
Definition input_listeners (st : instance) : list listener :=
  filter (λ l, listens_on l = InputEl) (listeners st).

Section Host.
Context `{Hcase : CaseMapping} `{Hround : Rounding} `{Hproto : Prototype}.

(** One step of the loop of [dispatch]. *)
Definition call_if (e : event) (st : instance) (l : listener) : instance :=
  if bool_decide (l ∈ listeners st)
  then microtasks e (call_listener (calls_back l) e st) else st.

End Host.

End ImeSpec.

(** ** Sample data *)

Module Samples.

Import Engine.

(** The characters of the scenarios: 你 李 好 们 *)
Definition ni : jsstring := [20320%N].
Definition li : jsstring := [26446%N].
Definition hao : jsstring := [22909%N].
Definition men : jsstring := [20204%N].

Definition entry (p : string) (h : jsstring) : record :=
  Record_ (Some (js p)) (Some h) None None.

(** [[{pinyin: "ni3", hanzi: "你"}, {pinyin: "li3", hanzi: "李"}]] *)
Definition scenario1 : list record := [entry "ni3" ni; entry "li3" li].

(** A record without a hanzi field. *)
Definition no_hanzi : list record := [Record_ (Some (js "ni3")) None None None].

(** [{"你": {"好": 0.9, "们": 0.05}}] *)
Definition bigrams : bigramTable :=
  {[ ni := {[ hao := (9 # 10)%Q; men := (5 # 100)%Q ]} ]}.

(** Two entries at the same distance of the query ["ao"]. *)
Definition scenario2 : list record := [entry "mao2" men; entry "hao3" hao].

(** An entry of the length of the query ["ni"] and one that is longer by one
    character: 您 *)
Definition nin : jsstring := [24744%N].
Definition scenario3 : list record := [entry "ni3" ni; entry "nin2" nin].

(** An entry without hanzi between two entries with one. *)
Definition mixed : list record :=
  [entry "ni3" ni; Record_ (Some (js "Ni2")) None None None; entry "li3" li].

(** A table with the empty string among its keys. *)
Definition empty_key_bigrams : bigramTable := {[ [] := {[ ni := (9 # 10)%Q ]} ]}.

(** [[{pinyin: "gou4", hanzi: "constructor"}]]: a record whose hanzi is the
    name of a member of [Object.prototype]. *)
Definition inherited_name : list record := [entry "gou4" (js "constructor")].

(** [{"你": {}}] *)
Definition empty_row : bigramTable := {[ ni := ∅ ]}.

Definition pinyin_options (thr : Q) (tol : option Z) : options :=
  Options (Some (js "pinyin")) (Some thr) tol.

Definition loaded (dict : list record) (bigram : bigramTable) : worker :=
  (@onmessage latin_toLowerCase exact object_prototype initial_worker (Init (Loaded dict bigram))).1.

Definition request (q : string) (thr : Q) (tol : option Z) (prev : option jsstring)
  : payload :=
  Payload (js q) (pinyin_options thr tol) prev.

End Samples.

(** ** Sample instances *)

Module ImeSamples.

Import Engine Client Ime Samples.

(** The steps of an instance on the basic Latin letters, in exact
    arithmetic. *)
Definition sample_step : instance → event → instance := @step latin_toLowerCase exact.

(** An instance on an empty page, before the worker has answered. *)
Definition fresh : instance := create [] [].

(** The same once the worker has reported [init_success]. *)
Definition ready : instance := sample_step fresh (Message InitSuccess []).

Definition form_options : attachOptions := AttachOptions true true true None None None.

(** The instance [create] resolves with, attached to an input with a
    form. *)
Definition attached : instance := default ready (attach form_options ready).

(** The same after the user has typed [val]. *)
Definition typed (val : jsstring) : instance := sample_step attached (Input val).

(** The reply of a worker that holds scenario 1 to the search for ["ni"]. *)
Definition reply (searchId : nat) : event :=
  Message (SearchResults [Result 0 (2 # 2) (Number 0); Result 1 (1 # 2) (Number 0)] searchId)
          (heap (loaded scenario1 ∅)).

(** The state of the page with [val] in the input and nothing else. *)
Definition page (val : jsstring) : ime := set_value val (initial_ime [] []).

End ImeSamples.

(** ** Facts about the distance table *)

Module LevFacts.

Lemma dims_new_matrix a b : dims (new_matrix a b) (S (length b)) (S (length a)).
Proof.
  split; [apply length_replicate|].
  intros j row [-> _]%lookup_replicate. apply length_replicate.
Qed.

Lemma dims_mset m rows cols j i v :
  dims m rows cols → dims (mset m j i v) rows cols.
Proof.
  intros [Hr Hc]. split; [unfold mset; by rewrite length_alter|].
  intros k row. unfold mset. rewrite list_lookup_alter.
  case_decide; [subst k|by apply Hc].
  destruct (m !! j) as [r|] eqn:E; simpl; [|done].
  intros [= <-]. rewrite length_insert. by apply (Hc j).
Qed.

Lemma mget_mset_eq m rows cols j i v :
  dims m rows cols → j < rows → i < cols → mget (mset m j i v) j i = Some v.
Proof.
  intros [Hr Hc] Hj Hi. unfold mget, mset. rewrite list_lookup_alter.
  rewrite decide_True by done.
  destruct (lookup_lt_is_Some_2 m j) as [row E]; [lia|].
  rewrite E. simpl. rewrite list_lookup_insert_eq; [done|].
  rewrite (Hc j row E). done.
Qed.

Lemma mget_mset_ne m j i v j' i' :
  j' ≠ j ∨ i' ≠ i → mget (mset m j i v) j' i' = mget m j' i'.
Proof.
  intros Hne. unfold mget, mset. rewrite list_lookup_alter.
  case_decide; [subst j'|done].
  destruct (m !! j) as [row|]; simpl; [|done].
  rewrite list_lookup_insert_ne; [done|]. destruct Hne; congruence.
Qed.

(** Invariant rule for a counting loop [for (k = start; k < start + n; k++)]. *)
Lemma foldl_seq_invariant {A} (P : nat → A → Prop) (f : A → nat → A) n :
  ∀ start x,
    P start x →
    (∀ k y, start ≤ k < start + n → P k y → P (S k) (f y k)) →
    P (start + n) (foldl f x (seq start n)).
Proof.
  induction n as [|n IH]; intros start x H0 Hstep; simpl.
  - by rewrite Nat.add_0_r.
  - replace (start + S n) with (S start + n) by lia.
    apply IH.
    + apply Hstep; [lia|done].
    + intros k y Hk. apply Hstep. lia.
Qed.

Lemma lev_nil_r a : lev a [] = length a.
Proof. by destruct a. Qed.

Lemma lev_cons x a y b :
  lev (x :: a) (y :: b) =
  min3 (lev a (y :: b) + 1) (lev (x :: a) b + 1)
       (lev a b + (if bool_decide (x = y) then 0 else 1)).
Proof. done. Qed.

Lemma prefix_distance_0_r a b i : i ≤ length a → prefix_distance a b i 0 = i.
Proof.
  intros Hi. unfold prefix_distance. rewrite take_0. simpl.
  rewrite lev_nil_r, length_rev, length_take. lia.
Qed.

Lemma prefix_distance_0_l a b j : j ≤ length b → prefix_distance a b 0 j = j.
Proof.
  intros Hj. unfold prefix_distance. rewrite take_0. simpl.
  rewrite length_rev, length_take. lia.
Qed.

Lemma rev_take_S (l : list N) k x :
  l !! k = Some x → rev (take (S k) l) = x :: rev (take k l).
Proof. intros H. by rewrite (take_S_r _ _ _ H), rev_app_distr. Qed.

(** The recurrence the inner loop body implements. *)
Lemma prefix_distance_step a b i j :
  1 ≤ i ≤ length a → 1 ≤ j ≤ length b →
  prefix_distance a b i j =
  min3 (prefix_distance a b (i - 1) j + 1)
       (prefix_distance a b i (j - 1) + 1)
       (prefix_distance a b (i - 1) (j - 1) + cost a b j i).
Proof.
  intros Hi Hj. unfold prefix_distance, cost.
  destruct i as [|i]; [lia|]. destruct j as [|j]; [lia|].
  replace (S i - 1) with i by lia. replace (S j - 1) with j by lia.
  destruct (lookup_lt_is_Some_2 a i) as [x Hx]; [lia|].
  destruct (lookup_lt_is_Some_2 b j) as [y Hy]; [lia|].
  rewrite (rev_take_S _ _ _ Hx), (rev_take_S _ _ _ Hy), lev_cons, Hx, Hy.
  do 2 f_equal. repeat case_bool_decide; congruence.
Qed.

Lemma init_first_row_spec a b :
  let m := init_first_row a (new_matrix a b) in
  dims m (S (length b)) (S (length a)) ∧
  ∀ i, i ≤ length a → mget m 0 i = Some i.
Proof.
  unfold init_first_row.
  pose (P := λ (k : nat) (m : list (list (option nat))),
    dims m (S (length b)) (S (length a)) ∧ ∀ i, i < k → mget m 0 i = Some i).
  assert (P (0 + S (length a))
            (foldl (λ m i, mset m 0 i i) (new_matrix a b) (seq 0 (S (length a)))))
    as [Hd Hc].
  { apply (foldl_seq_invariant P).
    - split; [apply dims_new_matrix|lia].
    - intros k y Hk [Hd Hc]. split; [by apply dims_mset|].
      intros i Hi. destruct (decide (i = k)) as [->|Hne].
      + apply (mget_mset_eq _ _ _ _ _ _ Hd); lia.
      + rewrite mget_mset_ne by (right; done). apply Hc. lia. }
  simpl. split; [done|]. intros i Hi. apply Hc. lia.
Qed.

Lemma init_first_col_spec a b : filled a b 1 1 (init_first_col b (init_first_row a (new_matrix a b))).
Proof.
  destruct (init_first_row_spec a b) as [Hd0 Hr0]. simpl in Hd0, Hr0.
  unfold init_first_col.
  pose (P := λ (k : nat) (m : list (list (option nat))),
    dims m (S (length b)) (S (length a)) ∧
    (∀ i, i ≤ length a → mget m 0 i = Some i) ∧
    (∀ j, j < k → mget m j 0 = Some j)).
  assert (P (0 + S (length b))
            (foldl (λ m j, mset m j 0 j) (init_first_row a (new_matrix a b))
                   (seq 0 (S (length b)))))
    as (Hd & Hr & Hc).
  { apply (foldl_seq_invariant P).
    - split; [done|]. split; [done|lia].
    - intros k y Hk (Hd & Hr & Hc). split; [by apply dims_mset|]. split.
      + intros i Hi. destruct (decide (k = 0 ∧ i = 0)) as [[-> ->]|Hne].
        * apply (mget_mset_eq _ _ _ _ _ _ Hd); lia.
        * rewrite mget_mset_ne by lia. by apply Hr.
      + intros j Hj. destruct (decide (j = k)) as [->|Hne].
        * apply (mget_mset_eq _ _ _ _ _ _ Hd); lia.
        * rewrite mget_mset_ne by (left; done). apply Hc. lia. }
  split; [done|]. intros j i Hj Hi Hcase.
  destruct (decide (j = 0)) as [->|Hj0].
  - rewrite prefix_distance_0_r by done. by apply Hr.
  - assert (i = 0) as -> by lia.
    rewrite prefix_distance_0_l by done. apply Hc. lia.
Qed.

Lemma fill_cell_spec a b j i m :
  1 ≤ j ≤ length b → 1 ≤ i ≤ length a →
  filled a b j i m → filled a b j (S i) (fill_cell a b j m i).
Proof.
  intros Hj Hi [Hd Hc]. split; [by apply dims_mset|].
  intros j' i' Hj' Hi' Hcase. unfold fill_cell.
  destruct (decide (j' = j ∧ i' = i)) as [[-> ->]|Hne].
  - rewrite (mget_mset_eq _ _ _ _ _ _ Hd) by lia.
    rewrite !Hc by lia. simpl. by rewrite <- prefix_distance_step.
  - rewrite mget_mset_ne by lia. apply Hc; lia.
Qed.

Lemma fill_row_spec a b j m :
  1 ≤ j ≤ length b → filled a b j 1 m → filled a b (S j) 1 (fill_row a b m j).
Proof.
  intros Hj Hm. unfold fill_row.
  assert (filled a b j (1 + length a) (foldl (fill_cell a b j) m (seq 1 (length a))))
    as [Hd Hc].
  { apply (foldl_seq_invariant (filled a b j)); [done|].
    intros k y Hk Hy. apply fill_cell_spec; [done|lia|done]. }
  split; [done|]. intros j' i' Hj' Hi' Hcase. apply Hc; lia.
Qed.

Lemma fill_invariant a b : filled a b (S (length b)) 1 (final_matrix a b).
Proof.
  unfold final_matrix, fill.
  replace (S (length b)) with (1 + length b) by lia.
  apply (foldl_seq_invariant (λ j, filled a b j 1)).
  - apply init_first_col_spec.
  - intros k y Hk Hy. apply fill_row_spec; [lia|done].
Qed.

(** The table computes the recursive distance of the reversed strings. *)
Lemma levenshteinDistance_lev a b :
  levenshteinDistance a b = lev (rev a) (rev b).
Proof.
  unfold levenshteinDistance.
  destruct (fill_invariant a b) as [_ Hc].
  rewrite Hc by lia. simpl. unfold prefix_distance.
  by rewrite !firstn_all.
Qed.

(** *** The recursive distance is a metric *)

Lemma min3_le x y z : min3 x y z ≤ x ∧ min3 x y z ≤ y ∧ min3 x y z ≤ z.
Proof. unfold min3. lia. Qed.

Lemma min3_cases x y z : min3 x y z = x ∨ min3 x y z = y ∨ min3 x y z = z.
Proof. unfold min3. lia. Qed.

Lemma lev_sym a : ∀ b, lev a b = lev b a.
Proof.
  induction a as [|x a IHa]; intros b.
  - by rewrite lev_nil_r.
  - induction b as [|y b IHb]; [done|].
    rewrite !lev_cons, IHb, (IHa (y :: b)), (IHa b).
    unfold min3. repeat case_bool_decide; try congruence; lia.
Qed.

Lemma lev_refl a : lev a a = 0.
Proof.
  induction a as [|x a IH]; [done|].
  rewrite lev_cons, IH, bool_decide_true by done.
  unfold min3. lia.
Qed.

Lemma lev_delete x a c : lev (x :: a) c ≤ lev a c + 1.
Proof.
  destruct c as [|y c]; [rewrite !lev_nil_r; simpl; lia|].
  rewrite lev_cons. pose proof (min3_le (lev a (y :: c) + 1) (lev (x :: a) c + 1)
    (lev a c + (if bool_decide (x = y) then 0 else 1))). lia.
Qed.

Lemma lev_insert a y c : lev a (y :: c) ≤ lev a c + 1.
Proof. rewrite (lev_sym a (y :: c)), (lev_sym a c). apply lev_delete. Qed.

Lemma lev_substitute x a y c :
  lev (x :: a) (y :: c) ≤ lev a c + (if bool_decide (x = y) then 0 else 1).
Proof. rewrite lev_cons. apply min3_le. Qed.

Lemma lev_length_r a : ∀ c, length c ≤ length a + lev a c.
Proof.
  induction a as [|x a IHa]; intros c; [simpl; lia|].
  induction c as [|y c IHc]; [simpl; lia|].
  rewrite lev_cons.
  pose proof (IHa (y :: c)). pose proof (IHa c).
  destruct (min3_cases (lev a (y :: c) + 1) (lev (x :: a) c + 1)
    (lev a c + (if bool_decide (x = y) then 0 else 1))) as [->|[->| ->]];
    simpl in *; lia.
Qed.

Lemma lev_length_l a c : length a ≤ length c + lev a c.
Proof. rewrite lev_sym. apply lev_length_r. Qed.

Lemma lev_le_max a : ∀ c, lev a c ≤ Nat.max (length a) (length c).
Proof.
  induction a as [|x a IHa]; intros c; [simpl; lia|].
  destruct c as [|y c]; [simpl; lia|].
  pose proof (lev_substitute x a y c). pose proof (IHa c).
  simpl length. case_bool_decide; lia.
Qed.

Lemma lev_triangle a : ∀ b c, lev a c ≤ lev a b + lev b c.
Proof.
  induction a as [|x a IHa]; intros b c.
  { pose proof (lev_length_r b c). simpl. lia. }
  revert c. induction b as [|y b IHb]; intros c.
  { pose proof (lev_le_max (x :: a) c). rewrite lev_nil_r. simpl in *. lia. }
  induction c as [|z c IHc].
  { pose proof (lev_length_l (x :: a) (y :: b)). rewrite !lev_nil_r. lia. }
  pose proof (lev_delete x a (z :: c)) as Hdel.
  pose proof (lev_insert (x :: a) z c) as Hins.
  pose proof (lev_substitute x a z c) as Hsub.
  pose proof (IHa (y :: b) (z :: c)) as T1.
  pose proof (IHa b (z :: c)) as T2.
  pose proof (IHa b c) as T3.
  pose proof (IHb (z :: c)) as T4.
  pose proof (IHb c) as T5.
  rewrite (lev_cons x a y b), (lev_cons y b z c) in *.
  destruct (min3_cases (lev a (y :: b) + 1) (lev (x :: a) b + 1)
    (lev a b + (if bool_decide (x = y) then 0 else 1))) as [E|[E|E]];
    rewrite E in *; clear E;
  destruct (min3_cases (lev b (z :: c) + 1) (lev (y :: b) c + 1)
    (lev b c + (if bool_decide (y = z) then 0 else 1))) as [E|[E|E]];
    rewrite E in *; clear E;
    repeat case_bool_decide; try congruence; lia.
Qed.

(** *** The same facts for the table-based function *)

Lemma levenshteinDistance_sym a b :
  levenshteinDistance a b = levenshteinDistance b a.
Proof. rewrite !levenshteinDistance_lev. apply lev_sym. Qed.

Lemma levenshteinDistance_refl a : levenshteinDistance a a = 0.
Proof. rewrite levenshteinDistance_lev. apply lev_refl. Qed.

Lemma levenshteinDistance_triangle a b c :
  levenshteinDistance a b ≤ levenshteinDistance a c + levenshteinDistance c b.
Proof. rewrite !levenshteinDistance_lev. apply lev_triangle. Qed.

Lemma levenshteinDistance_le_max a b :
  levenshteinDistance a b ≤ Nat.max (length a) (length b).
Proof.
  rewrite levenshteinDistance_lev.
  pose proof (lev_le_max (rev a) (rev b)). by rewrite !length_rev in *.
Qed.

End LevFacts.

(** ** Facts about the index *)

Module IndexFacts.

Import Engine Spec.

Section Host.
Context `{Hcase : CaseMapping} `{Hround : Rounding} `{Hproto : Prototype}.

Lemma searchable_form_Some f rec t :
  searchable_form f rec = Some t ↔
  ∃ s, raw_field f rec = Some s ∧ s ≠ [] ∧ normalize s = t ∧ t ≠ [].
Proof.
  unfold searchable_form. split.
  - destruct (raw_field f rec) as [[|c s]|]; try done.
    destruct (normalize (c :: s)) as [|c' t'] eqn:E; [done|].
    intros [= <-]. exists (c :: s). by rewrite E.
  - intros (s & -> & Hs & <- & Ht). destruct s as [|c s]; [done|].
    by destruct (normalize (c :: s)).
Qed.

Lemma searchable_form_set f g t rec :
  searchable_form f (set_searchable g t rec) = searchable_form f rec.
Proof. by destruct f, g. Qed.

Lemma get_set_searchable f g t rec :
  get_searchable f (set_searchable g t rec) =
  if decide (f = g) then Some t else get_searchable f rec.
Proof. by destruct f, g. Qed.

Lemma field_name_inj f g : field_name f = field_name g → f = g.
Proof. by destruct f, g. Qed.

Lemma index_field_unfold r h idx f :
  index_field r (h, idx) f =
  match h !! r with
  | Some rec =>
      match searchable_form f rec with
      | Some t => (<[r := set_searchable f t rec]> h,
                   push_bucket (field_name f) (length t) r idx)
      | None => (h, idx)
      end
  | None => (h, idx)
  end.
Proof.
  unfold index_field, searchable_form. simpl.
  destruct (h !! r) as [rec|]; [|done].
  destruct (raw_field f rec) as [[|c s]|]; try done.
  rewrite bool_decide_false by done.
  destruct (normalize (c :: s)) as [|c' t']; [done|].
  by rewrite bool_decide_false.
Qed.

Lemma bucket_push idx k len r k' len' :
  is_Some (idx !! k) →
  bucket (push_bucket k len r idx) k' len' =
  bucket idx k' len' ++ (if decide (k' = k ∧ len' = len) then [r] else []).
Proof.
  intros [grp Hgrp]. unfold bucket, push_bucket.
  destruct (decide (k' = k)) as [->|Hk].
  - rewrite lookup_alter_eq, Hgrp. simpl.
    destruct (decide (len' = len)) as [->|Hl].
    + rewrite lookup_insert_eq, decide_True by done. done.
    + rewrite lookup_insert_ne by done.
      rewrite decide_False by (intros [_ ?]; done). by rewrite app_nil_r.
  - rewrite lookup_alter_ne by done.
    rewrite decide_False by (intros [? _]; done). by rewrite app_nil_r.
Qed.

Lemma push_bucket_is_Some idx k len r k' :
  is_Some (push_bucket k len r idx !! k') ↔ is_Some (idx !! k').
Proof.
  unfold push_bucket. destruct (decide (k' = k)) as [->|Hk].
  - rewrite lookup_alter_eq. by rewrite fmap_is_Some.
  - by rewrite lookup_alter_ne.
Qed.

Lemma entry_ok_insert h r rec f t k len r' :
  h !! r = Some rec → searchable_form f rec = Some t →
  entry_ok h k len r' → entry_ok (<[r := set_searchable f t rec]> h) k len r'.
Proof.
  intros Hr Hf (f0 & rec0 & t0 & -> & Hr' & Hsf & Hgs & Hlen).
  destruct (decide (r' = r)) as [->|Hne].
  - assert (rec0 = rec) as -> by congruence.
    exists f0, (set_searchable f t rec), t0.
    rewrite list_lookup_insert_eq by (by eapply lookup_lt_Some).
    rewrite searchable_form_set, get_set_searchable.
    repeat split; try done. case_decide; congruence.
  - exists f0, rec0, t0. by rewrite list_lookup_insert_ne.
Qed.

Lemma entry_ok_new h r rec f t :
  h !! r = Some rec → searchable_form f rec = Some t →
  entry_ok (<[r := set_searchable f t rec]> h) (field_name f) (length t) r.
Proof.
  intros Hr Hf. exists f, (set_searchable f t rec), t.
  rewrite list_lookup_insert_eq by (by eapply lookup_lt_Some).
  rewrite searchable_form_set, get_set_searchable, decide_True by done. done.
Qed.

Lemma index_ok_push h idx r rec f t :
  h !! r = Some rec → searchable_form f rec = Some t →
  index_ok h idx →
  index_ok (<[r := set_searchable f t rec]> h)
           (push_bucket (field_name f) (length t) r idx).
Proof.
  intros Hr Hf Hok k grp' len b r' Hk Hlen Hin.
  unfold push_bucket in Hk. rewrite lookup_alter in Hk.
  destruct (decide (field_name f = k)) as [<-|Hne];
    [|by eapply entry_ok_insert, Hok].
  destruct (idx !! field_name f) as [grp|] eqn:Hgrp; simplify_eq/=.
  destruct (decide (len = length t)) as [->|Hl].
  - rewrite lookup_insert_eq in Hlen. simplify_eq.
    apply elem_of_app in Hin as [Hin|Hin%list_elem_of_singleton].
    + destruct (grp !! length t) as [old|] eqn:Hold; simpl in Hin;
        [|by apply elem_of_nil in Hin].
      by eapply entry_ok_insert, Hok.
    + subst r'. by apply entry_ok_new.
  - rewrite lookup_insert_ne in Hlen by done.
    by eapply entry_ok_insert, Hok.
Qed.

Lemma indexing_step_refl st : indexing_step st st (λ _ _, []).
Proof.
  repeat split; try done; eauto.
  intros. by rewrite app_nil_r.
Qed.

Lemma form_length_step st st' new f r :
  indexing_step st st' new → form_length st'.1 f r = form_length st.1 f r.
Proof.
  intros (Hlen & Hraw & _). unfold form_length.
  destruct (st.1 !! r) as [rec|] eqn:Hr.
  - destruct (Hraw r rec Hr) as (rec' & -> & Hp & Hh). simpl.
    unfold searchable_form. by destruct f; simpl; rewrite ?Hp, ?Hh.
  - apply lookup_ge_None in Hr. rewrite lookup_ge_None_2; [done|lia].
Qed.

Lemma indexing_step_trans st1 st2 st3 new12 new23 :
  indexing_step st1 st2 new12 → indexing_step st2 st3 new23 →
  indexing_step st1 st3 (λ f len, new12 f len ++ new23 f len).
Proof.
  intros (L1 & R1 & K1 & B1 & O1) (L2 & R2 & K2 & B2 & O2).
  split; [congruence|]. split; [|split; [|split]].
  - intros r rec Hr. destruct (R1 r rec Hr) as (rec1 & Hr1 & <- & <-).
    destruct (R2 r rec1 Hr1) as (rec2 & Hr2 & <- & <-). eauto.
  - intros k. by rewrite K2.
  - intros f len. by rewrite B2, B1, (assoc_L (++)).
  - eauto.
Qed.

Lemma index_field_step r h idx f :
  is_Some (idx !! field_name f) →
  indexing_step (h, idx) (index_field r (h, idx) f)
    (λ f' len, if decide (f' = f ∧ form_length h f r = Some len) then [r] else []).
Proof.
  intros Hgrp. rewrite index_field_unfold. unfold form_length.
  destruct (h !! r) as [rec|] eqn:Hr; simpl.
  2:{ repeat split; try done; eauto. intros f' len.
      rewrite decide_False by (intros [_ ?]; done). by rewrite app_nil_r. }
  destruct (searchable_form f rec) as [t|] eqn:Hf; simpl.
  2:{ repeat split; try done; eauto. intros f' len.
      rewrite decide_False by (intros [_ ?]; done). by rewrite app_nil_r. }
  split; [apply length_insert|]. split; [|split; [|split]]; simpl.
  - intros r' rec' Hr'. destruct (decide (r' = r)) as [->|Hne].
    + rewrite list_lookup_insert_eq by (by eapply lookup_lt_Some).
      assert (rec' = rec) as -> by congruence.
      eexists; split; [done|]. by destruct f.
    + rewrite list_lookup_insert_ne by done. eauto.
  - intros k. apply push_bucket_is_Some.
  - intros f' len. rewrite bucket_push by done. f_equal.
    destruct (decide (f' = f ∧ Some (length t) = Some len)) as [[-> [= <-]]|Hn].
    + by rewrite decide_True.
    + rewrite decide_False; [done|].
      intros [E%field_name_inj ->]. by apply Hn.
  - by apply index_ok_push.
Qed.

Lemma indexing_step_ext st st' new new' :
  (∀ f len, new f len = new' f len) →
  indexing_step st st' new → indexing_step st st' new'.
Proof.
  intros E (L & R & K & B & O). repeat split; try done; try apply K.
  intros f len. by rewrite <- E.
Qed.

Lemma index_record_step st r :
  is_Some (st.2 !! field_name Pinyin) → is_Some (st.2 !! field_name Hanzi) →
  indexing_step st (index_record st r)
    (λ f len, filter (λ r', form_length st.1 f r' = Some len) [r]).
Proof.
  intros Kp Kh. destruct st as [h idx]. unfold index_record. simpl foldl.
  pose proof (index_field_step r h idx Pinyin Kp) as S1.
  destruct (index_field r (h, idx) Pinyin) as [h1 idx1] eqn:E1.
  assert (is_Some (idx1 !! field_name Hanzi)) as Kh1.
  { destruct S1 as (_ & _ & K & _). by apply K. }
  pose proof (index_field_step r h1 idx1 Hanzi Kh1) as S2.
  eapply indexing_step_ext; [|exact (indexing_step_trans _ _ _ _ _ S1 S2)].
  intros f len. simpl.
  pose proof (form_length_step _ _ _ Hanzi r S1) as E. simpl in E. rewrite E.
  rewrite filter_cons, filter_nil.
  destruct f; repeat case_decide; try done; intuition congruence.
Qed.

Lemma foldl_index_record_step refs :
  ∀ st,
    is_Some (st.2 !! field_name Pinyin) → is_Some (st.2 !! field_name Hanzi) →
    indexing_step st (foldl index_record st refs)
      (λ f len, filter (λ r', form_length st.1 f r' = Some len) refs).
Proof.
  induction refs as [|r refs IH]; intros st Kp Kh; simpl.
  { apply indexing_step_refl. }
  pose proof (index_record_step st r Kp Kh) as S1.
  assert (is_Some ((index_record st r).2 !! field_name Pinyin) ∧
          is_Some ((index_record st r).2 !! field_name Hanzi)) as [Kp1 Kh1].
  { destruct S1 as (_ & _ & K & _). split; by apply K. }
  eapply indexing_step_ext;
    [|exact (indexing_step_trans _ _ _ _ _ S1 (IH _ Kp1 Kh1))].
  intros f len. simpl. rewrite (filter_cons _ r refs), filter_cons, filter_nil.
  assert (∀ r', form_length (index_record st r).1 f r' = form_length st.1 f r') as E
    by (intros r'; by eapply form_length_step).
  rewrite (list_filter_iff _ (λ r', form_length st.1 f r' = Some len) refs)
    by (intros r'; by rewrite E).
  by case_decide.
Qed.

(** The index after the loop over [dictionary]: the bucket of a field and a
    length holds the references of the dictionary whose record has a
    normalised form of that length for that field, in dictionary order. *)
Lemma build_index_spec h refs :
  let st := build_index h refs in
  length st.1 = length h ∧
  (∀ r rec, h !! r = Some rec →
     ∃ rec', st.1 !! r = Some rec' ∧ pinyin rec' = pinyin rec ∧ hanzi rec' = hanzi rec) ∧
  (∀ k, is_Some (st.2 !! k) ↔ k = field_name Pinyin ∨ k = field_name Hanzi) ∧
  (∀ f len, bucket st.2 (field_name f) len =
            filter (λ r, form_length h f r = Some len) refs) ∧
  index_ok st.1 st.2.
Proof.
  set (idx0 := {[ js "pinyin" := ∅; js "hanzi" := ∅ ]} : gmap (list N) (gmap nat (list nat))).
  assert (∀ k, is_Some (idx0 !! k) ↔ k = field_name Pinyin ∨ k = field_name Hanzi) as K0.
  { intros k. unfold idx0. split.
    - intros [grp Hk]. apply lookup_insert_Some in Hk as [[<- _]|[_ Hk]]; [by left|].
      apply lookup_singleton_Some in Hk as [<- _]. by right.
    - intros [-> | ->].
      + rewrite lookup_insert_eq. eauto.
      + rewrite lookup_insert_ne by done. rewrite lookup_singleton_eq. eauto. }
  destruct (foldl_index_record_step refs (h, idx0)) as (L & R & K & B & O);
    [apply K0; by left|apply K0; by right|].
  simpl. unfold build_index. fold idx0.
  split; [done|]. split; [done|]. split; [|split].
  - intros k. by rewrite K.
  - intros f len. rewrite B. simpl. unfold bucket at 1, idx0.
    destruct f; simpl.
    + by rewrite lookup_insert_eq.
    + rewrite lookup_insert_ne by done. by rewrite lookup_singleton_eq.
  - apply O. intros k grp len b r Hk Hlen. unfold idx0 in Hk. simpl in Hk.
    apply lookup_insert_Some in Hk as [[_ <-]|[_ Hk]]; [done|].
    apply lookup_singleton_Some in Hk as [_ <-]. done.
Qed.

Lemma filter_ext_elem {A} (P Q : A → Prop) `{∀ x, Decision (P x)} `{∀ x, Decision (Q x)}
  (l : list A) :
  (∀ x, x ∈ l → (P x ↔ Q x)) → filter P l = filter Q l.
Proof.
  induction l as [|x l IH]; intros HPQ; [done|].
  rewrite !filter_cons, IH by (intros y Hy; apply HPQ; by right).
  destruct (HPQ x) as [HP HQ]; [by left|].
  destruct (decide (P x)), (decide (Q x)); auto; tauto.
Qed.

Lemma build_index_built_from h refs :
  NoDup refs → (∀ r, r ∈ refs → r < length h) →
  built_from (build_index h refs).1 (build_index h refs).2 refs.
Proof.
  intros Hnd Hlt.
  destruct (build_index_spec h refs) as (Hlen & Hkeep & _ & Hb & _).
  simpl in Hlen, Hkeep, Hb.
  split; [done|]. split; [intros r Hr; rewrite Hlen; by apply Hlt|].
  intros f len. rewrite Hb. apply filter_ext_elem. intros r Hr.
  unfold form_length. destruct (lookup_lt_is_Some_2 h r (Hlt r Hr)) as [rec Hrec].
  destruct (Hkeep r rec Hrec) as (rec' & -> & Hp & Hh). rewrite Hrec. simpl.
  unfold searchable_form. by destruct f; simpl; rewrite ?Hp, ?Hh.
Qed.

Lemma built_from_app h idx refs d :
  built_from h idx refs → built_from (h ++ d) idx refs.
Proof.
  intros (Hnd & Hlt & Hb). split; [done|]. split.
  - intros r Hr. rewrite length_app. specialize (Hlt r Hr). lia.
  - intros f len. rewrite Hb. apply filter_ext_elem. intros r Hr.
    unfold form_length. by rewrite lookup_app_l by (by apply Hlt).
Qed.

(** The index of a state of the worker was built from a dictionary. *)
Lemma reachable_built_from w :
  reachable w → ∃ refs, built_from (heap w) (searchIndex w) refs.
Proof.
  induction 1 as [|w e _ [refs IH]].
  { exists []. split; [constructor|]. split; [by intros r ?%elem_of_nil|].
    intros f len. unfold bucket. simpl. by rewrite lookup_empty. }
  destruct e as [[msg|dict msg|dict bigram]|p id|]; simpl;
    [by exists refs|exists refs; by apply built_from_app| |
     destruct (performSearch _ _ _ _); [destruct (forallb _ _)|]; by exists refs|
     by exists refs].
  eexists. apply build_index_built_from; [apply NoDup_seq|].
  intros r Hr%elem_of_seq. rewrite length_app. lia.
Qed.

Lemma index_ok_app h idx d : index_ok h idx → index_ok (h ++ d) idx.
Proof.
  intros Hok k grp len b r Hk Hlen Hin.
  destruct (Hok k grp len b r Hk Hlen Hin) as (f & rec & t & ? & Hr & ?).
  exists f, rec, t. by rewrite (lookup_app_l_Some _ _ _ _ Hr).
Qed.

(** The invariant of the worker's state. *)
Lemma initialize_index_ok w o :
  index_ok (heap w) (searchIndex w) →
  index_ok (heap (initialize w o).1.1) (searchIndex (initialize w o).1.1).
Proof.
  intros Hok. destruct o as [msg|dict msg|dict bigram]; simpl; [done| |].
  - by apply index_ok_app.
  - apply build_index_spec.
Qed.

Lemma onmessage_index_ok w e :
  index_ok (heap w) (searchIndex w) →
  index_ok (heap (onmessage w e).1) (searchIndex (onmessage w e).1).
Proof.
  intros Hok. destruct e as [o|p id|]; simpl; [|by destruct performSearch; [destruct forallb|]|done].
  pose proof (initialize_index_ok w o Hok) as Hi.
  destruct (initialize w o) as [[w' log] [msg|]]; done.
Qed.

Lemma reachable_index_ok w : reachable w → index_ok (heap w) (searchIndex w).
Proof.
  induction 1 as [|w e _ IH]; [|by apply onmessage_index_ok].
  intros k grp len b r Hk. simpl in Hk. by rewrite lookup_empty in Hk.
Qed.

End Host.

End IndexFacts.

(** ** Facts about the search loops *)

Module SearchFacts.

Import Engine Spec IndexFacts.

Section Host.
Context `{Hcase : CaseMapping} `{Hround : Rounding} `{Hproto : Prototype}.

Lemma searchable_prop_field f rec :
  searchable_prop (field_name f) rec = get_searchable f rec.
Proof. by destruct f. Qed.

Lemma accepts_true w k q thr r :
  accepts w k q thr r = true ↔
  ∃ rec hz t, heap w !! r = Some rec ∧ hanzi rec = Some hz ∧ hz ≠ [] ∧
              searchable_prop k rec = Some t ∧
              (thr <= similarityScore (levenshteinDistance q t)
                        (Nat.max (length q) (length t)))%Q.
Proof.
  unfold accepts. split.
  - destruct (heap w !! r) as [rec|]; [|done].
    destruct (hanzi rec) as [[|c hz]|] eqn:Hh; [done| |done].
    destruct (searchable_prop k rec) as [t|] eqn:Ht; [|done].
    intros Hle%Qle_bool_iff. by exists rec, (c :: hz), t.
  - intros (rec & hz & t & -> & -> & Hhz & -> & Hle).
    destruct hz; [done|]. by apply Qle_bool_iff.
Qed.

Lemma visit_record_app w k q thr prev results r :
  visit_record w k q thr prev results r =
  (λ new, results ++ new) <$> visit_record w k q thr prev [] r.
Proof.
  unfold visit_record. destruct (heap w !! r) as [rec|]; simpl; [|done].
  destruct (hanzi rec) as [[|c hz]|]; simpl; try by rewrite app_nil_r.
  destruct (searchable_prop k rec) as [t|]; simpl; [|done].
  case_bool_decide; simpl; [by rewrite app_nil_r|].
  destruct (Qle_bool _ _); simpl; [done|by rewrite app_nil_r].
Qed.

(** On an entry of the index the loop body does not throw, and appends the
    record exactly when it passes the tests. *)
Lemma visit_record_entry w k q thr prev len r :
  entry_ok (heap w) k len r →
  ∃ new, visit_record w k q thr prev [] r = Some new ∧
         item <$> new = (if accepts w k q thr r then [r] else []).
Proof.
  intros (f & rec & t & -> & Hr & Hsf & Hgs & Hlen).
  apply searchable_form_Some in Hsf as (s & _ & _ & _ & Ht).
  unfold visit_record, accepts. rewrite Hr. simpl.
  rewrite !searchable_prop_field, Hgs.
  destruct (hanzi rec) as [[|c hz]|]; simpl; eauto.
  rewrite bool_decide_false by (destruct t; [done|simpl; lia]).
  destruct (Qle_bool _ _); simpl; eauto.
Qed.

Lemma foldlM_visit_record w k q thr prev len b :
  (∀ r, r ∈ b → entry_ok (heap w) k len r) →
  ∀ results,
    foldlM (visit_record w k q thr prev) results b =
    Some (results ++ (b ≫= outcome w k q thr prev)).
Proof.
  induction b as [|r b IH]; intros Hb results; simpl.
  { by rewrite app_nil_r. }
  destruct (visit_record_entry w k q thr prev len r) as (new & Hnew & _).
  { apply Hb. by left. }
  rewrite visit_record_app, Hnew. simpl.
  rewrite IH by (intros r' Hr'; apply Hb; by right).
  unfold outcome at 2. rewrite Hnew. simpl. by rewrite (assoc_L (++)).
Qed.

Lemma visit_bucket_ok w grp k q thr prev results len :
  index_ok (heap w) (searchIndex w) → searchIndex w !! k = Some grp →
  visit_bucket w grp k q thr prev results len =
  Some (results ++ (bucket_at grp len ≫= outcome w k q thr prev)).
Proof.
  intros Hok Hgrp. unfold visit_bucket, bucket_at.
  destruct (grp !! Z.to_nat len) as [b|] eqn:Hb; simpl.
  - apply (foldlM_visit_record _ _ _ _ _ (Z.to_nat len)).
    intros r Hr. by eapply Hok.
  - by rewrite app_nil_r.
Qed.

Lemma foldlM_visit_bucket w grp k q thr prev lens :
  index_ok (heap w) (searchIndex w) → searchIndex w !! k = Some grp →
  ∀ results,
    foldlM (visit_bucket w grp k q thr prev) results lens =
    Some (results ++ ((lens ≫= bucket_at grp) ≫= outcome w k q thr prev)).
Proof.
  intros Hok Hgrp. induction lens as [|len lens IH]; intros results; simpl.
  { by rewrite app_nil_r. }
  rewrite visit_bucket_ok by done. simpl. rewrite IH.
  by rewrite bind_app, (assoc_L (++)).
Qed.

(** The loops never throw on a state of the worker, and collect the
    outcomes of the candidates in the order of the visit. *)
Lemma collect_results_ok w grp k q thr tolerance prev :
  index_ok (heap w) (searchIndex w) → searchIndex w !! k = Some grp →
  collect_results w grp k q thr tolerance prev =
  Some (candidates grp q tolerance ≫= outcome w k q thr prev).
Proof.
  intros Hok Hgrp. unfold collect_results, candidates.
  by rewrite (foldlM_visit_bucket _ _ _ _ _ _ _ Hok Hgrp).
Qed.

(** What the loop body records for a record it appends. *)
Lemma outcome_elem w k q thr prev r x :
  x ∈ outcome w k q thr prev r →
  item x = r ∧
  ∃ rec hz t, heap w !! r = Some rec ∧ hanzi rec = Some hz ∧ hz ≠ [] ∧
    searchable_prop k rec = Some t ∧
    score x = similarityScore (levenshteinDistance q t) (Nat.max (length q) (length t)) ∧
    (thr <= score x)%Q ∧
    bigramScore x = (if hasBigramContext w prev then lookup_bigram w prev hz else Number 0).
Proof.
  unfold outcome, visit_record.
  destruct (heap w !! r) as [rec|]; simpl; [|by intros ?%elem_of_nil].
  destruct (hanzi rec) as [[|c hz]|] eqn:Hh; simpl; try by intros ?%elem_of_nil.
  destruct (searchable_prop k rec) as [t|] eqn:Ht; simpl; [|by intros ?%elem_of_nil].
  case_bool_decide; simpl; [by intros ?%elem_of_nil|].
  destruct (Qle_bool _ _) eqn:Hle; simpl; [|by intros ?%elem_of_nil].
  intros ->%list_elem_of_singleton. simpl. split; [done|].
  exists rec, (c :: hz), t. apply Qle_bool_iff in Hle. done.
Qed.

Lemma items_outcome w k q thr prev l :
  (∀ r, r ∈ l → ∃ len, entry_ok (heap w) k len r) →
  item <$> (l ≫= outcome w k q thr prev) = filter (λ r, accepts w k q thr r) l.
Proof.
  induction l as [|r l IH]; intros Hl; [done|].
  rewrite bind_cons, fmap_app, IH by (intros r' Hr'; apply Hl; by right).
  destruct (Hl r) as [len Hr]; [by left|].
  destruct (visit_record_entry w k q thr prev len r Hr) as (new & Hnew & Hitems).
  unfold outcome at 1. rewrite Hnew. simpl. rewrite Hitems, filter_cons.
  destruct (decide (accepts w k q thr r)) as [Ha|Ha].
  - apply Is_true_true in Ha. by rewrite Ha.
  - apply Is_true_false in Ha. by rewrite Ha.
Qed.

Lemma elem_of_candidates grp q tolerance r :
  r ∈ candidates grp q tolerance ↔
  ∃ len b, (Z.max 1 (Z.of_nat (length q) - tolerance) ≤ len
            ≤ Z.of_nat (length q) + tolerance)%Z ∧
           grp !! Z.to_nat len = Some b ∧ r ∈ b.
Proof.
  unfold candidates, candidate_lengths, bucket_at. rewrite list_elem_of_bind.
  split.
  - intros (len & Hr & Hlen%elem_of_seqZ).
    destruct (grp !! Z.to_nat len) as [b|] eqn:Hb; simpl in Hr;
      [|by apply elem_of_nil in Hr].
    exists len, b. split; [lia|done].
  - intros (len & b & Hlen & Hb & Hr). exists len. rewrite Hb. simpl.
    split; [done|]. apply elem_of_seqZ. lia.
Qed.

Lemma candidates_entry_ok w grp k q tolerance r :
  index_ok (heap w) (searchIndex w) → searchIndex w !! k = Some grp →
  r ∈ candidates grp q tolerance →
  ∃ len, entry_ok (heap w) k len r ∧
         (Z.max 1 (Z.of_nat (length q) - tolerance) ≤ Z.of_nat len
          ≤ Z.of_nat (length q) + tolerance)%Z.
Proof.
  intros Hok Hgrp (len & b & Hlen & Hb & Hr)%elem_of_candidates.
  exists (Z.to_nat len). split; [by eapply Hok|lia].
Qed.

(** The groups of the index are those of the two fields. *)
Lemma reachable_keys w k :
  reachable w → is_Some (searchIndex w !! k) → ∃ f, k = field_name f.
Proof.
  induction 1 as [|w e _ IH]; simpl.
  { rewrite lookup_empty. by intros [? ?]. }
  destruct e as [o|p id|]; simpl; [|by destruct performSearch; [destruct forallb|]|done].
  destruct o as [msg|dict msg|dict bigram]; simpl; try done.
  intros Hk. apply build_index_spec in Hk as [->| ->]; eauto.
Qed.

(** No record is visited twice. *)
Lemma candidates_NoDup w k grp q tolerance :
  reachable w → searchIndex w !! k = Some grp → NoDup (candidates grp q tolerance).
Proof.
  intros Hw Hgrp.
  destruct (reachable_keys w k Hw) as [f ->]; [eauto|].
  destruct (reachable_built_from w Hw) as (refs & Hnd & _ & Hb).
  assert (∀ len, bucket_at grp len
                 = filter (λ r, form_length (heap w) f r = Some (Z.to_nat len)) refs) as E.
  { intros len. rewrite <- Hb. unfold bucket, bucket_at. by rewrite Hgrp. }
  unfold candidates. apply NoDup_bind.
  - unfold candidate_lengths.
    intros len1 len2 r Hl1%elem_of_seqZ Hl2%elem_of_seqZ.
    rewrite !E. intros [H1 _]%list_elem_of_filter [H2 _]%list_elem_of_filter.
    rewrite H1 in H2. injection H2 as H2. lia.
  - intros len _. rewrite E. by apply NoDup_filter.
  - apply NoDup_seqZ.
Qed.

(** The early return. *)
Lemma performSearch_early w q o prev :
  q = [] ∨ key o = None ∨ key o = Some [] ∨
    (∃ k, key o = Some k ∧ searchIndex w !! k = None) →
  performSearch w q o prev = Some [].
Proof.
  unfold performSearch. intros [->|[Hk|[Hk|(k & Hk & Hidx)]]]; rewrite ?Hk.
  - by destruct (key o) as [[|]|].
  - by destruct q.
  - by destruct q.
  - destruct q; [done|]. destruct k; [done|]. by rewrite Hidx.
Qed.

(** Past the early return, the result is the sorted array of the outcomes
    of the candidates. *)
Lemma performSearch_main w q o prev k grp :
  reachable w → q ≠ [] → key o = Some k → searchIndex w !! k = Some grp →
  performSearch w q o prev =
  Some (sort compare_results
          (candidates grp (toLowerCase q) (default 2%Z (lengthTolerance o))
             ≫= outcome w k (toLowerCase q) (default (round (6 # 10)) (threshold o)) prev)).
Proof.
  intros Hw Hq Hk Hgrp. unfold performSearch. rewrite Hk.
  destruct q as [|c q]; [done|].
  destruct k as [|c' k].
  { destruct (reachable_keys w [] Hw) as [[|] ?]; [eauto|done|done]. }
  rewrite Hgrp. rewrite collect_results_ok; [done| |done].
  by apply reachable_index_ok.
Qed.

End Host.

End SearchFacts.

(** ** Facts about the sort *)

Module SortFacts.

Import Engine Spec.

Lemma sort_insert_perm {A} (cmp : A → A → option Q) x l : sort_insert cmp x l ≡ₚ x :: l.
Proof.
  induction l as [|y l IH]; simpl; [done|].
  destruct (not_positive _); [done|]. rewrite IH. apply Permutation_swap.
Qed.

Lemma sort_perm {A} (cmp : A → A → option Q) l : sort cmp l ≡ₚ l.
Proof.
  induction l as [|x l IH]; simpl; [done|].
  by rewrite sort_insert_perm, IH.
Qed.

Lemma before_spec a b :
  before a b ↔
  (score b < score a)%Q ∨
  (score b == score a ∧
   ∀ u v, ToNumber (bigramScore a) = Some u → ToNumber (bigramScore b) = Some v →
          (v <= u)%Q).
Proof.
  unfold before, compare_results, subtract.
  destruct (Qeq_bool (score b) (score a)) eqn:E; simpl.
  - apply Qeq_bool_iff in E.
    destruct (ToNumber (bigramScore b)) as [v|], (ToNumber (bigramScore a)) as [u|];
      simpl; rewrite ?Qle_bool_iff.
    + split.
      * intros H. right. split; [done|]. intros u' v' [= <-] [= <-]. lra.
      * intros [?|[_ H]]; [lra|]. specialize (H u v eq_refl eq_refl). lra.
    + split; [|done]. intros _. right. split; [done|]. by intros u' v' ?.
    + split; [|done]. intros _. right. split; [done|]. by intros u' v' ? ?.
    + split; [|done]. intros _. right. split; [done|]. by intros u' v' ?.
  - apply Qeq_bool_neq in E. rewrite Qle_bool_iff. split; [intros; left; lra|].
    intros [?|[? _]]; [lra|done].
Qed.

(** The comparator asks for one of the two orders at most. *)
Lemma before_total a b : before a b ∨ before b a.
Proof.
  rewrite !before_spec.
  destruct (Q_dec (score a) (score b)) as [[?|?]|E]; [by right; left|by left; left|].
  destruct (ToNumber (bigramScore a)) as [u|] eqn:Ea,
           (ToNumber (bigramScore b)) as [v|] eqn:Eb.
  - destruct (Qlt_le_dec u v).
    + right. right. split; [done|]. intros ? ? [= <-] [= <-]. lra.
    + left. right. split; [by symmetry|]. by intros ? ? [= <-] [= <-].
  - left. right. split; [by symmetry|]. by intros ? ? ?.
  - left. right. split; [by symmetry|]. by intros ? ? ?.
  - left. right. split; [by symmetry|]. by intros ? ? ?.
Qed.

(** The order asked for is transitive through a result whose bigram score
    is a number. *)
Lemma before_trans a b c : numeric b → before a b → before b c → before a c.
Proof.
  intros [v Hv]. rewrite !before_spec.
  intros [?|[? Hab]] [?|[? Hbc]]; [left|left|left|right; split]; try lra.
  intros u w Hu Hw. specialize (Hab u v Hu Hv). specialize (Hbc v w Hv Hw). lra.
Qed.


Lemma tie_before a b : tie a b = true → before a b.
Proof.
  unfold tie. intros [E1%Qeq_bool_iff E2]%andb_true_iff.
  apply before_spec. right. split; [by symmetry|].
  intros u v Hu Hv. rewrite Hu, Hv in E2. apply Qeq_bool_iff in E2. lra.
Qed.

Lemma tie_trans z a b : tie z a = true → tie z b = true → tie a b = true.
Proof.
  unfold tie. rewrite !andb_true_iff, !Qeq_bool_iff.
  intros [? Ha] [? Hb]. split; [lra|].
  destruct (ToNumber (bigramScore z)), (ToNumber (bigramScore a)),
    (ToNumber (bigramScore b)); try done.
  apply Qeq_bool_iff in Ha, Hb. apply Qeq_bool_iff. lra.
Qed.

Lemma tie_refl a : tie a a = true.
Proof.
  unfold tie. rewrite andb_true_iff, Qeq_bool_iff. split; [reflexivity|].
  destruct (ToNumber (bigramScore a)); [|done]. apply Qeq_bool_iff. reflexivity.
Qed.

Lemma before_both_tie a b :
  numeric a → numeric b → before a b → before b a → tie a b = true.
Proof.
  intros [u Hu] [v Hv]. rewrite !before_spec. unfold tie.
  rewrite andb_true_iff, Qeq_bool_iff, Hu, Hv, Qeq_bool_iff.
  intros [?|[E1 L1]] [?|[E2 L2]]; try lra.
  specialize (L1 u v eq_refl eq_refl). specialize (L2 v u eq_refl eq_refl). lra.
Qed.

(** *** The order of the similarity scores *)



(** *** The order of results whose bigram scores are numbers *)

Lemma sort_insert_sorted x l :
  Forall numeric l →
  StronglySorted before l → StronglySorted before (sort_insert compare_results x l).
Proof.
  intros Hnum. induction 1 as [|y l Hl IH Hy]; simpl; [by repeat constructor|].
  apply Forall_cons in Hnum as [Hny Hnum].
  destruct (not_positive (compare_results x y)) eqn:E.
  - constructor; [by constructor|].
    constructor; [done|]. eapply Forall_impl; [exact Hy|].
    intros z Hz. by eapply before_trans.
  - constructor; [by apply IH|].
    rewrite sort_insert_perm. constructor; [|done].
    destruct (before_total x y) as [Hxy|Hyx]; [|done].
    unfold before in Hxy. congruence.
Qed.

Lemma sort_sorted l : Forall numeric l → StronglySorted before (sort compare_results l).
Proof.
  induction 1 as [|x l Hx Hl IH]; simpl; [constructor|].
  apply sort_insert_sorted; [|done]. by rewrite sort_perm.
Qed.


(** *** Stability *)

(** Inserting an element does not move it past an element it ties with. *)
Lemma sort_insert_stable z x l :
  filter (λ a, tie z a) (sort_insert compare_results x l) =
  filter (λ a, tie z a) (x :: l).
Proof.
  induction l as [|y l IH]; simpl; [done|].
  destruct (not_positive (compare_results x y)) eqn:E; [done|].
  rewrite (filter_cons _ y), IH, !(filter_cons _ x), !(filter_cons _ y).
  destruct (decide (tie z x)) as [Hx|Hx]; [|done].
  destruct (decide (tie z y)) as [Hy|Hy]; [|done].
  apply Is_true_true in Hx, Hy.
  pose proof (tie_before _ _ (tie_trans _ _ _ Hx Hy)) as Hxy.
  unfold before in Hxy. congruence.
Qed.

Lemma sort_stable z l :
  filter (λ a, tie z a) (sort compare_results l) = filter (λ a, tie z a) l.
Proof.
  induction l as [|x l IH]; simpl; [done|].
  by rewrite sort_insert_stable, !(filter_cons _ x), IH.
Qed.

(** *** The sorted array does not depend on the algorithm *)

(** A sorted permutation that keeps the order of the elements with equal
    scores is unique: on results whose bigram scores are numbers, every
    stable sorting algorithm returns the array of [sort]. *)
Lemma sorted_stable_unique l1 :
  ∀ l2, Forall numeric l1 →
        StronglySorted before l1 → StronglySorted before l2 → l1 ≡ₚ l2 →
        (∀ z, filter (λ a, tie z a) l1 = filter (λ a, tie z a) l2) → l1 = l2.
Proof.
  induction l1 as [|x l1 IH]; intros l2 Hnum S1 S2 Hperm Hstable.
  { by apply Permutation_nil_l in Hperm. }
  destruct l2 as [|y l2]; [by apply Permutation_nil_r in Hperm|].
  pose proof Hnum as Hnum'. rewrite Forall_forall in Hnum'.
  apply Forall_cons in Hnum as [Hnx Hnum].
  apply StronglySorted_inv in S1 as [S1 Hx], S2 as [S2 Hy].
  rewrite Forall_forall in Hx, Hy.
  assert (numeric y) as Hny by (apply Hnum'; rewrite Hperm; by left).
  assert (before x y) as Hxy.
  { assert (y ∈ x :: l1) as [->|Hin]%elem_of_cons by (rewrite Hperm; by left).
    - apply tie_before, tie_refl.
    - by apply Hx. }
  assert (before y x) as Hyx.
  { assert (x ∈ y :: l2) as [->|Hin]%elem_of_cons by (rewrite <- Hperm; by left).
    - apply tie_before, tie_refl.
    - by apply Hy. }
  pose proof (before_both_tie x y Hnx Hny Hxy Hyx) as Htie.
  pose proof (Hstable x) as Hhead.
  rewrite !filter_cons in Hhead.
  rewrite decide_True in Hhead by (apply Is_true_true, tie_refl).
  rewrite decide_True in Hhead by (by apply Is_true_true).
  injection Hhead as <- _.
  f_equal. apply IH; [done|done|done|by eapply Permutation_cons_inv|].
  intros z. specialize (Hstable z). rewrite !filter_cons in Hstable.
  destruct (decide (tie z x)); [by injection Hstable|done].
Qed.

Lemma sort_unique l l' :
  Forall numeric l →
  l' ≡ₚ l → StronglySorted before l' →
  (∀ z, filter (λ a, tie z a) l' = filter (λ a, tie z a) l) →
  l' = sort compare_results l.
Proof.
  intros Hnum Hperm Hsorted Hstable. apply sorted_stable_unique.
  - by rewrite Hperm.
  - done.
  - by apply sort_sorted.
  - by rewrite sort_perm.
  - intros z. by rewrite sort_stable.
Qed.

End SortFacts.

(** ** The results of a search *)

Module ResultFacts.

Import Engine Spec IndexFacts SearchFacts SortFacts.

Section Host.
Context `{Hcase : CaseMapping} `{Hround : Rounding} `{Hproto : Prototype}.

Lemma performSearch_cases w q o prev :
  reachable w →
  performSearch w q o prev = Some [] ∨
  ∃ k grp, q ≠ [] ∧ key o = Some k ∧ searchIndex w !! k = Some grp ∧
    performSearch w q o prev =
    Some (sort compare_results
            (candidates grp (toLowerCase q) (default 2%Z (lengthTolerance o))
               ≫= outcome w k (toLowerCase q) (default (round (6 # 10)) (threshold o)) prev)).
Proof.
  intros Hw.
  destruct (decide (q = [])) as [->|Hq]; [left; apply performSearch_early; auto|].
  destruct (key o) as [k|] eqn:Hk; [|left; apply performSearch_early; auto].
  destruct (searchIndex w !! k) as [grp|] eqn:Hgrp.
  - right. exists k, grp. repeat split; try done. by apply performSearch_main.
  - left. apply performSearch_early. right. right. right. eauto.
Qed.

(** Every result comes from the visit of a candidate. *)
Lemma performSearch_results w q o prev :
  reachable w →
  ∃ rs, performSearch w q o prev = Some rs ∧
    ∀ x, x ∈ rs →
      ∃ k grp, key o = Some k ∧ searchIndex w !! k = Some grp ∧
        item x ∈ candidates grp (toLowerCase q) (default 2%Z (lengthTolerance o)) ∧
        x ∈ outcome w k (toLowerCase q) (default (round (6 # 10)) (threshold o)) prev (item x).
Proof.
  intros Hw.
  destruct (performSearch_cases w q o prev Hw) as [->|(k & grp & Hq & Hk & Hgrp & ->)].
  { exists []. split; [done|]. by intros x ?%elem_of_nil. }
  eexists. split; [done|]. intros x Hx. exists k, grp.
  split; [done|]. split; [done|].
  rewrite sort_perm in Hx. apply list_elem_of_bind in Hx as (r & Hx & Hr).
  destruct (outcome_elem _ _ _ _ _ _ _ Hx) as [-> _]. done.
Qed.

(** *** Searches that read no member of [Object.prototype] *)

Lemma or_zero_Number u : ∃ v, or_zero (Number u) = Number v ∧ (v == u)%Q.
Proof.
  unfold or_zero. simpl. destruct (Qeq_bool u 0) eqn:E; simpl.
  - exists 0%Q. apply Qeq_bool_iff in E. split; [done|by symmetry].
  - by exists u.
Qed.

(** The bigram score is a number when neither the hanzi of the record nor
    the context is the name of a member of [Object.prototype]. *)
Lemma plain_outcome w k q thr prev r x :
  plain_worker w → plain_context prev →
  x ∈ outcome w k q thr prev r → ∃ u, bigramScore x = Number u.
Proof.
  intros Hw Hprev Hx.
  destruct (outcome_elem _ _ _ _ _ _ _ Hx)
    as (_ & rec & hz & t & Hr & Hh & _ & _ & _ & _ & ->).
  assert (plain hz) as Hhz.
  { unfold plain_worker in Hw. rewrite Forall_forall in Hw.
    apply (Hw rec); [by eapply list_elem_of_lookup_2|done]. }
  unfold hasBigramContext, lookup_bigram, read_bigram.
  destruct prev as [[|c p]|]; [by eexists| |by eexists].
  destruct (bigramProbabilities w !! (c :: p)) as [row|] eqn:Hrow.
  - destruct (row !! hz) as [u|].
    + destruct (or_zero_Number u) as (v & -> & _). by eexists.
    + rewrite Hhz. by eexists.
  - rewrite (Hprev (c :: p)) by done. by eexists.
Qed.

(** What the handler does with a [search] message. *)
Lemma onmessage_search w p id :
  reachable w →
  ∃ rs, performSearch w (query p) (search_options p) (previousWordHanzi p) = Some rs ∧
    onmessage w (Search p id) =
    (w, if forallb (λ x, serializable (bigramScore x)) rs
        then [PostMessage (SearchResults rs id)] else []).
Proof.
  intros Hw.
  destruct (performSearch_results w (query p) (search_options p) (previousWordHanzi p) Hw)
    as (rs & Hrs & _).
  exists rs. split; [done|]. cbn [onmessage]. rewrite Hrs. by destruct (forallb _ _).
Qed.

Lemma plain_results w q o prev rs :
  reachable w → plain_worker w → plain_context prev →
  performSearch w q o prev = Some rs →
  Forall (λ x, ∃ u, bigramScore x = Number u) rs.
Proof.
  intros Hw Hplain Hprev Hrs.
  destruct (performSearch_results w q o prev Hw) as (rs' & Hrs' & Hall).
  simplify_eq. apply Forall_forall. intros x Hx.
  destruct (Hall x Hx) as (k & grp & _ & _ & _ & Hout).
  by eapply plain_outcome.
Qed.

Lemma plain_serializable w q o prev rs :
  reachable w → plain_worker w → plain_context prev →
  performSearch w q o prev = Some rs →
  forallb (λ x, serializable (bigramScore x)) rs = true.
Proof.
  intros Hw Hplain Hprev Hrs. apply Is_true_true, forallb_True.
  eapply Forall_impl; [by eapply plain_results|]. by intros x [u ->].
Qed.

(** The records keep their hanzi: a message that brings no record named
    like a member of [Object.prototype] leaves the worker without one. *)
Lemma onmessage_plain w e :
  plain_worker w → plain_event e → plain_worker (onmessage w e).1.
Proof.
  intros Hw He. destruct e as [[msg|dict msg|dict bigram]|p id|]; simpl; try done.
  - unfold plain_worker. simpl. by apply Forall_app.
  - unfold plain_worker. simpl in *.
    set (h := heap w ++ dict). set (refs := seq (length (heap w)) (length dict)).
    assert (Forall plain_record h) as Hh by (by apply Forall_app).
    destruct (build_index_spec h refs) as (Hlen & Hkeep & _). simpl in Hlen, Hkeep.
    apply Forall_lookup. intros r rec' Hr.
    destruct (lookup_lt_is_Some_2 h r) as [rec Hrec].
    { rewrite <- Hlen. by eapply lookup_lt_Some. }
    destruct (Hkeep r rec Hrec) as (rec'' & Hr' & _ & Hhz). simplify_eq.
    intros hz Hhanzi. rewrite Hhz in Hhanzi.
    rewrite Forall_lookup in Hh. by apply (Hh r rec).
  - by destruct (performSearch _ _ _ _); [destruct (forallb _ _)|].
Qed.

End Host.

End ResultFacts.

(** ** The claims about the engine *)

Module EngineClaims.

Import Engine Spec IndexFacts SearchFacts SortFacts ResultFacts LevFacts.

Lemma exact_laws : @RoundingLaws exact.
Proof. split; unfold round, exact; [done|reflexivity|reflexivity]. Qed.

Lemma similarityScore_range `{Hlaws : RoundingLaws} d m :
  d ≤ m → 0 < m → (0 <= similarityScore d m <= 1)%Q.
Proof.
  intros Hd Hm. unfold similarityScore.
  assert (0 < inject_Z (Z.of_nat m))%Q as Hm'.
  { change 0%Q with (inject_Z 0). rewrite <- Zlt_Qlt. lia. }
  assert (0 <= inject_Z (Z.of_nat d))%Q as Hd0.
  { change 0%Q with (inject_Z 0). rewrite <- Zle_Qle. lia. }
  assert (inject_Z (Z.of_nat d) <= inject_Z (Z.of_nat m))%Q as Hdm.
  { rewrite <- Zle_Qle. lia. }
  assert (0 <= inject_Z (Z.of_nat d) / inject_Z (Z.of_nat m))%Q as Hx0.
  { apply Qle_shift_div_l; [done|]. lra. }
  assert (inject_Z (Z.of_nat d) / inject_Z (Z.of_nat m) <= 1)%Q as Hx1.
  { apply Qle_shift_div_r; [done|]. lra. }
  set (x := (inject_Z (Z.of_nat d) / inject_Z (Z.of_nat m))%Q) in *.
  pose proof (round_le _ _ Hx0) as R0. pose proof (round_le _ _ Hx1) as R1.
  rewrite round_0 in R0. rewrite round_1 in R1.
  assert (0 <= 1 - round x)%Q as S0 by lra.
  assert (1 - round x <= 1)%Q as S1 by lra.
  apply round_le in S0, S1. rewrite round_0 in S0. rewrite round_1 in S1.
  done.
Qed.

(** C7. [levenshteinDistance] is a metric on strings: it is symmetric, zero
    on equal arguments and satisfies the triangle inequality; it is at most
    the larger of the two lengths, so that the similarity score
    [1 - distance / max(|a|, |b|)] lies between 0 and 1 as soon as one of
    the strings is not empty. *)
Theorem levenshteinDistance_metric `{Hround : Rounding} (a b c : jsstring) :
  levenshteinDistance a b = levenshteinDistance b a ∧
  levenshteinDistance a a = 0 ∧
  levenshteinDistance a b ≤ levenshteinDistance a c + levenshteinDistance c b ∧
  levenshteinDistance a b ≤ Nat.max (length a) (length b) ∧
  (RoundingLaws → 0 < Nat.max (length a) (length b) →
   (0 <= similarityScore (levenshteinDistance a b) (Nat.max (length a) (length b)) <= 1)%Q).
Proof.
  split; [apply levenshteinDistance_sym|].
  split; [apply levenshteinDistance_refl|].
  split; [apply levenshteinDistance_triangle|].
  split; [apply levenshteinDistance_le_max|].
  intros Hlaws Hm.
  apply similarityScore_range; [apply levenshteinDistance_le_max|done].
Qed.

(** C7 on two words, in exact arithmetic. *)
Lemma levenshteinDistance_metric_witness :
  @RoundingLaws exact ∧
  0 < Nat.max (length (js "kitten")) (length (js "sitting")) ∧
  levenshteinDistance (js "kitten") (js "sitting") = 3 ∧
  (0 <= similarityScore (Hround := exact) (levenshteinDistance (js "kitten") (js "sitting"))
          (Nat.max (length (js "kitten")) (length (js "sitting"))) <= 1)%Q.
Proof.
  split; [exact exact_laws|].
  split; [vm_compute; lia|]. split; [reflexivity|].
  apply (levenshteinDistance_metric (Hround := exact) (js "kitten") (js "sitting") []).
  - exact exact_laws.
  - vm_compute; lia.
Defined.

Section Host.
Context `{Hcase : CaseMapping} `{Hround : Rounding} `{Hproto : Prototype}.

(** On every state of the worker [performSearch] returns an array: no
    record of a bucket lacks the searchable property the loop reads, so
    that [levenshteinDistance] is never called on [undefined]. *)
Theorem performSearch_returns w q o prev :
  reachable w → is_Some (performSearch w q o prev).
Proof.
  intros Hw. destruct (performSearch_results w q o prev Hw) as (rs & -> & _). eauto.
Qed.

(** C10. Every result carries a record whose hanzi field is a non-empty
    string; a record without a hanzi value is never returned, whichever
    field is searched. *)
Theorem results_have_hanzi w q o prev :
  reachable w →
  ∃ rs, performSearch w q o prev = Some rs ∧
    (∀ x, x ∈ rs →
       ∃ rec hz, heap w !! item x = Some rec ∧ hanzi rec = Some hz ∧ hz ≠ []) ∧
    (∀ r rec, heap w !! r = Some rec → hanzi rec = None ∨ hanzi rec = Some [] →
       r ∉ item <$> rs).
Proof.
  intros Hw. destruct (performSearch_results w q o prev Hw) as (rs & Hrs & Hall).
  exists rs. split; [done|].
  assert (∀ x, x ∈ rs →
    ∃ rec hz, heap w !! item x = Some rec ∧ hanzi rec = Some hz ∧ hz ≠ []) as Hhz.
  { intros x Hx. destruct (Hall x Hx) as (k & grp & _ & _ & _ & Hout).
    destruct (outcome_elem _ _ _ _ _ _ _ Hout) as (_ & rec & hz & t & ? & ? & ? & _).
    by exists rec, hz. }
  split; [done|].
  intros r rec Hr Hnone (x & -> & Hx)%list_elem_of_fmap.
  destruct (Hhz x Hx) as (rec' & hz & Hr' & Hh & Hne).
  destruct Hnone; congruence.
Qed.

(** C3. Candidate pruning: the normalised field of every returned record
    has a length between [max(1, qLen - lengthTolerance)] and
    [qLen + lengthTolerance], where [qLen] is the length of the lowercased
    query; with a tolerance of 0 it has exactly the length of the query, so
    a record whose normalised field is one longer is not returned, whatever
    its score. *)
Theorem results_within_tolerance w q o prev :
  reachable w →
  let qLen := Z.of_nat (length (toLowerCase q)) in
  let tolerance := default 2%Z (lengthTolerance o) in
  ∃ rs, performSearch w q o prev = Some rs ∧
    (∀ x k, x ∈ rs → key o = Some k →
       ∃ rec t, heap w !! item x = Some rec ∧ searchable_prop k rec = Some t ∧
         (Z.max 1 (qLen - tolerance) ≤ Z.of_nat (length t) ≤ qLen + tolerance)%Z ∧
         (tolerance = 0%Z → length t = length (toLowerCase q))) ∧
    (∀ r k rec t, tolerance = 0%Z → key o = Some k →
       heap w !! r = Some rec → searchable_prop k rec = Some t →
       length t = S (length (toLowerCase q)) → r ∉ item <$> rs).
Proof.
  intros Hw qLen tolerance.
  destruct (performSearch_results w q o prev Hw) as (rs & Hrs & Hall).
  exists rs. split; [done|].
  assert (∀ x k, x ∈ rs → key o = Some k →
    ∃ rec t, heap w !! item x = Some rec ∧ searchable_prop k rec = Some t ∧
      (Z.max 1 (qLen - tolerance) ≤ Z.of_nat (length t) ≤ qLen + tolerance)%Z) as Hlen.
  { intros x k Hx Hk. destruct (Hall x Hx) as (k' & grp & Hk' & Hgrp & Hcand & _).
    assert (k' = k) as -> by congruence.
    destruct (candidates_entry_ok w grp k _ _ _ (reachable_index_ok w Hw) Hgrp Hcand)
      as (len & (f & rec & t & -> & Hr & _ & Hgs & <-) & Hrange).
    exists rec, t. by rewrite searchable_prop_field. }
  split.
  - intros x k Hx Hk. destruct (Hlen x k Hx Hk) as (rec & t & Hr & Ht & Hrange).
    exists rec, t. split; [done|]. split; [done|]. split; [done|].
    intros Htol. unfold qLen in Hrange. lia.
  - intros r k rec t Htol Hk Hr Ht Hlong (x & -> & Hx)%list_elem_of_fmap.
    destruct (Hlen x k Hx Hk) as (rec' & t' & Hr' & Ht' & Hrange).
    simplify_eq. unfold qLen in Hrange. lia.
Qed.

(** The bigram score of a result, whichever field was searched. When the
    context is a non-empty string that is a key of the table, it is the
    entry of the row of the context for the hanzi of the record; when the
    row has no such entry, it is what the row inherits from
    [Object.prototype] under the name of the hanzi, if that is truthy, and
    0 otherwise: 0 for a hanzi that is not the name of such a member. When
    the context is null or the empty string it is 0. When the context is
    not a key of the table, it is 0 unless the table inherits a truthy
    member under the name of the context, and then what that member has
    under the name of the hanzi, or 0. *)
Theorem bigram_scores w q o prev :
  reachable w →
  ∃ rs, performSearch w q o prev = Some rs ∧
    ∀ x, x ∈ rs →
      ∃ rec hz, heap w !! item x = Some rec ∧ hanzi rec = Some hz ∧
        (∀ p row, prev = Some p → p ≠ [] → bigramProbabilities w !! p = Some row →
           (∀ v, row !! hz = Some v → ∃ u, bigramScore x = Number u ∧ (u == v)%Q) ∧
           (row !! hz = None → bigramScore x = or_zero (inherited hz)) ∧
           (row !! hz = None → plain hz → bigramScore x = Number 0)) ∧
        (prev = None ∨ prev = Some [] → bigramScore x = Number 0) ∧
        (∀ p, prev = Some p → p ≠ [] → bigramProbabilities w !! p = None →
           bigramScore x = (if ToBoolean (inherited p)
                            then or_zero (inherited_member p hz)
                            else Number 0) ∧
           (plain p → bigramScore x = Number 0)).
Proof.
  intros Hw. destruct (performSearch_results w q o prev Hw) as (rs & Hrs & Hall).
  exists rs. split; [done|]. intros x Hx.
  destruct (Hall x Hx) as (k & grp & _ & _ & _ & Hout).
  destruct (outcome_elem _ _ _ _ _ _ _ Hout)
    as (_ & rec & hz & t & Hr & Hh & _ & _ & _ & _ & Hb).
  exists rec, hz. split; [done|]. split; [done|].
  unfold hasBigramContext, lookup_bigram, read_bigram in Hb. split; [|split].
  - intros p row -> Hp Hrow.
    destruct p as [|c p]; [done|]. rewrite Hrow in Hb. split; [|split].
    + intros v Hv. rewrite Hv in Hb. rewrite Hb. apply or_zero_Number.
    + intros Hnone. by rewrite Hnone in Hb.
    + intros Hnone Hplain. by rewrite Hnone, Hplain in Hb.
  - by intros [->| ->].
  - intros p -> Hp Hnone. destruct p as [|c p]; [done|]. rewrite Hnone in Hb.
    split; [done|]. intros Hplain. by rewrite Hplain in Hb.
Qed.

(** C1, amended. When the query is empty or the key names no group of the
    index, the result is empty. Otherwise [performSearch] returns exactly
    the records of the candidate buckets that have a non-empty hanzi field
    and whose similarity score, [1 - levenshtein / max] between the
    lowercased query and the normalised field of the record, is at least
    the threshold; each of them is returned once and carries that score. *)
Theorem performSearch_exact w q o prev :
  reachable w →
  let q' := toLowerCase q in
  let thr := default (round (6 # 10)) (threshold o) in
  let tolerance := default 2%Z (lengthTolerance o) in
  (q = [] ∨ key o = None ∨ key o = Some [] ∨
     (∃ k, key o = Some k ∧ searchIndex w !! k = None) →
   performSearch w q o prev = Some []) ∧
  (∀ k grp, q ≠ [] → key o = Some k → searchIndex w !! k = Some grp →
     ∃ rs, performSearch w q o prev = Some rs ∧
       item <$> rs ≡ₚ filter (λ r, accepts w k q' thr r) (candidates grp q' tolerance) ∧
       NoDup (item <$> rs) ∧
       (∀ r, r ∈ item <$> rs ↔
          (∃ len b, (Z.max 1 (Z.of_nat (length q') - tolerance) ≤ len
                     ≤ Z.of_nat (length q') + tolerance)%Z ∧
                    grp !! Z.to_nat len = Some b ∧ r ∈ b) ∧
          (∃ rec hz t, heap w !! r = Some rec ∧ hanzi rec = Some hz ∧ hz ≠ [] ∧
             searchable_prop k rec = Some t ∧
             (thr <= similarityScore (levenshteinDistance q' t)
                       (Nat.max (length q') (length t)))%Q)) ∧
       (∀ x, x ∈ rs →
          ∃ f rec s, k = field_name f ∧ heap w !! item x = Some rec ∧
            raw_field f rec = Some s ∧ searchable_prop k rec = Some (normalize s) ∧
            score x = similarityScore (levenshteinDistance q' (normalize s))
                        (Nat.max (length q') (length (normalize s))))).
Proof.
  intros Hw q' thr tolerance. split; [apply performSearch_early|].
  intros k grp Hq Hk Hgrp.
  pose proof (reachable_index_ok w Hw) as Hok.
  rewrite (performSearch_main w q o prev k grp) by done.
  eexists. split; [done|].
  fold q' thr tolerance.
  assert (item <$> sort compare_results
            (candidates grp q' tolerance ≫= outcome w k q' thr prev)
          ≡ₚ filter (λ r, accepts w k q' thr r) (candidates grp q' tolerance)) as Hperm.
  { rewrite sort_perm, items_outcome; [done|].
    intros r Hr. destruct (candidates_entry_ok w grp k _ _ _ Hok Hgrp Hr) as (len & ? & _).
    eauto. }
  split; [done|]. split.
  { rewrite Hperm. by apply NoDup_filter, (candidates_NoDup w k). }
  split.
  - intros r. rewrite Hperm, list_elem_of_filter, elem_of_candidates.
    rewrite Is_true_true, accepts_true. tauto.
  - intros x Hx. rewrite sort_perm in Hx.
    apply list_elem_of_bind in Hx as (r & Hx & Hr).
    destruct (outcome_elem _ _ _ _ _ _ _ Hx)
      as (-> & rec & hz & t & Hrec & _ & _ & Ht & Hscore & _).
    destruct (candidates_entry_ok w grp k _ _ _ Hok Hgrp Hr)
      as (len & (f & rec' & t' & -> & Hrec' & Hsf & Hgs & _) & _).
    apply searchable_form_Some in Hsf as (s & Hraw & _ & <- & _).
    rewrite searchable_prop_field in Ht. simplify_eq.
    exists f, rec, s. by rewrite searchable_prop_field.
Qed.


Lemma filter_eq_not_elem_of (l : list nat) r :
  r ∉ l → filter (λ x, x = r) l = [].
Proof.
  induction l as [|y l IH]; [done|].
  rewrite not_elem_of_cons. intros [Hne Hr].
  rewrite filter_cons, decide_False by done. by apply IH.
Qed.

Lemma filter_eq_NoDup (l : list nat) r :
  NoDup l → r ∈ l → filter (λ x, x = r) l = [r].
Proof.
  induction 1 as [|y l Hy Hl IH]; [by intros ?%elem_of_nil|].
  rewrite filter_cons. intros [->|Hr]%elem_of_cons.
  - rewrite decide_True by done. f_equal. by apply filter_eq_not_elem_of.
  - rewrite decide_False by (by intros ->). by apply IH.
Qed.

(** C6. After [initialize], every record of the dictionary and each of its
    two fields that is a non-empty string with a non-empty normalised form
    is indexed for that field in exactly one bucket, the one of the length
    of the normalised form, and once in it; its searchable property holds
    the normalised form. Nothing is asked of the other field. *)
Theorem index_complete w dict bigram i rec f s :
  let w' := (initialize w (Loaded dict bigram)).1.1 in
  let r := length (heap w) + i in
  dict !! i = Some rec → raw_field f rec = Some s → s ≠ [] → normalize s ≠ [] →
  dictionary w' !! i = Some r ∧
  (∃ rec', heap w' !! r = Some rec' ∧
     pinyin rec' = pinyin rec ∧ hanzi rec' = hanzi rec ∧
     get_searchable f rec' = Some (normalize s)) ∧
  ∃ grp b,
    searchIndex w' !! field_name f = Some grp ∧
    grp !! length (normalize s) = Some b ∧
    filter (λ x, x = r) b = [r] ∧
    ∀ len b', grp !! len = Some b' → r ∈ b' → len = length (normalize s).
Proof.
  intros w' r Hi Hraw Hs Hn. subst w'. simpl.
  set (h := heap w ++ dict). set (refs := seq (length (heap w)) (length dict)).
  destruct (build_index_spec h refs) as (Hlen & Hkeep & Hkeys & Hbuckets & Hok).
  simpl in Hlen, Hkeep, Hkeys, Hbuckets, Hok.
  assert (i < length dict) as Hi' by (by eapply lookup_lt_Some).
  assert (h !! r = Some rec) as Hr.
  { unfold h, r. rewrite lookup_app_r by lia.
    by replace (length (heap w) + i - length (heap w)) with i by lia. }
  assert (r ∈ refs) as Hin by (apply elem_of_seq; lia).
  assert (searchable_form f rec = Some (normalize s)) as Hsf.
  { apply searchable_form_Some. by exists s. }
  assert (∀ len, form_length h f r = Some len ↔ len = length (normalize s)) as Hfl.
  { intros len. unfold form_length. rewrite Hr. simpl. rewrite Hsf. simpl.
    split; [by intros [= <-]|by intros ->]. }
  destruct (Hkeys (field_name f)) as [_ [grp Hgrp]]; [destruct f; auto|].
  assert (∀ len, default [] (grp !! len)
                 = filter (λ r', form_length h f r' = Some len) refs) as Hb.
  { intros len. rewrite <- Hbuckets. unfold bucket. by rewrite Hgrp. }
  assert (∀ len b', grp !! len = Some b' → r ∈ b' → len = length (normalize s)) as Huniq.
  { intros len b' Hb' Hrb. specialize (Hb len). rewrite Hb' in Hb. simpl in Hb.
    rewrite Hb in Hrb. apply list_elem_of_filter in Hrb as [Hrb _]. by apply Hfl. }
  destruct (grp !! length (normalize s)) as [b|] eqn:Hbk.
  2:{ specialize (Hb (length (normalize s))). rewrite Hbk in Hb. simpl in Hb.
      assert (r ∈ @nil nat) as Hnil; [|by apply elem_of_nil in Hnil].
      rewrite Hb. apply list_elem_of_filter. split; [by apply Hfl|done]. }
  assert (r ∈ b) as Hrb.
  { specialize (Hb (length (normalize s))). rewrite Hbk in Hb. simpl in Hb.
    rewrite Hb. apply list_elem_of_filter. split; [by apply Hfl|done]. }
  split; [apply lookup_seq; split; [done|lia]|]. split.
  - destruct (Hok _ _ _ _ _ Hgrp Hbk Hrb)
      as (f' & rec' & t & Hf & Hrec' & Hsf' & Hgs & _).
    apply field_name_inj in Hf as <-.
    destruct (Hkeep r rec Hr) as (rec'' & Hrec'' & Hp & Hh).
    assert (rec'' = rec') as -> by congruence.
    exists rec'. split; [done|]. split; [done|]. split; [done|].
    rewrite Hgs, <- Hsf', <- Hsf. unfold searchable_form.
    by destruct f; simpl; rewrite ?Hp, ?Hh.
  - exists grp, b. split; [done|]. split; [done|]. split; [|done].
    apply filter_eq_NoDup; [|done].
    specialize (Hb (length (normalize s))). rewrite Hbk in Hb. simpl in Hb.
    rewrite Hb. apply NoDup_filter, NoDup_seq.
Qed.

End Host.

End EngineClaims.

(** ** Facts about the correlation of requests and responses *)

Module ClientFacts.

Import Engine Client Spec.

Lemma search_unfold st p :
  search st p =
  (Api (<[searchIdCounter st := length (promises st)]> (pendingSearches st))
       (S (searchIdCounter st)) (promises st ++ [Pending])
       (posted st ++ [SearchMessage p (searchIdCounter st)]),
   length (promises st)).
Proof. done. Qed.

Lemma search_ok st p : api_ok st → api_ok (search st p).1.
Proof.
  intros (Hpend & Hinj & Hpost). rewrite search_unfold.
  split; [|split]; simpl.
  - intros id pr [[<- <-]|[Hne Hid]]%lookup_insert_Some.
    + split; [lia|]. by rewrite lookup_app_r, Nat.sub_diag.
    + destruct (Hpend id pr Hid) as [Hlt Hpr]. split; [lia|].
      by rewrite (lookup_app_l_Some _ _ _ _ Hpr).
  - intros id1 id2 pr [[<- <-]|[Hne1 H1]]%lookup_insert_Some
      [[<- E]|[Hne2 H2]]%lookup_insert_Some; try done.
    + destruct (Hpend id2 _ H2) as [_ Hpr%lookup_lt_Some]. lia.
    + destruct (Hpend id1 _ H1) as [_ Hpr%lookup_lt_Some]. lia.
    + by eapply Hinj.
  - intros q id [Hin|Hin%list_elem_of_singleton]%elem_of_app.
    + specialize (Hpost q id Hin). lia.
    + injection Hin as _ ->. lia.
Qed.

Lemma handle_known st results id cb :
  pendingSearches st !! id = Some cb →
  _handleSearchResult st (SearchResults results id) =
  Api (delete id (pendingSearches st)) (searchIdCounter st)
      (resolve_promise cb results (promises st)) (posted st).
Proof. intros Hid. simpl. by rewrite Hid. Qed.

Lemma handle_unknown st results id :
  pendingSearches st !! id = None →
  _handleSearchResult st (SearchResults results id) = st.
Proof. intros Hid. simpl. by rewrite Hid. Qed.

Lemma resolve_pending p results ps :
  ps !! p = Some Pending →
  resolve_promise p results ps = <[p := Resolved results]> ps.
Proof. intros Hp. unfold resolve_promise. by rewrite Hp. Qed.

Lemma handle_ok st m : api_ok st → api_ok (_handleSearchResult st m).
Proof.
  intros (Hpend & Hinj & Hpost). destruct m as [| |results id]; try done.
  destruct (pendingSearches st !! id) as [cb|] eqn:Hid;
    [|by rewrite handle_unknown].
  rewrite (handle_known _ _ _ _ Hid).
  destruct (Hpend id cb Hid) as [_ Hcb]. rewrite resolve_pending by done.
  split; [|split; [|done]]; simpl.
  - intros id' p [Hne Hid']%lookup_delete_Some.
    destruct (Hpend id' p Hid') as [Hlt Hp]. split; [done|].
    rewrite list_lookup_insert_ne; [done|].
    intros <-. apply Hne. by eapply Hinj.
  - intros id1 id2 p [_ H1]%lookup_delete_Some [_ H2]%lookup_delete_Some.
    by eapply Hinj.
Qed.

(** A message delivered twice (a handler attached twice) has the effect of
    one delivery. *)
Lemma handle_idempotent st m :
  _handleSearchResult (_handleSearchResult st m) m = _handleSearchResult st m.
Proof.
  destruct m as [| |results id]; try done.
  destruct (pendingSearches st !! id) as [cb|] eqn:Hid.
  - rewrite (handle_known _ _ _ _ Hid). apply handle_unknown. simpl.
    apply lookup_delete_eq.
  - rewrite (handle_unknown _ _ _ Hid). by apply handle_unknown.
Qed.

Lemma reachable_ok st : reachable st → api_ok st.
Proof.
  induction 1 as [|st p _ IH|st m _ IH].
  - split; [|split]; intros *; simpl; rewrite ?lookup_empty; try done.
    by intros ?%elem_of_nil.
  - by apply search_ok.
  - by apply handle_ok.
Qed.

(** [N] calls of [search] use the ids [c, c + 1, ...] in this order, where
    [c] is the counter before the first call. *)
Lemma search_all_spec requests :
  ∀ st, api_ok st →
    let st1 := (search_all st requests).1 in
    let c := searchIdCounter st in
    let base := length (promises st) in
    let n := length requests in
    api_ok st1 ∧
    searchIdCounter st1 = c + n ∧
    (search_all st requests).2 = seq base n ∧
    promises st1 = promises st ++ replicate n Pending ∧
    posted st1 = posted st ++ imap (λ i p, SearchMessage p (c + i)) requests ∧
    ∀ id, pendingSearches st1 !! id =
          if decide (c ≤ id < c + n) then Some (base + (id - c))
          else pendingSearches st !! id.
Proof.
  induction requests as [|p requests IH]; intros st Hst; simpl.
  { split; [done|]. split; [lia|]. split; [done|]. rewrite !app_nil_r.
    split; [done|]. split; [done|]. intros id. by rewrite decide_False by lia. }
  pose proof (search_ok st p Hst) as Hst'.
  specialize (IH (search st p).1 Hst'). rewrite search_unfold in *.
  simpl in IH.
  destruct (search_all _ requests) as [st2 prs]. simpl in *.
  destruct IH as (Hok & Hc & Hprs & Hpr & Hpost & Hpend).
  rewrite length_app in Hprs, Hpend. simpl in Hprs, Hpend.
  rewrite Nat.add_1_r in Hprs, Hpend.
  split; [done|]. split; [lia|]. split; [by rewrite Hprs|].
  split; [by rewrite Hpr, <- (assoc_L (++))|].
  split.
  { rewrite Hpost, <- (assoc_L (++)). simpl. do 2 f_equal.
    - by rewrite Nat.add_0_r.
    - apply imap_ext. intros i x _. simpl. f_equal. lia. }
  intros id. rewrite Hpend.
  destruct (decide (id = searchIdCounter st)) as [->|Hne].
  - rewrite decide_False by lia. rewrite lookup_insert_eq.
    rewrite decide_True by lia. f_equal. lia.
  - rewrite lookup_insert_ne by done.
    repeat case_decide; try lia; try done. f_equal. lia.
Qed.

(** Responses to distinct pending requests, in any order: each resolves the
    promise of its own request with its own results and removes its entry;
    nothing else changes. *)
Lemma deliver_spec res order :
  ∀ st, api_ok st → NoDup order →
    (∀ id, id ∈ order → is_Some (pendingSearches st !! id)) →
    let st' := deliver st (respond res <$> order) in
    api_ok st' ∧
    searchIdCounter st' = searchIdCounter st ∧
    posted st' = posted st ∧
    (∀ id, pendingSearches st' !! id =
           if decide (id ∈ order) then None else pendingSearches st !! id) ∧
    (∀ id p, id ∈ order → pendingSearches st !! id = Some p →
       promises st' !! p = Some (Resolved (res id))) ∧
    (∀ p, (∀ id, id ∈ order → pendingSearches st !! id ≠ Some p) →
       promises st' !! p = promises st !! p).
Proof.
  induction order as [|id order IH]; intros st Hst Hnd Hall.
  { change (deliver st (respond res <$> [])) with st. cbv zeta.
    split; [done|]. split; [done|]. split; [done|]. split.
    - intros id. rewrite decide_False; [done|]. by intros ?%elem_of_nil.
    - split; [by intros ? ? ?%elem_of_nil|done]. }
  change (deliver st (respond res <$> id :: order))
    with (deliver (_handleSearchResult st (respond res id)) (respond res <$> order)).
  cbv zeta.
  apply NoDup_cons in Hnd as [Hnotin Hnd].
  destruct (Hall id) as [cb Hcb]; [by left|].
  pose proof Hst as (Hpend & Hinj & _).
  destruct (Hpend id cb Hcb) as [_ Hcbp].
  pose proof (handle_ok st (respond res id) Hst) as Hst1.
  assert (_handleSearchResult st (respond res id) =
          Api (delete id (pendingSearches st)) (searchIdCounter st)
              (<[cb := Resolved (res id)]> (promises st)) (posted st)) as Hstep.
  { unfold respond. rewrite (handle_known _ _ _ _ Hcb). by rewrite resolve_pending. }
  rewrite Hstep in *. clear Hstep.
  set (st1 := Api _ _ _ _) in *.
  assert (∀ id', id' ∈ order → pendingSearches st1 !! id' = pendingSearches st !! id')
    as Hsame.
  { intros id' Hin. simpl. apply lookup_delete_ne. by intros ->. }
  destruct (IH st1 Hst1 Hnd) as (Hok & Hc & Hpost & Hp & Hres & Hoth).
  { intros id' Hin. rewrite Hsame by done. apply Hall. by right. }
  split; [done|]. split; [done|]. split; [done|]. split; [|split].
  - intros id'. rewrite Hp. simpl.
    destruct (decide (id' = id)) as [->|Hne].
    + rewrite lookup_delete_eq. rewrite (decide_False (P := id ∈ order)) by done.
      by rewrite decide_True by left.
    + rewrite lookup_delete_ne by done.
      destruct (decide (id' ∈ order)) as [Hin|Hin].
      * by rewrite decide_True by (by right).
      * rewrite decide_False; [done|]. by intros [?|?]%elem_of_cons.
  - intros id' p' [->|Hin]%elem_of_cons Hid'.
    + assert (p' = cb) as -> by congruence.
      rewrite Hoth.
      * simpl. apply list_lookup_insert_eq. by eapply lookup_lt_Some.
      * intros id2 Hin. rewrite Hsame by done. intros Hid2.
        apply Hnotin. by rewrite <- (Hinj _ _ _ Hid2 Hcb).
    + apply Hres; [done|]. by rewrite Hsame.
  - intros p' Hp'. rewrite Hoth.
    + simpl. apply list_lookup_insert_ne. intros <-. by apply (Hp' id); [left|].
    + intros id2 Hin. rewrite Hsame by done. apply Hp'. by right.
Qed.

End ClientFacts.

(** ** The claim about the client *)

Module ClientClaims.

Import Engine Client Spec ClientFacts.

(** C2. Every call of [search] takes the current value of the counter as
    its id and increments the counter, so that [N] calls issued together
    use [N] consecutive, increasing ids, above the id of every request
    posted before and absent from the table; the resolver is stored under
    the id before the message is posted. A [search_results] message resolves the promise stored under
    its id with its results and removes that entry: when the [N] responses
    arrive, in any order, every promise is resolved with the results sent
    for its own id, the table is what it was before the calls and no other
    promise has changed. A [search_results] whose id has no entry leaves the
    state as it is. *)
Theorem search_correlation (st : api) (requests : list payload)
  (res : nat → list result) (order : list nat) :
  reachable st →
  order ≡ₚ seq (searchIdCounter st) (length requests) →
  let c := searchIdCounter st in
  let base := length (promises st) in
  let n := length requests in
  let st1 := (search_all st requests).1 in
  let st2 := deliver st1 (respond res <$> order) in
  (posted st1 = posted st ++ imap (λ i p, SearchMessage p (c + i)) requests ∧
   searchIdCounter st1 = c + n ∧
   (search_all st requests).2 = seq base n ∧
   (∀ p id, SearchMessage p id ∈ posted st → id < c) ∧
   ∀ i, i < n →
     pendingSearches st !! (c + i) = None ∧
     pendingSearches st1 !! (c + i) = Some (base + i) ∧
     promises st1 !! (base + i) = Some Pending) ∧
  (∀ s p, ∃ s',
     pendingSearches s' !! searchIdCounter s = Some (search s p).2 ∧
     (search s p).1 = postMessage s' (SearchMessage p (searchIdCounter s))) ∧
  (∀ s results id cb,
     reachable s → pendingSearches s !! id = Some cb →
     let s' := _handleSearchResult s (SearchResults results id) in
     promises s !! cb = Some Pending ∧
     promises s' = <[cb := Resolved results]> (promises s) ∧
     pendingSearches s' = delete id (pendingSearches s)) ∧
  ((∀ i, i < n → promises st2 !! (base + i) = Some (Resolved (res (c + i)))) ∧
   pendingSearches st2 = pendingSearches st ∧
   ∀ p, p < base → promises st2 !! p = promises st !! p) ∧
  (∀ s results id,
     pendingSearches s !! id = None →
     _handleSearchResult s (SearchResults results id) = s).
Proof.
  intros Hst Hperm c base n st1 st2.
  pose proof (reachable_ok st Hst) as Hok.
  destruct (search_all_spec requests st Hok) as (Hok1 & Hc & Hprs & Hpr & Hpost & Hpend1).
  fold c base n st1 in Hok1, Hc, Hprs, Hpr, Hpost, Hpend1.
  assert (∀ id, c ≤ id → pendingSearches st !! id = None) as Hfresh.
  { intros id Hid. destruct (pendingSearches st !! id) as [p|] eqn:E; [|done].
    destruct Hok as [Hpend _]. destruct (Hpend id p E). unfold c in Hid. lia. }
  assert (∀ id, id ∈ order ↔ c ≤ id < c + n) as Horder.
  { intros id. rewrite Hperm. apply elem_of_seq. }
  assert (∀ i, i < n → pendingSearches st1 !! (c + i) = Some (base + i)) as Hreg.
  { intros i Hi. rewrite Hpend1, decide_True by lia. f_equal. lia. }
  destruct (deliver_spec res order st1 Hok1) as (_ & _ & _ & Hp2 & Hres2 & Hoth2).
  { rewrite Hperm. apply NoDup_seq. }
  { intros id [Hlo Hhi]%Horder. rewrite Hpend1, decide_True by done. eauto. }
  fold st2 in Hp2, Hres2, Hoth2.
  split; [|split; [|split; [|split]]].
  - split; [done|]. split; [done|]. split; [done|]. split; [apply Hok|].
    intros i Hi. split; [apply Hfresh; lia|]. split; [by apply Hreg|].
    rewrite Hpr, lookup_app_r by (unfold base; lia).
    apply lookup_replicate_2. unfold base. lia.
  - intros s p. rewrite search_unfold. simpl.
    exists (Api (<[searchIdCounter s := length (promises s)]> (pendingSearches s))
                (S (searchIdCounter s)) (promises s ++ [Pending]) (posted s)).
    split; [apply lookup_insert_eq|done].
  - intros s results id cb Hs Hcb s'. subst s'.
    destruct (reachable_ok s Hs) as [Hpend _].
    destruct (Hpend id cb Hcb) as [_ Hp].
    rewrite (handle_known _ _ _ _ Hcb). simpl.
    by rewrite resolve_pending.
  - split; [|split].
    + intros i Hi. apply (Hres2 (c + i)); [apply Horder; lia|by apply Hreg].
    + apply map_eq. intros id. rewrite Hp2.
      destruct (decide (id ∈ order)) as [Hin|Hin].
      * symmetry. apply Hfresh. apply Horder in Hin. lia.
      * rewrite Hpend1, decide_False; [done|]. by rewrite <- Horder.
    + intros p Hp. rewrite Hoth2.
      * rewrite Hpr. apply lookup_app_l. done.
      * intros id [Hlo Hhi]%Horder. rewrite Hpend1, decide_True by done.
        intros [= E]. lia.
  - intros s results id. apply handle_unknown.
Qed.

End ClientClaims.

(** ** The claims about the message handler *)

Module ProtocolClaims.

Import Engine Spec IndexFacts SearchFacts.

Lemma load_attempts_app out1 out2 :
  load_attempts (out1 ++ out2) = load_attempts out1 + load_attempts out2.
Proof. unfold load_attempts. by rewrite filter_app, length_app. Qed.

Lemma index_constructions_app out1 out2 :
  index_constructions (out1 ++ out2)
  = index_constructions out1 + index_constructions out2.
Proof. unfold index_constructions. by rewrite filter_app, length_app. Qed.

Section Host.
Context `{Hcase : CaseMapping} `{Hround : Rounding} `{Hproto : Prototype}.

Lemma onmessage_logs w e :
  load_attempts (onmessage w e).2 = (if is_init e then 1 else 0) ∧
  index_constructions (onmessage w e).2 = (if is_loaded_init e then 1 else 0).
Proof.
  destruct e as [[msg|dict msg|dict bigram]|p id|]; simpl;
    try (destruct (performSearch _ _ _ _); [destruct (forallb _ _)|]);
    vm_compute; split; reflexivity.
Qed.

Lemma run_cons w e events :
  run w (e :: events) =
  ((run (onmessage w e).1 events).1, (onmessage w e).2 ++ (run (onmessage w e).1 events).2).
Proof.
  cbn [run]. destruct (onmessage w e) as [w1 out1]. cbn [fst snd].
  by destruct (run w1 events).
Qed.

(** C8, amended. The handler has no guard on [init]: every [init] message
    enters [initialize], and every [init] whose data arrive runs the index
    construction again; whatever state the worker is in, the dictionary and
    the bigram table become the ones just loaded and the index is built
    anew from that dictionary. *)
Theorem init_runs_every_time w events :
  load_attempts (run w events).2 = length (filter (λ e, is_init e) events) ∧
  index_constructions (run w events).2
    = length (filter (λ e, is_loaded_init e) events) ∧
  ∀ w0 dict bigram,
    let w' := (onmessage w0 (Init (Loaded dict bigram))).1 in
    dictionary w' = seq (length (heap w0)) (length dict) ∧
    bigramProbabilities w' = bigram ∧
    built_from (heap w') (searchIndex w') (dictionary w').
Proof.
  split; [|split].
  - revert w. induction events as [|e events IH]; intros w; [done|].
    rewrite run_cons, filter_cons. simpl. rewrite load_attempts_app, IH.
    destruct (onmessage_logs w e) as [-> _].
    by destruct (is_init e).
  - revert w. induction events as [|e events IH]; intros w; [done|].
    rewrite run_cons, filter_cons. simpl. rewrite index_constructions_app, IH.
    destruct (onmessage_logs w e) as [_ ->].
    by destruct (is_loaded_init e).
  - intros w0 dict bigram. simpl. split; [done|]. split; [done|].
    apply build_index_built_from; [apply NoDup_seq|].
    intros r Hr%elem_of_seq. rewrite length_app. lia.
Qed.

Lemma onmessage_not_loaded w e :
  is_loaded_init e = false → searchIndex w = ∅ → searchIndex (onmessage w e).1 = ∅.
Proof.
  destruct e as [[msg|dict msg|dict bigram]|p id|]; simpl; try done.
  by destruct (performSearch _ _ _ _); [destruct (forallb _ _)|].
Qed.

Lemma run_not_loaded events :
  ∀ w, Forall (λ e, is_loaded_init e = false) events →
       searchIndex w = ∅ → searchIndex (run w events).1 = ∅.
Proof.
  induction events as [|e events IH]; intros w Hall Hw; [done|].
  apply Forall_cons in Hall as [He Hall]. rewrite run_cons. simpl.
  apply IH; [done|]. by apply onmessage_not_loaded.
Qed.

(** C9, amended. A [search] received before any [init] has loaded its data
    is answered at once, by a [search_results] message that carries the
    id of the request and the empty sequence; it is neither dropped nor
    queued, and the state of the worker does not change. *)
Theorem search_before_init events p id :
  Forall (λ e, is_loaded_init e = false) events →
  let w := (run initial_worker events).1 in
  searchIndex w = ∅ ∧
  onmessage w (Search p id) = (w, [PostMessage (SearchResults [] id)]).
Proof.
  intros Hall w.
  assert (searchIndex w = ∅) as Hw by (by apply run_not_loaded).
  split; [done|]. simpl.
  rewrite performSearch_early; [done|].
  destruct (key (search_options p)) as [k|] eqn:Hk; [|auto].
  right. right. right. exists k. by rewrite Hw, lookup_empty.
Qed.

End Host.

End ProtocolClaims.

(** ** Further properties of the engine *)

Module EngineProperties.

Import Engine Spec IndexFacts SearchFacts SortFacts ResultFacts LevFacts EngineClaims.

(** *** The distance *)

Lemma lev_eq_0 a : ∀ b, lev a b = 0 → a = b.
Proof.
  induction a as [|x a IH]; intros [|y b] H; try done.
  rewrite lev_cons in H.
  unfold min3 in H. case_bool_decide; [|lia].
  subst. f_equal. apply IH. lia.
Qed.

Lemma levenshteinDistance_eq_0 a b : levenshteinDistance a b = 0 → a = b.
Proof.
  rewrite levenshteinDistance_lev. intros H%lev_eq_0.
  apply (f_equal (@rev _)) in H. by rewrite !rev_involutive in H.
Qed.

(** The distance to the empty string is the length of the other string;
    the distance between two strings is at least the difference of their
    lengths, and it is zero only between equal strings. *)
Theorem levenshteinDistance_bounds (a b : jsstring) :
  levenshteinDistance a [] = length a ∧
  levenshteinDistance [] b = length b ∧
  length a - length b ≤ levenshteinDistance a b ∧
  length b - length a ≤ levenshteinDistance a b ∧
  (levenshteinDistance a b = 0 ↔ a = b).
Proof.
  split; [by rewrite levenshteinDistance_lev, lev_nil_r, length_rev|].
  split; [by rewrite levenshteinDistance_lev; simpl; rewrite length_rev|].
  pose proof (lev_length_r (rev a) (rev b)) as Hr.
  pose proof (lev_length_l (rev a) (rev b)) as Hl.
  rewrite !length_rev, <- levenshteinDistance_lev in Hr, Hl.
  split; [lia|]. split; [lia|].
  split; [apply levenshteinDistance_eq_0|].
  intros ->. apply levenshteinDistance_refl.
Qed.

(** *** Lists *)

Lemma bind_ext_elem {A B} (f g : A → list B) (l : list A) :
  (∀ x, x ∈ l → f x = g x) → l ≫= f = l ≫= g.
Proof.
  induction l as [|x l IH]; intros H; [done|].
  rewrite !bind_cons, H by left. f_equal. apply IH. intros y Hy. apply H. by right.
Qed.

Lemma filter_bind {A B} (P : B → Prop) `{!∀ x, Decision (P x)} (f : A → list B)
  (l : list A) :
  filter P (l ≫= f) = l ≫= (λ x, filter P (f x)).
Proof.
  induction l as [|x l IH]; [done|].
  by rewrite !bind_cons, filter_app, IH.
Qed.

Lemma filter_comm {A} (P Q : A → Prop) `{!∀ x, Decision (P x)} `{!∀ x, Decision (Q x)}
  (l : list A) :
  filter P (filter Q l) = filter Q (filter P l).
Proof.
  induction l as [|x l IH]; [done|].
  rewrite !(filter_cons _ x).
  destruct (decide (Q x)), (decide (P x));
    rewrite ?(filter_cons _ x), ?decide_True, ?decide_False by done; by rewrite IH.
Qed.

Lemma filter_sorted {A} (R : A → A → Prop) (P : A → Prop) `{!∀ x, Decision (P x)} l :
  StronglySorted R l → StronglySorted R (filter P l).
Proof.
  induction 1 as [|x l Hs IH Hx]; [constructor|].
  rewrite filter_cons. destruct (decide (P x)); [|done].
  constructor; [done|].
  rewrite Forall_forall in *. intros y [_ Hy]%list_elem_of_filter. by apply Hx.
Qed.

(** Keeping the results that pass a test commutes with sorting them, when
    their bigram scores are numbers. *)
Lemma filter_sort (P : result → Prop) `{!∀ x, Decision (P x)} l :
  Forall numeric l →
  filter P (sort compare_results l) = sort compare_results (filter P l).
Proof.
  intros Hnum. apply sort_unique.
  - rewrite Forall_forall in *. intros x [_ Hx]%list_elem_of_filter. by apply Hnum.
  - by rewrite sort_perm.
  - by apply filter_sorted, sort_sorted.
  - intros z. by rewrite filter_comm, sort_stable, filter_comm.
Qed.

(** All the elements of [l ≫= f] pass the test, or none does. *)
Lemma filter_bind_all {A B} (P : B → Prop) `{!∀ x, Decision (P x)} (f : A → list B)
  (l : list A) (keep : bool) :
  (∀ a b, a ∈ l → b ∈ f a → (P b ↔ keep = true)) →
  filter P (l ≫= f) = if keep then l ≫= f else [].
Proof.
  intros Hall. rewrite filter_bind.
  induction l as [|a l IH].
  { by destruct keep. }
  rewrite bind_cons, IH by (intros a' b Ha'; apply Hall; by right).
  assert (filter P (f a) = if keep then f a else []) as ->.
  { assert (∀ b, b ∈ f a → P b ↔ keep = true) as Hb by (intros b; apply Hall; by left).
    induction (f a) as [|b bs IHb]; [by destruct keep|].
    rewrite filter_cons. rewrite IHb by (intros b' Hb'; apply Hb; by right).
    destruct (Hb b ltac:(left)) as [H1 H2].
    destruct keep; [rewrite decide_True by auto; done|].
    rewrite decide_False; [done|]. intros HP. by specialize (H1 HP). }
  destruct keep; [by rewrite bind_cons|done].
Qed.

Lemma is_digit_ascii_toLowerCase c : is_digit (ascii_toLowerCase c) = is_digit c.
Proof.
  unfold is_digit, ascii_toLowerCase.
  destruct (N.leb_spec 65 c), (N.leb_spec c 90); simpl; try done.
  destruct (N.leb_spec 48 (c + 32)), (N.leb_spec (c + 32) 57),
    (N.leb_spec 48 c), (N.leb_spec c 57); simpl; try done; lia.
Qed.

(** The mapping of the basic Latin letters has the two properties. *)
Lemma latin_laws : @CaseMappingLaws latin_toLowerCase.
Proof.
  split; [done|].
  intros s. unfold toLowerCase, latin_toLowerCase.
  change (λ c : N, if ((65 <=? c) && (c <=? 90))%N then (c + 32)%N else c)
    with ascii_toLowerCase.
  rewrite !Exists_exists. split.
  - intros (c & (d & -> & Hd)%list_elem_of_fmap & Hc). exists d. split; [done|].
    by rewrite is_digit_ascii_toLowerCase in Hc.
  - intros (c & Hc & Hd). exists (ascii_toLowerCase c). split.
    + apply list_elem_of_fmap. eauto.
    + by rewrite is_digit_ascii_toLowerCase.
Qed.

Section Host.
Context `{Hcase : CaseMapping} `{Hround : Rounding} `{Hproto : Prototype}.

(** *** The threshold *)

(** What a visit appends under a higher threshold. *)
Lemma outcome_threshold w k q thr1 thr2 prev r :
  (thr1 <= thr2)%Q →
  outcome w k q thr2 prev r =
  filter (λ x, Qle_bool thr2 (score x)) (outcome w k q thr1 prev r).
Proof.
  intros Hthr. unfold outcome, visit_record.
  destruct (heap w !! r) as [rec|]; simpl; [|done].
  destruct (hanzi rec) as [[|c hz]|]; simpl; [done| |done].
  destruct (searchable_prop k rec) as [t|]; simpl; [|done].
  case_bool_decide; [done|].
  destruct (Qle_bool thr2 _) eqn:E2.
  - assert (Qle_bool thr1 (similarityScore (levenshteinDistance q t)
              (Nat.max (length q) (length t))) = true) as ->.
    { apply Qle_bool_iff. apply Qle_bool_iff in E2. lra. }
    simpl. rewrite filter_cons, decide_True; [done|]. by apply Is_true_true.
  - destruct (Qle_bool thr1 _); simpl; [|done].
    rewrite filter_cons, decide_False; [done|]. by apply Is_true_false.
Qed.

(** A search with a higher threshold returns the results of the search
    with the lower one whose score reaches the higher threshold. The
    order is the same when the bigram scores of the permissive search are
    numbers, which they are when neither the hanzi of a record nor the
    context is the name of a member of [Object.prototype]: the client can
    then filter the results of a permissive search instead of searching
    again. *)
Theorem raising_threshold w q o1 o2 prev :
  reachable w → key o1 = key o2 → lengthTolerance o1 = lengthTolerance o2 →
  let thr1 := default (round (6 # 10)) (threshold o1) in
  let thr2 := default (round (6 # 10)) (threshold o2) in
  (thr1 <= thr2)%Q →
  ∃ rs1 rs2,
    performSearch w q o1 prev = Some rs1 ∧ performSearch w q o2 prev = Some rs2 ∧
    let kept := filter (λ x, Qle_bool thr2 (score x)) rs1 in
    rs2 ≡ₚ kept ∧
    (Forall numeric rs1 → rs2 = kept) ∧
    (plain_worker w → plain_context prev → rs2 = kept).
Proof.
  intros Hw Hkey Htol thr1 thr2 Hthr.
  assert (∃ rs1 rs2,
    performSearch w q o1 prev = Some rs1 ∧ performSearch w q o2 prev = Some rs2 ∧
    let kept := filter (λ x, Qle_bool thr2 (score x)) rs1 in
    rs2 ≡ₚ kept ∧ (Forall numeric rs1 → rs2 = kept)) as (rs1 & rs2 & H1 & H2 & Hperm & Heq).
  { destruct (decide (q = [])) as [->|Hq].
    { exists [], []. by rewrite !performSearch_early by auto. }
    destruct (key o2) as [k|] eqn:Hk.
    2: { exists [], []. by rewrite !performSearch_early by auto. }
    destruct (searchIndex w !! k) as [grp|] eqn:Hgrp.
    2: { exists [], []. rewrite !performSearch_early; [done| |]; right; right; right; eauto. }
    rewrite (performSearch_main w q o1 prev k grp), (performSearch_main w q o2 prev k grp)
      by done.
    eexists _, _. split; [done|]. split; [done|]. cbn zeta.
    fold thr1 thr2.
    set (l1 := candidates grp (toLowerCase q) (default 2%Z (lengthTolerance o1))
                 ≫= outcome w k (toLowerCase q) thr1 prev).
    assert (candidates grp (toLowerCase q) (default 2%Z (lengthTolerance o2))
              ≫= outcome w k (toLowerCase q) thr2 prev
            = filter (λ x, Qle_bool thr2 (score x)) l1) as ->.
    { unfold l1. rewrite filter_bind, Htol. apply bind_ext_elem. intros r _.
      by apply outcome_threshold. }
    split.
    - by rewrite !sort_perm.
    - intros Hnum. rewrite sort_perm in Hnum. by rewrite filter_sort. }
  exists rs1, rs2. split; [done|]. split; [done|]. cbn zeta.
  split; [done|]. split; [done|].
  intros Hplain Hprev. apply Heq.
  eapply Forall_impl; [by eapply plain_results|].
  intros x [u Hu]. unfold numeric. rewrite Hu. by eexists.
Qed.

Lemma entry_ok_nonempty h k len r : entry_ok h k len r → 0 < len.
Proof.
  intros (f & rec & t & _ & _ & Hform & _ & <-).
  unfold searchable_form in Hform.
  destruct (raw_field f rec) as [[|c s]|]; [done| |done].
  destruct (normalize (c :: s)); [done|]. injection Hform as <-. simpl. lia.
Qed.

(** A threshold above 1 excludes every record. A threshold of 0 or less
    excludes none: the search returns every record of the candidate buckets
    that has a non-empty hanzi field. *)
Theorem threshold_bounds `{Hlaws : !RoundingLaws} w q o prev thr :
  reachable w → threshold o = Some thr →
  ((1 < thr)%Q → performSearch w q o prev = Some []) ∧
  ((thr <= 0)%Q → ∀ k grp, q ≠ [] → key o = Some k → searchIndex w !! k = Some grp →
     ∃ rs, performSearch w q o prev = Some rs ∧
       item <$> rs ≡ₚ
       filter (λ r, has_hanzi w r)
         (candidates grp (toLowerCase q) (default 2%Z (lengthTolerance o)))).
Proof.
  intros Hw Hthr.
  pose proof (reachable_index_ok w Hw) as Hok.
  assert (∀ k grp tol r, searchIndex w !! k = Some grp →
            r ∈ candidates grp (toLowerCase q) tol →
            ∃ rec t, heap w !! r = Some rec ∧ searchable_prop k rec = Some t ∧
              (0 <= similarityScore (levenshteinDistance (toLowerCase q) t)
                      (Nat.max (length (toLowerCase q)) (length t)) <= 1)%Q) as Hscore.
  { intros k grp tol r Hgrp Hr.
    destruct (candidates_entry_ok w grp k _ _ _ Hok Hgrp Hr) as (len & He & _).
    pose proof (entry_ok_nonempty _ _ _ _ He) as Hlen.
    destruct He as (f & rec & t & -> & Hrec & _ & Hgs & <-).
    exists rec, t. rewrite searchable_prop_field. split; [done|]. split; [done|].
    apply similarityScore_range; [apply levenshteinDistance_le_max|lia]. }
  split.
  - intros Hbig.
    destruct (performSearch_cases w q o prev Hw) as [->|(k & grp & Hq & Hk & Hgrp & ->)];
      [done|].
    rewrite Hthr. simpl. f_equal.
    rewrite (bind_ext_elem _ (λ _, [])).
    { by induction (candidates _ _ _). }
    intros r Hr.
    destruct (outcome w k (toLowerCase q) thr prev r) as [|x xs] eqn:E; [done|].
    assert (x ∈ outcome w k (toLowerCase q) thr prev r) as Hx by (rewrite E; left).
    destruct (outcome_elem _ _ _ _ _ _ _ Hx)
      as (_ & rec & hz & t & Hrec & _ & _ & Ht & Hs & Hle & _).
    destruct (Hscore k grp _ r Hgrp Hr) as (rec' & t' & Hrec' & Ht' & Hrange).
    simplify_eq. rewrite <- Hs in Hrange. lra.
  - intros Hsmall k grp Hq Hk Hgrp.
    rewrite (performSearch_main w q o prev k grp) by done.
    eexists. split; [done|]. rewrite sort_perm, Hthr. simpl.
    rewrite items_outcome.
    2: { intros r Hr.
         destruct (candidates_entry_ok w grp k _ _ _ Hok Hgrp Hr) as (len & ? & _).
         eauto. }
    erewrite filter_ext_elem; [done|].
    intros r Hr.
    destruct (Hscore k grp _ r Hgrp Hr) as (rec & t & Hrec & Ht & Hrange).
    assert (accepts w k (toLowerCase q) thr r = has_hanzi w r) as ->; [|done].
    unfold accepts, has_hanzi. rewrite Hrec. simpl. rewrite Ht.
    destruct (hanzi rec) as [[|c hz]|]; try done.
    apply Qle_bool_iff. lra.
Qed.

(** *** The context *)

(** The record and the similarity score of what a visit appends do not
    depend on the context. *)
Lemma outcome_context w k q thr prev1 prev2 r :
  (λ x, (item x, score x)) <$> outcome w k q thr prev1 r =
  (λ x, (item x, score x)) <$> outcome w k q thr prev2 r.
Proof.
  unfold outcome, visit_record.
  destruct (heap w !! r) as [rec|]; simpl; [|done].
  destruct (hanzi rec) as [[|c hz]|]; simpl; [done| |done].
  destruct (searchable_prop k rec) as [t|]; simpl; [|done].
  case_bool_decide; [done|].
  by destruct (Qle_bool thr _).
Qed.

(** The context does not change which records a search returns, nor
    their similarity scores: two searches that differ in the context only
    return the same records with the same scores, up to the order. *)
Theorem context_only_reranks w q o prev1 prev2 :
  reachable w →
  ∃ rs1 rs2,
    performSearch w q o prev1 = Some rs1 ∧ performSearch w q o prev2 = Some rs2 ∧
    (λ x, (item x, score x)) <$> rs1 ≡ₚ (λ x, (item x, score x)) <$> rs2.
Proof.
  intros Hw.
  destruct (decide (q = [])) as [->|Hq].
  { exists [], []. by rewrite !performSearch_early by auto. }
  destruct (key o) as [k|] eqn:Hk.
  2: { exists [], []. by rewrite !performSearch_early by auto. }
  destruct (searchIndex w !! k) as [grp|] eqn:Hgrp.
  2: { exists [], []. rewrite !performSearch_early; [done| |]; right; right; right; eauto. }
  rewrite !(performSearch_main w q o _ k grp) by done.
  eexists _, _. split; [done|]. split; [done|].
  rewrite !sort_perm.
  induction (candidates grp _ _) as [|r l IH]; [done|].
  rewrite !bind_cons, !fmap_app, IH.
  by rewrite (outcome_context _ _ _ _ prev1 prev2).
Qed.

(** *** The key and the tolerance *)

(** In every state of the worker, a search under a key other than
    ['pinyin'] and ['hanzi'], or with a negative length tolerance, returns
    the empty array. *)
Theorem performSearch_no_candidates w q o prev :
  reachable w →
  (∀ f, key o ≠ Some (field_name f)) ∨ (∃ t, lengthTolerance o = Some t ∧ (t < 0)%Z) →
  performSearch w q o prev = Some [].
Proof.
  intros Hw Hcases.
  destruct (decide (q = [])) as [->|Hq]; [apply performSearch_early; auto|].
  destruct (key o) as [k|] eqn:Hk; [|apply performSearch_early; auto].
  destruct (searchIndex w !! k) as [grp|] eqn:Hgrp.
  2: { apply performSearch_early. right; right; right; eauto. }
  destruct Hcases as [Hkey|(t & Ht & Hneg)].
  - destruct (reachable_keys w k Hw) as [f ->]; [by rewrite Hgrp|]. by destruct (Hkey f).
  - rewrite (performSearch_main w q o prev k grp) by done.
    rewrite Ht. simpl. unfold candidates, candidate_lengths.
    by rewrite (seqZ_nil _ (_ + 1)%Z) by lia.
Qed.

Lemma candidate_lengths_split n t1 t2 :
  (t2 ≤ t1)%Z → (0 ≤ n + t2 - Z.max 1 (n - t2) + 1)%Z →
  candidate_lengths n t1 =
  seqZ (Z.max 1 (n - t1)) (Z.max 1 (n - t2) - Z.max 1 (n - t1))
  ++ candidate_lengths n t2 ++ seqZ (n + t2 + 1) (t1 - t2).
Proof.
  intros Ht Hne. unfold candidate_lengths.
  replace (n + t2 + 1)%Z
    with (Z.max 1 (n - t2) + (n + t2 - Z.max 1 (n - t2) + 1))%Z by lia.
  rewrite <- seqZ_app by lia.
  replace (Z.max 1 (n - t2))
    with (Z.max 1 (n - t1) + (Z.max 1 (n - t2) - Z.max 1 (n - t1)))%Z at 2 by lia.
  rewrite <- seqZ_app by lia. f_equal. lia.
Qed.

(** The candidates of the narrower window are those of the wider one whose
    searchable property has a length in the narrower window. *)
Lemma filter_candidates w grp k q t1 t2 :
  index_ok (heap w) (searchIndex w) → searchIndex w !! k = Some grp → (t2 ≤ t1)%Z →
  filter (λ r, within_window w k (Z.of_nat (length q)) t2 r) (candidates grp q t1)
  = candidates grp q t2.
Proof.
  intros Hok Hgrp Ht. set (n := Z.of_nat (length q)).
  assert (∀ lens keep,
    (∀ len, len ∈ lens → (1 ≤ len)%Z ∧ in_window n t2 len = keep) →
    filter (λ r, within_window w k n t2 r) (lens ≫= bucket_at grp)
    = if keep then lens ≫= bucket_at grp else []) as Hpart.
  { intros lens keep Hlens. apply filter_bind_all. intros len r Hlen Hr.
    destruct (Hlens len Hlen) as [Hpos <-].
    unfold bucket_at in Hr. destruct (grp !! Z.to_nat len) as [b|] eqn:Hb;
      [|by apply elem_of_nil in Hr].
    destruct (Hok k grp _ b r Hgrp Hb Hr) as (f & rec & t & -> & Hrec & _ & Hgs & Hlent).
    unfold within_window. rewrite Hrec. simpl. rewrite searchable_prop_field, Hgs.
    replace (Z.of_nat (length t)) with len by lia. by rewrite Is_true_true. }
  unfold candidates. fold n.
  destruct (decide (0 ≤ n + t2 - Z.max 1 (n - t2) + 1)%Z) as [Hne|Hempty].
  - rewrite (candidate_lengths_split n t1 t2) by done.
    rewrite !bind_app, !filter_app.
    rewrite (Hpart _ false), (Hpart _ true), (Hpart _ false); [by rewrite app_nil_r| | |].
    + intros len [? ?]%elem_of_seqZ. split; [lia|].
      unfold in_window. apply bool_decide_eq_false. lia.
    + intros len [? ?]%elem_of_seqZ. split; [lia|].
      unfold in_window. apply bool_decide_eq_true. lia.
    + intros len [? ?]%elem_of_seqZ. split; [lia|].
      unfold in_window. apply bool_decide_eq_false. lia.
  - unfold candidate_lengths at 2. rewrite (seqZ_nil _ (n + t2 - _ + 1)) by lia.
    rewrite (Hpart _ false); [done|].
    intros len [? ?]%elem_of_seqZ. split; [lia|].
    unfold in_window. apply bool_decide_eq_false. lia.
Qed.

Lemma filter_outcomes (P : nat → bool) w k q thr prev l :
  filter (λ x, P (item x)) (l ≫= outcome w k q thr prev)
  = filter (λ r, P r) l ≫= outcome w k q thr prev.
Proof.
  induction l as [|r l IH]; [done|].
  rewrite bind_cons, filter_app, IH, filter_cons.
  assert (filter (λ x, P (item x)) (outcome w k q thr prev r)
          = if P r then outcome w k q thr prev r else []) as ->.
  { assert (∀ x, x ∈ outcome w k q thr prev r → item x = r) as Hitem.
    { intros x Hx. by destruct (outcome_elem _ _ _ _ _ _ _ Hx). }
    induction (outcome w k q thr prev r) as [|x xs IHx]; [by destruct (P r)|].
    rewrite filter_cons, IHx by (intros; apply Hitem; by right).
    rewrite (Hitem x) by left. by destruct (P r). }
  destruct (P r).
  - rewrite decide_True by done. by rewrite bind_cons.
  - rewrite decide_False by (by intros []). done.
Qed.

(** A search with a smaller length tolerance returns the results of the
    search with the larger one whose searchable property has a length in
    the smaller window: widening the tolerance adds results and removes
    none. The order is the same when the bigram scores of the wider search
    are numbers, which they are when neither the hanzi of a record nor the
    context is the name of a member of [Object.prototype]: widening the
    tolerance then reorders no result. *)
Theorem narrowing_tolerance w q o1 o2 prev k :
  reachable w → key o1 = Some k → key o2 = Some k → threshold o1 = threshold o2 →
  let t1 := default 2%Z (lengthTolerance o1) in
  let t2 := default 2%Z (lengthTolerance o2) in
  (t2 ≤ t1)%Z →
  ∃ rs1 rs2,
    performSearch w q o1 prev = Some rs1 ∧ performSearch w q o2 prev = Some rs2 ∧
    let kept :=
      filter (λ x, within_window w k (Z.of_nat (length (toLowerCase q))) t2 (item x)) rs1 in
    rs2 ≡ₚ kept ∧
    (Forall numeric rs1 → rs2 = kept) ∧
    (plain_worker w → plain_context prev → rs2 = kept).
Proof.
  intros Hw Hk1 Hk2 Hthr t1 t2 Ht.
  assert (∃ rs1 rs2,
    performSearch w q o1 prev = Some rs1 ∧ performSearch w q o2 prev = Some rs2 ∧
    let kept :=
      filter (λ x, within_window w k (Z.of_nat (length (toLowerCase q))) t2 (item x)) rs1 in
    rs2 ≡ₚ kept ∧ (Forall numeric rs1 → rs2 = kept)) as (rs1 & rs2 & H1 & H2 & Hperm & Heq).
  { destruct (decide (q = [])) as [->|Hq].
    { exists [], []. by rewrite !performSearch_early by auto. }
    destruct (searchIndex w !! k) as [grp|] eqn:Hgrp.
    2: { exists [], []. rewrite !performSearch_early; [done| |]; right; right; right; eauto. }
    rewrite (performSearch_main w q o1 prev k grp), (performSearch_main w q o2 prev k grp)
      by done.
    eexists _, _. split; [done|]. split; [done|]. cbn zeta.
    rewrite <- (filter_candidates w grp k (toLowerCase q) t1 t2)
      by (done || by apply reachable_index_ok).
    rewrite <- (filter_outcomes (within_window w k _ t2)), Hthr. split.
    - by rewrite !sort_perm.
    - intros Hnum. rewrite sort_perm in Hnum. by rewrite filter_sort. }
  exists rs1, rs2. split; [done|]. split; [done|]. cbn zeta.
  split; [done|]. split; [done|].
  intros Hplain Hprev. apply Heq.
  eapply Forall_impl; [by eapply plain_results|].
  intros x [u Hu]. unfold numeric. rewrite Hu. by eexists.
Qed.

(** *** Digits *)

Lemma strip_digits_spec s : Forall (λ c, is_digit c = false) (strip_digits s).
Proof. apply Forall_forall. by intros c [Hc _]%list_elem_of_filter. Qed.

Lemma searchable_form_digits `{Hlaws : !CaseMappingLaws} f rec t :
  searchable_form f rec = Some t → Forall (λ c, is_digit c = false) t.
Proof.
  unfold searchable_form. destruct (raw_field f rec) as [[|c s]|]; try done.
  destruct (normalize (c :: s)) as [|c' t'] eqn:E; [done|]. intros [= <-].
  rewrite <- E. unfold normalize.
  apply Forall_forall. intros d Hd.
  destruct (is_digit d) eqn:Ed; [|done]. exfalso.
  assert (Exists (λ c, is_digit c = true) (toLowerCase (strip_digits (trim (c :: s)))))
    as Hex by (apply Exists_exists; eauto).
  apply (proj1 (toLowerCase_digit _)), Exists_exists in Hex as (d' & Hd' & Hdig).
  pose proof (strip_digits_spec (trim (c :: s))) as Hall.
  rewrite Forall_forall in Hall. specialize (Hall d' Hd'). congruence.
Qed.

(** The digits are removed from the indexed forms and kept in the query: a
    query that contains a digit (a tone number) is at a distance of at least
    1 from the searchable form of every record returned, which has no digit;
    it matches no record exactly. *)
Theorem digit_query_never_exact `{Hlaws : !CaseMappingLaws} w q o prev :
  reachable w → Exists (λ c, is_digit c = true) q →
  ∃ rs, performSearch w q o prev = Some rs ∧
    ∀ x k, x ∈ rs → key o = Some k →
      ∃ rec t, heap w !! item x = Some rec ∧ searchable_prop k rec = Some t ∧
        Forall (λ c, is_digit c = false) t ∧
        0 < levenshteinDistance (toLowerCase q) t.
Proof.
  intros Hw Hq.
  destruct (performSearch_results w q o prev Hw) as (rs & Hrs & Hall).
  exists rs. split; [done|]. intros x k Hx Hk.
  destruct (Hall x Hx) as (k' & grp & Hk' & Hgrp & Hcand & _).
  assert (k' = k) as -> by congruence.
  destruct (candidates_entry_ok w grp k _ _ _ (reachable_index_ok w Hw) Hgrp Hcand)
    as (len & (f & rec & t & -> & Hrec & Hform & Hgs & _) & _).
  exists rec, t. rewrite searchable_prop_field.
  pose proof (searchable_form_digits f rec t Hform) as Hnd.
  split; [done|]. split; [done|]. split; [done|].
  destruct (levenshteinDistance (toLowerCase q) t) eqn:E; [|lia].
  apply levenshteinDistance_eq_0 in E. subst t.
  apply (proj2 (toLowerCase_digit _)), Exists_exists in Hq as (d & Hd & Hdig).
  rewrite Forall_forall in Hnd. specialize (Hnd d Hd). congruence.
Qed.

(** *** Loads that fail, and the order of the replies *)

Lemma outcome_heap_app w d idx dct k q thr prev r :
  r < length (heap w) →
  outcome (Worker (heap w ++ d) dct (bigramProbabilities w) idx) k q thr prev r
  = outcome w k q thr prev r.
Proof.
  intros Hr. unfold outcome, visit_record. simpl.
  rewrite lookup_app_l by done.
  destruct (heap w !! r) as [rec|]; simpl; [|done].
  destruct (hanzi rec) as [[|c hz]|]; simpl; [done| |done].
  destruct (searchable_prop k rec) as [t|]; simpl; [|done].
  case_bool_decide; [done|].
  by destruct (Qle_bool thr _).
Qed.

(** An [init] whose load fails is answered by one [init_error] with the
    message of the exception, and changes the answer to no search: the
    index and the bigram table stay as they were, also when the dictionary
    had already been replaced. *)
Theorem failed_init_keeps_answers w o message q opts prev :
  reachable w → failed o = Some message →
  let w' := (onmessage w (Init o)).1 in
  init_replies (onmessage w (Init o)).2 = [InitError message] ∧
  searchIndex w' = searchIndex w ∧
  bigramProbabilities w' = bigramProbabilities w ∧
  performSearch w' q opts prev = performSearch w q opts prev.
Proof.
  intros Hw Hfail w'.
  assert (reachable w') as Hw' by (by constructor).
  destruct o as [msg|dict msg|dict bigram]; simpl in Hfail; simplify_eq; [done|].
  split; [done|]. split; [done|]. split; [done|].
  destruct (decide (q = [])) as [->|Hq].
  { by rewrite !performSearch_early by auto. }
  destruct (key opts) as [k|] eqn:Hk; [|by rewrite !performSearch_early by auto].
  destruct (searchIndex w !! k) as [grp|] eqn:Hgrp.
  2: { rewrite !performSearch_early; [done| |]; right; right; right; eauto. }
  rewrite (performSearch_main w q opts prev k grp) by done.
  rewrite (performSearch_main w' q opts prev k grp) by done.
  do 2 f_equal. apply bind_ext_elem. intros r Hr.
  destruct (candidates_entry_ok w grp k _ _ _ (reachable_index_ok w Hw) Hgrp Hr)
    as (len & (f & rec & t & _ & Hrec & _) & _).
  apply (outcome_heap_app w dict). by eapply lookup_lt_Some.
Qed.

(** A [search] message is answered at most once: by one [search_results]
    message under its [searchId] when the structured clone copies the
    bigram score of every result, and by nothing when it refuses one
    ([postMessage] throws and the handler rejects). Over any sequence of
    messages the replies carry [searchId]s of the [search] messages, in the
    order of their arrival, and every [init] message is answered by one
    [init_success] or [init_error]. When no record that is loaded and no
    context has the name of a member of [Object.prototype], every [search]
    message is answered. *)
Theorem replies_in_order w events :
  reachable w →
  let out := (run w events).2 in
  (∀ p id, ∃ rs,
     performSearch w (query p) (search_options p) (previousWordHanzi p) = Some rs ∧
     reply_ids (onmessage w (Search p id)).2
     = if forallb (λ x, serializable (bigramScore x)) rs then [id] else []) ∧
  sublist (reply_ids out) (search_ids events) ∧
  length (init_replies out) = length (filter (λ e, is_init e) events) ∧
  (plain_worker w → Forall plain_event events → reply_ids out = search_ids events).
Proof.
  intros Hw out. split.
  { intros p id. destruct (onmessage_search w p id Hw) as (rs & Hrs & ->).
    exists rs. split; [done|]. by destruct (forallb _ _). }
  subst out. revert w Hw. induction events as [|e events IH]; intros w Hw.
  { split; [done|]. split; [done|]. done. }
  rewrite filter_cons. cbn [run search_ids omap].
  destruct (onmessage w e) as [w1 out1] eqn:E1.
  assert (reachable w1) as Hw1.
  { replace w1 with (onmessage w e).1 by (by rewrite E1). by constructor. }
  assert (∀ He : plain_worker w ∧ plain_event e, plain_worker w1) as Hplain1.
  { intros [? ?]. replace w1 with (onmessage w e).1 by (by rewrite E1).
    by apply onmessage_plain. }
  specialize (IH w1 Hw1). destruct (run w1 events) as [w2 out2].
  cbn [fst snd] in *. destruct IH as (IH1 & IH2 & IH3).
  unfold reply_ids, init_replies in *. rewrite !omap_app, length_app, IH2.
  destruct e as [o|p id|].
  - cbn [onmessage] in E1. destruct (initialize w o) as [[w' log] thrown] eqn:Ei.
    assert (reply_ids log = [] ∧ init_replies log = []) as [Hlog1 Hlog2].
    { destruct o; simpl in Ei; by simplify_eq. }
    unfold reply_ids, init_replies in *.
    assert (omap (λ e, match e with
                       | PostMessage (SearchResults _ id) => Some id
                       | _ => None
                       end) out1 = []) as ->.
    { destruct thrown; simplify_eq; by rewrite !omap_app, Hlog1. }
    split; [done|]. split.
    + destruct thrown; simplify_eq; by rewrite !omap_app, Hlog2.
    + intros Hplain [He Hall]%Forall_cons. apply IH3; auto.
  - destruct (onmessage_search w p id Hw) as (rs & Hrs & E). rewrite E in E1.
    simplify_eq. destruct (forallb _ _) eqn:Hclone; simpl.
    + split; [by apply sublist_skip|]. split; [done|].
      intros Hplain [He Hall]%Forall_cons. f_equal. apply IH3; auto.
    + split; [by apply sublist_cons|]. split; [done|].
      intros Hplain [He Hall]%Forall_cons.
      rewrite (plain_serializable w1 _ _ _ rs Hw Hplain He Hrs) in Hclone. done.
  - cbn [onmessage] in E1. simplify_eq. simpl. split; [done|]. split; [done|].
    intros Hplain [He Hall]%Forall_cons. apply IH3; auto.
Qed.

End Host.

End EngineProperties.

(** ** Facts about the string methods *)

Module StringFacts.

Import Engine Ime.

Lemma forallb_app_false {A} (f : A → bool) l x l' :
  f x = false → forallb f (l ++ x :: l') = false.
Proof.
  intros Hx. rewrite forallb_app. simpl. rewrite Hx. by rewrite andb_false_r.
Qed.

Lemma forallb_last_false {A} (f : A → bool) pre d m :
  last pre = Some d → f d = false → forallb f (pre ++ m) = false.
Proof.
  intros [pre' ->]%last_Some Hd. rewrite <- (assoc_L (++)). by apply forallb_app_false.
Qed.

Lemma last_cons_cons' {A} (x y : A) l : last (x :: y :: l) = last (y :: l).
Proof. done. Qed.

(** The fragment matched is the longest suffix made of characters of the
    class. *)
Lemma match_fragment_Some val m :
  match_fragment val = Some m ↔
  m ≠ [] ∧ forallb in_fragment_class m = true ∧
  ∃ pre, val = pre ++ m ∧ ∀ c, last pre = Some c → in_fragment_class c = false.
Proof.
  split.
  - induction val as [|c val IH]; [done|].
    cbn [match_fragment]. destruct (forallb in_fragment_class (c :: val)) eqn:E.
    + intros [= <-]. split; [done|]. split; [done|]. by exists [].
    + intros Hm. destruct (IH Hm) as (Hne & Hall & pre & -> & Hlast).
      split; [done|]. split; [done|]. exists (c :: pre). split; [done|].
      destruct pre as [|d pre]; [|by rewrite last_cons_cons'].
      intros c' [= <-]. simpl in E. rewrite Hall in E. by rewrite andb_true_r in E.
  - intros (Hne & Hall & pre & -> & Hlast).
    induction pre as [|c pre IH].
    + destruct m as [|c m]; [done|]. cbn [app match_fragment]. by rewrite Hall.
    + assert (forallb in_fragment_class ((c :: pre) ++ m) = false) as E.
      { destruct (last (c :: pre)) as [d|] eqn:Hd; [|by apply last_None in Hd].
        apply (forallb_last_false _ _ d); [done|]. by apply Hlast. }
      cbn [app match_fragment]. cbn [app] in E. rewrite E. apply IH.
      destruct pre as [|d pre]; [done|]. intros c' Hc'. apply Hlast.
      by rewrite last_cons_cons'.
Qed.

Lemma match_fragment_None val :
  match_fragment val = None ↔
  val = [] ∨ ∃ c, last val = Some c ∧ in_fragment_class c = false.
Proof.
  split.
  - induction val as [|c val IH]; [by left|].
    cbn [match_fragment]. destruct (forallb in_fragment_class (c :: val)) eqn:E; [done|].
    intros Hm. right. destruct (IH Hm) as [->|(d & Hd & Hcls)].
    + exists c. split; [done|]. simpl in E. by rewrite andb_true_r in E.
    + exists d. split; [|done]. destruct val; [done|]. by rewrite last_cons_cons'.
  - intros [->|(d & Hd & Hcls)]; [done|].
    destruct (match_fragment val) as [m|] eqn:E; [|done].
    apply match_fragment_Some in E as (Hne & Hall & pre & -> & _).
    destruct (last m) as [e|] eqn:He; [|by apply last_None in He].
    apply last_Some in He as [m' ->].
    rewrite (assoc_L (++)), last_snoc in Hd. injection Hd as <-.
    rewrite forallb_app in Hall. simpl in Hall. rewrite Hcls in Hall.
    by rewrite andb_false_r in Hall.
Qed.

(** [s.slice(0, -k)] *)
Lemma slice_drop_last {A} (s : list A) k :
  slice s 0 (Some (- Z.of_nat k)%Z) = if bool_decide (k = 0) then [] else take (length s - k) s.
Proof.
  unfold slice, relative_index. change (0 <? 0)%Z with false. cbn iota.
  rewrite (Z.min_l 0) by lia. change (Z.to_nat 0) with 0. rewrite drop_0, Z.sub_0_r.
  case_bool_decide as Hk.
  - subst. destruct (Z.ltb_spec (- Z.of_nat 0) 0); [lia|].
    by rewrite Z.min_l by lia.
  - destruct (Z.ltb_spec (- Z.of_nat k) 0); [|lia]. f_equal. lia.
Qed.

(** [s.slice(-1)] *)
Lemma slice_last {A} (s : list A) :
  slice s (-1) None = match last s with Some c => [c] | None => [] end.
Proof.
  unfold slice, relative_index. change (-1 <? 0)%Z with true. cbn iota.
  destruct s as [|c s _] using rev_ind; [done|].
  rewrite last_snoc, length_app. simpl.
  replace (Z.to_nat (Z.max (Z.of_nat (length s + 1) + -1) 0)) with (length s) by lia.
  rewrite drop_app_length.
  by replace (Z.to_nat _) with 1 by lia.
Qed.

(** [l.slice(0, n)], for [n] at least 0 *)
Lemma slice_take {A} (l : list A) n :
  (0 ≤ n)%Z → slice l 0 (Some n) = take (Z.to_nat n) l.
Proof.
  intros Hn. unfold slice, relative_index. change (0 <? 0)%Z with false. cbn iota.
  rewrite (Z.min_l 0) by lia. change (Z.to_nat 0) with 0. rewrite drop_0, Z.sub_0_r.
  destruct (Z.ltb_spec n 0); [lia|].
  destruct (decide (n ≤ Z.of_nat (length l))%Z).
  - by rewrite Z.min_l by lia.
  - rewrite Z.min_r by lia. rewrite Nat2Z.id.
    by rewrite !take_ge by lia.
Qed.

Lemma endsWith_true s q : endsWith s q = true ↔ ∃ pre, s = pre ++ q.
Proof.
  unfold endsWith. destruct (Nat.ltb_spec (length s) (length q)) as [Hlt|Hle].
  - split; [done|]. intros [pre ->]. rewrite length_app in Hlt. lia.
  - rewrite bool_decide_eq_true. split.
    + intros <-. exists (take (length s - length q) s). by rewrite take_drop.
    + intros [pre ->]. rewrite length_app.
      replace (length pre + length q - length q) with (length pre) by lia.
      by rewrite drop_app_length.
Qed.

(** The code points, put together again, are the string. *)
Lemma code_points_concat s : mjoin (code_points s) = s.
Proof.
  assert (∀ n s, length s ≤ n → mjoin (code_points s) = s) as H.
  { clear s. induction n as [|n IH]; intros [|c [|d s]] Hlen; try done; simpl in Hlen;
      [lia|].
    cbn [code_points].
    destruct (is_leading_surrogate c && is_trailing_surrogate d).
    - cbn [mjoin list_join app]. do 2 f_equal. apply IH. lia.
    - cbn [mjoin list_join app]. f_equal. apply (IH (d :: s)). simpl. lia. }
  by apply (H (length s)).
Qed.

(** Every element is one code unit, or a surrogate pair. *)
Lemma code_points_elem s p :
  p ∈ code_points s →
  (∃ c, p = [c]) ∨
  (∃ c d, p = [c; d] ∧ is_leading_surrogate c = true ∧ is_trailing_surrogate d = true).
Proof.
  assert (∀ n s, length s ≤ n → p ∈ code_points s →
    (∃ c, p = [c]) ∨
    (∃ c d, p = [c; d] ∧ is_leading_surrogate c = true ∧ is_trailing_surrogate d = true))
    as H.
  { clear s. induction n as [|n IH]; intros [|c [|d s]] Hlen; simpl in Hlen;
      try lia; try (by intros ?%elem_of_nil).
    - intros ->%list_elem_of_singleton. eauto.
    - cbn [code_points].
      destruct (is_leading_surrogate c && is_trailing_surrogate d) eqn:E.
      + apply andb_true_iff in E as [? ?].
        intros [->|Hp]%elem_of_cons; [right; eauto|]. apply (IH s); [lia|done].
      + intros [->|Hp]%elem_of_cons; [eauto|]. apply (IH (d :: s)); [simpl; lia|done]. }
  by apply (H (length s)).
Qed.

Lemma code_points_nil s : code_points s = [] ↔ s = [].
Proof.
  split; [|by intros ->].
  destruct s as [|c [|d s]]; [done|done|]. cbn [code_points]. by destruct (_ && _).
Qed.

(** The tokens of the class of a button. *)
Lemma tokens_button cls :
  tokens [] (js "suggestion-btn " ++ cls) = js "suggestion-btn" :: tokens [] cls.
Proof. reflexivity. Qed.

Lemma button_matches cls x : matches_suggestion_btn (button cls x) = true.
Proof.
  unfold button, matches_suggestion_btn. rewrite tokens_button.
  apply bool_decide_eq_true. left.
Qed.

Lemma slice_elem {A} (l : list A) a b x : x ∈ slice l a b → x ∈ l.
Proof.
  unfold slice. intros Hx.
  apply list_elem_of_lookup in Hx as [i Hi].
  apply lookup_take_Some in Hi as [Hi _]. rewrite lookup_drop in Hi.
  by eapply list_elem_of_lookup_2.
Qed.

End StringFacts.

(** ** Facts about the handlers of the page *)

Module ImeFacts.

Import Engine Client Ime Spec ImeSpec StringFacts ClientFacts.

Lemma in_fragment_class_ascii c : in_fragment_class c = true → (c < 128)%N.
Proof.
  unfold in_fragment_class, is_word_char.
  rewrite !orb_true_iff, !andb_true_iff, !N.leb_le, !N.eqb_eq. lia.
Qed.

Lemma in_fragment_class_lower c :
  in_fragment_class c = true →
  in_fragment_class (ascii_toLowerCase c) = true ∧ is_upper (ascii_toLowerCase c) = false.
Proof.
  unfold in_fragment_class, is_word_char, ascii_toLowerCase, is_upper.
  destruct (N.leb_spec 65 c), (N.leb_spec c 90); cbn [andb];
    rewrite ?orb_true_iff, ?andb_true_iff, ?andb_false_iff, ?N.leb_le, ?N.leb_gt,
      ?N.eqb_eq; lia.
Qed.

Lemma ascii_toLowerCase_fixed c : is_upper c = false → ascii_toLowerCase c = c.
Proof. unfold is_upper, ascii_toLowerCase. by intros ->. Qed.

Lemma ascii_toLowerCase_upper c : is_upper c = true → ascii_toLowerCase c ≠ c.
Proof. unfold is_upper, ascii_toLowerCase. intros ->. lia. Qed.

Lemma omap_none {A B} (f : A → option B) (l : list A) :
  (∀ a, a ∈ l → f a = None) → omap f l = [].
Proof.
  induction l as [|a l IH]; intros Hf; [done|].
  simpl. rewrite (Hf a) by left. apply IH. intros b Hb. apply Hf. by right.
Qed.

Lemma filter_all {A} (P : A → Prop) `{!∀ x, Decision (P x)} (l : list A) :
  (∀ a, a ∈ l → P a) → filter P l = l.
Proof.
  induction l as [|a l IH]; intros HP; [done|].
  rewrite filter_cons, decide_True by (apply HP; left).
  f_equal. apply IH. intros b Hb. apply HP. by right.
Qed.

Lemma filter_none {A} (P : A → Prop) `{!∀ x, Decision (P x)} (l : list A) :
  (∀ a, a ∈ l → ¬ P a) → filter P l = [].
Proof.
  induction l as [|a l IH]; intros HP; [done|].
  rewrite filter_cons, decide_False by (apply HP; left).
  apply IH. intros b Hb. apply HP. by right.
Qed.

Section Host.
Context `{Hcase : CaseMapping} `{Hround : Rounding} `{Hproto : Prototype}.

(** *** The buttons *)

Lemma display_buttons l : ∀ s,
  foldl (λ s' x, set_children (children s' ++ [button (suggestionBtnClass s') x]) s') s l
  = set_children (children s ++ (button (suggestionBtnClass s) <$> l)) s.
Proof.
  induction l as [|x l IH]; intros s; simpl.
  - destruct s. unfold set_children. simpl. by rewrite app_nil_r.
  - rewrite IH. destruct s. unfold set_children. simpl. by rewrite <- (assoc_L (++)).
Qed.

Lemma _displaySuggestions_unfold results s :
  _displaySuggestions results s =
  let shown := slice results 0 (Some (suggestionLimit s)) in
  set_children
    (match shown with
     | [] => [Markup "<i>No suggestions.</i>"]
     | _ => button (suggestionBtnClass s) <$> shown
     end)
    (set_currentSuggestions shown s).
Proof.
  unfold _displaySuggestions. cbn zeta. simpl.
  destruct (slice results 0 (Some (suggestionLimit s))) as [|x shown] eqn:E.
  - by destruct s.
  - rewrite display_buttons. by destruct s.
Qed.

(** The lower case of a fragment. *)
Lemma toLowerCase_fragment `{Hlaws : !CaseMappingLaws} m0 :
  forallb in_fragment_class m0 = true →
  toLowerCase m0 = ascii_toLowerCase <$> m0.
Proof.
  intros Hall. apply toLowerCase_ascii.
  apply Forall_forall. intros c Hc. apply in_fragment_class_ascii.
  rewrite forallb_forall in Hall. apply Hall. by apply list_elem_of_In.
Qed.

Lemma fragment_lower_fixed m0 :
  Forall (λ c, is_upper c = false) m0 → ascii_toLowerCase <$> m0 = m0.
Proof.
  induction 1 as [|c m0 Hc _ IH]; [done|].
  by rewrite fmap_cons, ascii_toLowerCase_fixed, IH.
Qed.

Lemma fragment_lower_changed m0 :
  Exists (λ c, is_upper c = true) m0 → ascii_toLowerCase <$> m0 ≠ m0.
Proof.
  induction 1 as [c m0 Hc|c m0 _ IH]; rewrite fmap_cons; intros [= E1 E2].
  - by apply ascii_toLowerCase_upper in Hc.
  - by apply IH.
Qed.

(** [_handleInput] on a value in which a fragment matches. *)
Lemma _handleInput_match val m0 st :
  match_fragment val = Some m0 →
  let q := toLowerCase m0 in
  let pre := slice val 0 (Some (- Z.of_nat (length q)))%Z in
  let ctx := match pre with
             | [] => at_last (conversationHistory (state st))
             | _ => Some (slice pre (-1) None)
             end in
  let opts := Options (Some (js "pinyin")) (Some (round (2 # 10))) None in
  _handleInput val st =
  Instance (search (base st) (Payload q opts ctx)).1 (listeners st) (bound st) (created st)
           (awaiting st ++ [(length (promises (base st)), q)])
           (inputEl st) (suggestionsEl st) (set_currentPinyinQuery q (state st)).
Proof.
  intros Hm. unfold _handleInput. rewrite Hm. by destruct st as [? ? ? ? ? ? ? []].
Qed.

(** *** Submission *)

Lemma _handleFormSubmit_commits s text :
  text = (let txt := trim (value s) in
          match currentPinyinQuery s, currentSuggestions s with
          | _ :: _, x :: _ =>
              slice txt 0 (Some (- Z.of_nat (length (currentPinyinQuery s)))%Z)
              ++ to_string (hanzi (record_of x))
          | _, _ => txt
          end) →
  commits s (_handleFormSubmit s) text.
Proof.
  intros ->. unfold _handleFormSubmit, commits. cbn zeta.
  assert (value (add_call PreventDefault s) = value s) as -> by (by destruct s).
  assert (currentPinyinQuery (add_call PreventDefault s) = currentPinyinQuery s) as ->
    by (by destruct s).
  assert (currentSuggestions (add_call PreventDefault s) = currentSuggestions s) as ->
    by (by destruct s).
  destruct (match currentPinyinQuery s with
            | [] => trim (value s)
            | _ :: _ => _
            end) as [|c text]; [done|].
  destruct s. unfold cleared. simpl. by rewrite <- (assoc_L (++)).
Qed.

End Host.

End ImeFacts.

(** ** The invariant of an instance *)

Module InstanceFacts.

Import Engine Client Ime Spec ImeSpec StringFacts ClientFacts ImeFacts.

Section Host.
Context `{Hcase : CaseMapping} `{Hround : Rounding} `{Hproto : Prototype}.

Lemma set_state_id st : set_state (state st) st = st.
Proof. by destruct st. Qed.

Lemma set_base_id st : set_base (base st) st = st.
Proof. by destruct st. Qed.

(** *** Continuations *)

Lemma resume_fold objs ready : ∀ st,
  let st' := foldl (λ st' a, set_state
                     (_handleInput_resume a.1 (received objs a.2) (state st')) st')
                   st ready in
  base st' = base st ∧ listeners st' = listeners st ∧ bound st' = bound st ∧
  created st' = created st ∧ awaiting st' = awaiting st ∧
  inputEl st' = inputEl st ∧ suggestionsEl st' = suggestionsEl st.
Proof.
  induction ready as [|a ready IH]; intros st; [done|].
  cbn [foldl].
  destruct (IH (set_state (_handleInput_resume a.1 (received objs a.2) (state st)) st))
    as (-> & -> & -> & -> & -> & -> & ->).
  by destruct st.
Qed.

Lemma run_continuations_fields objs st :
  let st' := run_continuations objs st in
  base st' = base st ∧ listeners st' = listeners st ∧ bound st' = bound st ∧
  created st' = created st ∧
  awaiting st' = filter (λ a, resolved_with (promises (base st)) a.1 = None) (awaiting st) ∧
  inputEl st' = inputEl st ∧ suggestionsEl st' = suggestionsEl st.
Proof.
  unfold run_continuations. cbn zeta.
  destruct (resume_fold objs
    (omap (λ a, results ← resolved_with (promises (base st)) a.1; Some (a.2, results))
          (awaiting st))
    (set_awaiting (filter (λ a, resolved_with (promises (base st)) a.1 = None)
                          (awaiting st)) st))
    as (-> & -> & -> & -> & -> & -> & ->).
  done.
Qed.

(** Nothing continues when every promise awaited is pending. *)
Lemma run_continuations_idle objs st :
  (∀ a, a ∈ awaiting st → promises (base st) !! a.1 = Some Pending) →
  run_continuations objs st = st.
Proof.
  intros Hpend. unfold run_continuations. cbn zeta.
  assert (∀ a, a ∈ awaiting st → resolved_with (promises (base st)) a.1 = None) as Hnone.
  { intros a Ha. unfold resolved_with. by rewrite (Hpend a Ha). }
  rewrite omap_none by (intros a Ha; by rewrite (Hnone a Ha)).
  rewrite filter_all by done.
  by destruct st.
Qed.

(** *** Listeners *)

(** Removing a method that was not bound removes nothing. *)
Lemma removeEventListener_unbound t m st :
  (∀ l, l ∈ listeners st → ∃ m' n, l = Listener (handles m') (Bound m' n) ∧ n < bound st) →
  removeEventListener t (Unbound m) st = st.
Proof.
  intros Hl. unfold removeEventListener.
  rewrite filter_all; [by destruct st|].
  intros l Hin. destruct (Hl l Hin) as (m' & n & -> & _). done.
Qed.

(** A function that [bind] has just made is registered at the end. *)
Lemma addEventListener_fresh t m st :
  (∀ l, l ∈ listeners st → ∃ m' n, l = Listener (handles m') (Bound m' n) ∧ n < bound st) →
  let '(st1, f) := bind_method m st in
  addEventListener t f st1 =
  Instance (base st) (listeners st ++ [Listener t (Bound m (bound st))]) (S (bound st))
           (created st) (awaiting st) (inputEl st) (suggestionsEl st) (state st).
Proof.
  intros Hl. unfold bind_method, addEventListener. simpl.
  rewrite bool_decide_false; [done|].
  intros Hin. destruct (Hl _ Hin) as (m' & n & [= _ _ ->] & Hlt). lia.
Qed.

Lemma _handleInitMessage_success st :
  (∀ l, l ∈ listeners st → ∃ m' n, l = Listener (handles m') (Bound m' n) ∧ n < bound st) →
  _handleInitMessage InitSuccess st =
  Instance (base st) (listeners st ++ [Listener TheWorker (Bound HandleSearchResult (bound st))])
           (S (bound st))
           (match created st with Creating => Created | c => c end)
           (awaiting st) (inputEl st) (suggestionsEl st) (state st).
Proof.
  intros Hl. unfold _handleInitMessage.
  rewrite removeEventListener_unbound by done.
  pose proof (addEventListener_fresh TheWorker HandleSearchResult st Hl) as Hadd.
  destruct (bind_method HandleSearchResult st) as [st2 f]. rewrite Hadd.
  unfold settle. simpl. by destruct (created st).
Qed.

Lemma _handleInitMessage_error error st :
  _handleInitMessage (InitError error) st =
  set_created (match created st with Creating => Rejected error | c => c end) st.
Proof. unfold _handleInitMessage, settle. by destruct st as [? ? ? [] ? ? ? ?]. Qed.

(** *** The invariant *)

Lemma handle_pending st m p :
  api_ok st → promises st !! p = Some Pending →
  promises (_handleSearchResult st m) !! p = Some Pending ∨
  ∃ results, promises (_handleSearchResult st m) !! p = Some (Resolved results).
Proof.
  intros (Hpend & _) Hp. destruct m as [| |results id]; [by left|by left|].
  destruct (pendingSearches st !! id) as [cb|] eqn:Hid;
    [|rewrite handle_unknown by done; by left].
  rewrite (handle_known _ _ _ _ Hid). simpl.
  destruct (Hpend id cb Hid) as [_ Hcb]. rewrite resolve_pending by done.
  destruct (decide (cb = p)) as [->|Hne].
  - right. exists results. apply list_lookup_insert_eq. by eapply lookup_lt_Some.
  - left. by rewrite list_lookup_insert_ne.
Qed.

Lemma run_continuations_ok objs st :
  api_ok (base st) →
  (∀ l, l ∈ listeners st → ∃ m n, l = Listener (handles m) (Bound m n) ∧ n < bound st) →
  (∀ a, a ∈ awaiting st →
     promises (base st) !! a.1 = Some Pending ∨
     ∃ results, promises (base st) !! a.1 = Some (Resolved results)) →
  (∃ rest, listeners st = init_listener :: rest ∧
           ∀ l n, l ∈ rest → calls_back l ≠ Bound HandleInitMessage n) →
  (created st = Created → ∃ l, l ∈ listeners st ∧ is_search_listener l = true) →
  ((∃ l, l ∈ listeners st ∧ listens_on l ≠ TheWorker) →
   inputEl st = true ∧ suggestionsEl st = true) →
  instance_ok (run_continuations objs st).
Proof.
  intros Hapi Hl Haw Hhead Hcr Hel.
  destruct (run_continuations_fields objs st) as (Eb & El & Ebd & Ec & Ea & Ei & Es).
  unfold instance_ok. rewrite Eb, El, Ebd, Ec, Ea, Ei, Es.
  split; [done|]. split; [done|]. split; [|done].
  intros a [Hnone Ha]%list_elem_of_filter.
  destruct (Haw a Ha) as [?|[results Hr]]; [done|].
  unfold resolved_with in Hnone. by rewrite Hr in Hnone.
Qed.

Lemma _handleInput_ok val st :
  instance_ok st →
  instance_ok (_handleInput val st) ∧ listeners (_handleInput val st) = listeners st ∧
  created (_handleInput val st) = created st.
Proof.
  intros (Hapi & Hl & Haw & Hhead & Hcr & Hel).
  destruct (match_fragment val) as [m0|] eqn:Hm.
  - rewrite (_handleInput_match val m0 st Hm). cbn zeta.
    split; [|done]. unfold instance_ok. cbn -[search].
    split; [by apply search_ok|].
    split; [done|]. split; [|done].
    intros a [Ha | ->%list_elem_of_singleton]%elem_of_app; rewrite search_unfold; simpl.
    + rewrite lookup_app_l; [by apply Haw|]. eapply lookup_lt_Some. by apply Haw.
    + by rewrite lookup_app_r, Nat.sub_diag.
  - unfold _handleInput. rewrite Hm. by destruct st.
Qed.

(** A call of a listener keeps the invariant, and the listeners
    registered. *)
Lemma call_ok e st l :
  instance_ok st → l ∈ listeners st → listens_on l = event_target e →
  let st' := microtasks e (call_listener (calls_back l) e st) in
  instance_ok st' ∧ listeners st `prefix_of` listeners st'.
Proof.
  intros (Hapi & Hl & Haw & Hhead & Hcr & Hel) Hin Htarget.
  destruct (Hl l Hin) as (m & n & -> & Hn). simpl in Htarget. simpl.
  destruct e as [msg objs|val|matches h|]; destruct m; try done; simpl.
  - (* _handleInitMessage *)
    destruct (run_continuations_fields objs (_handleInitMessage msg st))
      as (_ & El & _).
    rewrite El. destruct msg as [|error|results id].
    + rewrite _handleInitMessage_success by done. split.
      * apply run_continuations_ok; simpl; try done.
        -- intros l' [Hl' | ->%list_elem_of_singleton]%elem_of_app.
           ++ destruct (Hl l' Hl') as (m' & n' & -> & ?). exists m', n'. split; [done|lia].
           ++ exists HandleSearchResult, (bound st). split; [done|lia].
        -- intros a Ha. left. by apply Haw.
        -- destruct Hhead as (rest & -> & Hrest). exists (rest ++ [Listener TheWorker (Bound HandleSearchResult (bound st))]).
           split; [done|].
           intros l' n' [Hl' | ->%list_elem_of_singleton]%elem_of_app; [by apply Hrest|done].
        -- intros _. exists (Listener TheWorker (Bound HandleSearchResult (bound st))).
           split; [|done]. apply elem_of_app. right. left.
        -- intros (l' & [Hl' | ->%list_elem_of_singleton]%elem_of_app & Hne); [|done].
           apply Hel. eauto.
      * simpl. by apply prefix_app_r.
    + rewrite _handleInitMessage_error. split; [|by destruct st].
      apply run_continuations_ok; destruct st as [? ? ? c ? ? ? ?]; simpl in *; try done.
      * intros a Ha. left. by apply Haw.
      * intros Hc. apply Hcr. by destruct c.
    + simpl. split; [|done]. apply run_continuations_ok; try done.
      intros a Ha. left. by apply Haw.
  - (* _handleSearchResult *)
    destruct (run_continuations_fields objs (set_base (_handleSearchResult (base st) msg) st))
      as (_ & El & _).
    rewrite El. split; [|by destruct st].
    apply run_continuations_ok; destruct st as [b ? ? ? ? ? ? ?]; simpl in *; try done.
    + by apply handle_ok.
    + intros a Ha. apply handle_pending; [done|]. by apply Haw.
  - (* _handleInput *)
    destruct (_handleInput_ok val st) as (Hok' & -> & _); done.
Qed.

Lemma dispatch_unfold e st :
  dispatch e st
  = foldl (call_if e) st (filter (λ l, listens_on l = event_target e) (listeners st)).
Proof. done. Qed.

Lemma call_if_ok e st l :
  instance_ok st → listens_on l = event_target e →
  instance_ok (call_if e st l) ∧ listeners st `prefix_of` listeners (call_if e st l).
Proof.
  intros Hok Ht. unfold call_if. case_bool_decide; [|done].
  by apply call_ok.
Qed.

Lemma foldl_call_ok e ls : ∀ st,
  instance_ok st → (∀ l, l ∈ ls → listens_on l = event_target e) →
  instance_ok (foldl (call_if e) st ls) ∧
  listeners st `prefix_of` listeners (foldl (call_if e) st ls).
Proof.
  induction ls as [|l ls IH]; intros st Hok Hls; [done|].
  cbn [foldl].
  destruct (call_if_ok e st l Hok) as [Hok' Hpre]; [apply Hls; left|].
  destruct (IH _ Hok') as [Hok'' Hpre']; [intros; apply Hls; by right|].
  split; [done|]. by etrans.
Qed.

Lemma dispatch_ok e st :
  instance_ok st →
  instance_ok (dispatch e st) ∧ listeners st `prefix_of` listeners (dispatch e st).
Proof.
  intros Hok. rewrite dispatch_unfold. apply foldl_call_ok; [done|].
  by intros l [? _]%list_elem_of_filter.
Qed.

Lemma set_value_ok v st : instance_ok st → instance_ok (set_state (set_value v (state st)) st).
Proof. by destruct st. Qed.

Lemma step_ok st e : instance_ok st → instance_ok (step st e).
Proof.
  intros Hok. destruct e; simpl; apply dispatch_ok; [done| |done|done].
  by apply set_value_ok.
Qed.

Lemma create_ok value0 children0 : instance_ok (create value0 children0).
Proof.
  unfold instance_ok. simpl.
  split.
  { split; [|split]; simpl.
    - intros id p Hp. by rewrite lookup_empty in Hp.
    - intros id1 id2 p Hp. by rewrite lookup_empty in Hp.
    - intros p id [=]%list_elem_of_singleton. }
  split.
  { intros l ->%list_elem_of_singleton. exists HandleInitMessage, 0. split; [done|lia]. }
  split; [by intros a ?%elem_of_nil|].
  split.
  { exists []. split; [done|]. by intros l n ?%elem_of_nil. }
  split; [done|].
  intros (l & ->%list_elem_of_singleton & Hne). done.
Qed.

Lemma search_call_ok st p : instance_ok st → instance_ok (set_base (search (base st) p).1 st).
Proof.
  intros (Hapi & Hl & Haw & Hrest). unfold instance_ok.
  destruct st as [b ls bd c aw ie se s]. cbn -[search] in *.
  split; [by apply search_ok|]. split; [done|]. split; [|done].
  intros a Ha. rewrite search_unfold. simpl.
  rewrite lookup_app_l; [by apply Haw|]. eapply lookup_lt_Some. by apply Haw.
Qed.

Lemma attach_unfold o st :
  (∀ l, l ∈ listeners st → ∃ m n, l = Listener (handles m) (Bound m n) ∧ n < bound st) →
  attach o st =
  if negb (with_inputEl o) || negb (with_suggestionsEl o) then None
  else Some (Instance (base st) (listeners st ++ attach_listeners o (bound st))
                      (bound st + length (attach_listeners o (bound st)))
                      (created st) (awaiting st) true true
                      (attach_fields o (state st))).
Proof.
  intros Hl. unfold attach.
  destruct (negb (with_inputEl o) || negb (with_suggestionsEl o)); [done|].
  cbn zeta. fold (attach_fields o (state st)).
  set (st0 := set_state (attach_fields o (state st)) (set_elements true true st)).
  assert (∀ l, l ∈ listeners st0 →
            ∃ m n, l = Listener (handles m) (Bound m n) ∧ n < bound st0) as Hl0
    by (by destruct st).
  pose proof (addEventListener_fresh InputEl HandleInput st0 Hl0) as H1.
  destruct (bind_method HandleInput st0) as [st1 f1]. rewrite H1. clear H1.
  set (st2 := Instance _ _ _ _ _ _ _ _).
  assert (∀ l, l ∈ listeners st2 →
            ∃ m n, l = Listener (handles m) (Bound m n) ∧ n < bound st2) as Hl2.
  { intros l [Hin | ->%list_elem_of_singleton]%elem_of_app.
    - destruct (Hl0 l Hin) as (m & n & -> & ?). exists m, n. split; [done|].
      unfold st2, st0 in *. simpl in *. lia.
    - exists HandleInput, (bound st0). split; [done|]. unfold st2, st0. simpl. lia. }
  pose proof (addEventListener_fresh SuggestionsEl HandleSuggestionClick st2 Hl2) as H2.
  destruct (bind_method HandleSuggestionClick st2) as [st3 f2]. rewrite H2. clear H2.
  set (st4 := Instance _ _ _ _ _ _ _ _).
  assert (∀ l, l ∈ listeners st4 →
            ∃ m n, l = Listener (handles m) (Bound m n) ∧ n < bound st4) as Hl4.
  { intros l [Hin | ->%list_elem_of_singleton]%elem_of_app.
    - destruct (Hl2 l Hin) as (m & n & -> & ?). exists m, n. split; [done|].
      unfold st4, st2, st0 in *. simpl in *. lia.
    - exists HandleSuggestionClick, (bound st2). split; [done|].
      unfold st4, st2, st0. simpl. lia. }
  unfold attach_listeners. destruct (with_form o).
  - pose proof (addEventListener_fresh TheForm HandleFormSubmit st4 Hl4) as H3.
    destruct (bind_method HandleFormSubmit st4) as [st5 f3]. rewrite H3. clear H3.
    unfold st4, st2, st0. destruct st. simpl. rewrite <- !(assoc_L (++)). simpl.
    do 2 f_equal. lia.
  - unfold st4, st2, st0. destruct st. simpl. rewrite <- !(assoc_L (++)). simpl.
    do 2 f_equal. lia.
Qed.

Lemma attach_ok o st st' : instance_ok st → attach o st = Some st' → instance_ok st'.
Proof.
  intros (Hapi & Hl & Haw & (rest & Hls & Hrest) & Hcr & Hel).
  rewrite attach_unfold by done.
  destruct (negb (with_inputEl o) || negb (with_suggestionsEl o)); [done|].
  intros [= <-]. unfold instance_ok. cbn [base listeners bound created awaiting inputEl
    suggestionsEl].
  split; [done|]. split.
  { intros l [Hin|Hin]%elem_of_app.
    - destruct (Hl l Hin) as (m & n & -> & ?). exists m, n. split; [done|]. lia.
    - unfold attach_listeners in *. simpl in Hin.
      apply elem_of_cons in Hin as [->|Hin].
      { exists HandleInput, (bound st). split; [done|]. simpl. lia. }
      apply elem_of_cons in Hin as [->|Hin].
      { exists HandleSuggestionClick, (S (bound st)). split; [done|]. simpl. lia. }
      destruct (with_form o); [|by apply elem_of_nil in Hin].
      apply list_elem_of_singleton in Hin as ->.
      exists HandleFormSubmit, (S (S (bound st))). split; [done|]. simpl. lia. }
  split; [done|]. split.
  { exists (rest ++ attach_listeners o (bound st)). split; [by rewrite Hls|].
    intros l n [Hin|Hin]%elem_of_app; [by apply Hrest|].
    unfold attach_listeners in Hin. simpl in Hin.
    apply elem_of_cons in Hin as [->|Hin]; [done|].
    apply elem_of_cons in Hin as [->|Hin]; [done|].
    destruct (with_form o); [|by apply elem_of_nil in Hin].
    by apply list_elem_of_singleton in Hin as ->. }
  split; [|done].
  intros Hc. destruct (Hcr Hc) as (l & Hin & Hs). exists l. split; [|done].
  apply elem_of_app. by left.
Qed.

Lemma reachable_instance_ok value0 children0 st : reachable value0 children0 st → instance_ok st.
Proof.
  induction 1 as [|st e _ IH|st o st' _ IH Hc Ha|st p _ IH Hc].
  - apply create_ok.
  - by apply step_ok.
  - by eapply attach_ok.
  - by apply search_call_ok.
Qed.

End Host.

End InstanceFacts.

(** ** The dispatch of a message *)

Module DispatchFacts.

Import Engine Client Ime Spec ImeSpec StringFacts ClientFacts ImeFacts InstanceFacts.
Import SearchFacts ResultFacts.

Section Host.
Context `{Hcase : CaseMapping} `{Hround : Rounding} `{Hproto : Prototype}.

(** The listeners of the worker: the one of the constructor, then those
    for the results. *)
Lemma worker_listeners st :
  instance_ok st →
  ∃ ls, filter (λ l, listens_on l = TheWorker) (listeners st) = init_listener :: ls ∧
        (∀ l, l ∈ ls → l ∈ listeners st ∧ ∃ n, l = Listener TheWorker (Bound HandleSearchResult n)) ∧
        (∀ l, l ∈ listeners st → is_search_listener l = true → l ∈ ls).
Proof.
  intros (_ & Hl & _ & (rest & Hls & Hrest) & _).
  exists (filter (λ l, listens_on l = TheWorker) rest).
  rewrite Hls, filter_cons, decide_True by done.
  split; [done|]. split.
  - intros l [Ht Hin]%list_elem_of_filter.
    assert (l ∈ listeners st) as Hin' by (rewrite Hls; by right).
    split; [by right|].
    destruct (Hl l Hin') as (m & n & -> & _). exists n.
    destruct m; try done. by destruct (Hrest _ n Hin).
  - intros l Hin Hs. apply elem_of_cons in Hin as [->|Hin]; [done|].
    apply list_elem_of_filter. split; [|done].
    assert (l ∈ listeners st) as Hin' by (rewrite Hls; by right).
    destruct (Hl l Hin') as (m & n & -> & _). by destruct m.
Qed.

(** A listener for the results does nothing on a message that its
    handler leaves the correlation state with. *)
Lemma foldl_search_quiet msg objs ls : ∀ st,
  (∀ a, a ∈ awaiting st → promises (base st) !! a.1 = Some Pending) →
  _handleSearchResult (base st) msg = base st →
  (∀ l, l ∈ ls → ∃ n, l = Listener TheWorker (Bound HandleSearchResult n)) →
  foldl (call_if (Message msg objs)) st ls = st.
Proof.
  induction ls as [|l ls IH]; intros st Haw Hb Hls; [done|].
  cbn [foldl].
  assert (call_if (Message msg objs) st l = st) as ->.
  { unfold call_if. case_bool_decide; [|done].
    destruct (Hls l) as [n ->]; [left|]. simpl.
    rewrite Hb, set_base_id. by apply run_continuations_idle. }
  apply IH; [done|done|]. intros l' Hl'. apply Hls. by right.
Qed.

Lemma dispatch_init msg objs st :
  instance_ok st → (∀ results id, msg ≠ SearchResults results id) →
  dispatch (Message msg objs) st = _handleInitMessage msg st.
Proof.
  intros Hok Hmsg.
  destruct (worker_listeners st Hok) as (ls & Hf & Hls & _).
  rewrite dispatch_unfold. simpl. rewrite Hf. cbn [foldl].
  destruct (call_ok (Message msg objs) st init_listener Hok) as [Hok' _]; [|done|].
  { destruct Hok as (_ & _ & _ & (rest & -> & _) & _). left. }
  assert (call_if (Message msg objs) st init_listener = _handleInitMessage msg st) as E.
  { unfold call_if. rewrite bool_decide_true.
    2: { destruct Hok as (_ & _ & _ & (rest & -> & _) & _). left. }
    simpl. apply run_continuations_idle.
    destruct Hok as (_ & Hl & Haw & _).
    destruct msg as [|error|results id]; [| |by destruct (Hmsg results id)].
    - by rewrite _handleInitMessage_success.
    - by rewrite _handleInitMessage_error. }
  rewrite E. simpl in Hok'. unfold call_if in E. rewrite bool_decide_true in E.
  2: { destruct Hok as (_ & _ & _ & (rest & -> & _) & _). left. }
  simpl in E. rewrite E in Hok'.
  apply foldl_search_quiet.
  - by destruct Hok' as (_ & _ & Haw' & _).
  - by destruct msg as [|error|results id]; [| |destruct (Hmsg results id)].
  - intros l Hl. by destruct (Hls l Hl) as [_ ?].
Qed.

Lemma handle_unknown_after st results id :
  pendingSearches (_handleSearchResult st (SearchResults results id)) !! id = None.
Proof.
  destruct (pendingSearches st !! id) as [cb|] eqn:Hid.
  - rewrite (handle_known _ _ _ _ Hid). simpl. apply lookup_delete_eq.
  - by rewrite handle_unknown.
Qed.

(** However many listeners for the results are registered, a message
    with results is handled as by one of them, and the call of
    [_handleInput] that waited for it continues once. *)
Lemma dispatch_results results id objs st :
  instance_ok st → (∃ l, l ∈ listeners st ∧ is_search_listener l = true) →
  dispatch (Message (SearchResults results id) objs) st =
  run_continuations objs
    (set_base (_handleSearchResult (base st) (SearchResults results id)) st).
Proof.
  intros Hok (l0 & Hl0 & Hs0).
  destruct (worker_listeners st Hok) as (ls & Hf & Hls & Hall).
  rewrite dispatch_unfold. cbn [event_target]. rewrite Hf. cbn [foldl].
  assert (call_if (Message (SearchResults results id) objs) st init_listener = st) as ->.
  { unfold call_if. case_bool_decide; [|done]. simpl.
    apply run_continuations_idle. by destruct Hok as (_ & _ & Haw & _). }
  destruct ls as [|l ls]; [by apply Hall, elem_of_nil in Hs0|].
  destruct (Hls l) as [Hin [n ->]]; [left|].
  cbn [foldl].
  destruct (call_ok (Message (SearchResults results id) objs) st _ Hok Hin) as [Hok' _];
    [done|].
  unfold call_if at 2. rewrite bool_decide_true by done.
  cbn [calls_back call_listener microtasks] in *.
  apply foldl_search_quiet.
  - by destruct Hok' as (_ & _ & Haw' & _).
  - destruct (run_continuations_fields objs
      (set_base (_handleSearchResult (base st) (SearchResults results id)) st))
      as (-> & _).
    destruct st as [b ? ? ? ? ? ? ?]. cbn [base set_base].
    apply handle_unknown, handle_unknown_after.
  - intros l' Hl'. destruct (Hls l') as [_ ?]; [by right|done].
Qed.

(** The records received for results whose references name objects. *)
Lemma received_valid objs results :
  (∀ x, x ∈ results → is_Some (objs !! item x)) →
  Forall2 (λ x s, objs !! item x = Some (record_of s) ∧
                  score_of s = score x ∧ bigramScore_of s = bigramScore x)
          results (received objs results).
Proof.
  induction results as [|x results IH]; intros Hv; [constructor|].
  unfold received. cbn [omap list_omap].
  destruct (Hv x) as [rec Hrec]; [left|]. rewrite Hrec. simpl.
  constructor; [by rewrite Hrec|].
  apply IH. intros y Hy. apply Hv. by right.
Qed.

(** The reply to the search a call of [_handleInput] has posted resolves
    the promise the call awaits, and the call continues. *)
Lemma reply_resumes val m0 st results objs :
  instance_ok st → match_fragment val = Some m0 →
  let st1 := _handleInput val st in
  let id := searchIdCounter (base st) in
  let q := toLowerCase m0 in
  run_continuations objs
    (set_base (_handleSearchResult (base st1) (SearchResults results id)) st1)
  = Instance (Api (pendingSearches (base st)) (S id)
                  (promises (base st) ++ [Resolved results]) (posted (base st1)))
             (listeners st) (bound st) (created st) (awaiting st)
             (inputEl st) (suggestionsEl st)
             (_handleInput_resume q (received objs results)
                (set_currentPinyinQuery q (state st))).
Proof.
  intros (Hapi & _ & Haw & _) Hm st1 id q. subst st1 id q.
  rewrite (_handleInput_match val m0 st Hm). cbn zeta.
  rewrite search_unfold. cbn [fst set_base base listeners bound created awaiting inputEl
    suggestionsEl state].
  set (p := length (promises (base st))).
  rewrite (handle_known _ results _ p) by (simpl; apply lookup_insert_eq).
  cbn [pendingSearches searchIdCounter promises posted].
  rewrite resolve_pending by (by rewrite lookup_app_r, Nat.sub_diag).
  assert (<[p := Resolved results]> (promises (base st) ++ [Pending])
          = promises (base st) ++ [Resolved results]) as ->.
  { unfold p. rewrite insert_app_r_alt, Nat.sub_diag by done. done. }
  assert (delete (searchIdCounter (base st))
            (<[searchIdCounter (base st) := p]> (pendingSearches (base st)))
          = pendingSearches (base st)) as ->.
  { apply delete_insert_id. destruct Hapi as (Hpend & _).
    destruct (pendingSearches (base st) !! searchIdCounter (base st)) as [cb|] eqn:E;
      [|done].
    destruct (Hpend _ cb E). lia. }
  unfold run_continuations, set_base, set_awaiting.
  cbn [base listeners bound created awaiting inputEl suggestionsEl state promises].
  assert (∀ a, a ∈ awaiting st →
            resolved_with (promises (base st) ++ [Resolved results]) a.1 = None) as Hold.
  { intros a Ha. unfold resolved_with.
    rewrite lookup_app_l by (eapply lookup_lt_Some; by apply Haw). by rewrite Haw. }
  assert (resolved_with (promises (base st) ++ [Resolved results]) p = Some results) as Hnew.
  { unfold resolved_with, p. by rewrite lookup_app_r, Nat.sub_diag. }
  rewrite omap_app, filter_app, omap_none, filter_all by (intros a Ha; by rewrite Hold).
  cbn [omap list_omap fst snd]. rewrite Hnew. cbn [mbind option_bind app foldl].
  rewrite filter_cons, decide_False by (cbn [fst]; by rewrite Hnew).
  rewrite filter_nil, app_nil_r. done.
Qed.

(** Every result of a search names a record of the heap, with a
    non-empty hanzi field. *)
Lemma results_hanzi w q o prev results :
  Engine.reachable w → performSearch w q o prev = Some results →
  ∀ x, x ∈ results → ∃ rec hz, heap w !! item x = Some rec ∧ hanzi rec = Some hz ∧ hz ≠ [].
Proof.
  intros Hw Hrs x Hx.
  destruct (performSearch_results w q o prev Hw) as (rs & Hrs' & Hall).
  assert (rs = results) as -> by congruence.
  destruct (Hall x Hx) as (k & grp & _ & _ & _ & Hout).
  destruct (outcome_elem _ _ _ _ _ _ _ Hout) as (_ & rec & hz & t & ? & ? & ? & _).
  by exists rec, hz.
Qed.

Lemma foldl_input val m0 ls : ∀ st,
  instance_ok st → match_fragment val = Some m0 →
  (∀ l, l ∈ ls → l ∈ listeners st ∧ listens_on l = InputEl) →
  length (posted (base (foldl (call_if (Input val)) st ls)))
  = length (posted (base st)) + length ls.
Proof.
  induction ls as [|l ls IH]; intros st Hok Hm Hls; [simpl; lia|].
  cbn [foldl length]. destruct (Hls l) as [Hin Ht]; [left|].
  pose proof Hok as (_ & Hl & _). destruct (Hl l Hin) as (m & n & -> & _).
  destruct m; try done.
  assert (call_if (Input val) st (Listener (handles HandleInput) (Bound HandleInput n))
          = _handleInput val st) as ->.
  { unfold call_if. by rewrite bool_decide_true. }
  destruct (_handleInput_ok val st Hok) as (Hok' & Hls' & _).
  rewrite IH; [|done|done|].
  - rewrite (_handleInput_match val m0 st Hm). cbn zeta. rewrite search_unfold.
    cbn [fst base posted]. rewrite length_app. simpl. lia.
  - intros l' Hl'. rewrite Hls'. apply Hls. by right.
Qed.

End Host.

End DispatchFacts.

(** ** What the page shows *)

Module ShowsFacts.

Import Engine Client Ime Spec ImeSpec StringFacts ClientFacts ImeFacts InstanceFacts.

Section Host.
Context `{Hcase : CaseMapping} `{Hround : Rounding} `{Hproto : Prototype}.

Lemma shows_clear s : shows (_clearSuggestions s).
Proof. unfold shows. destruct s. simpl. constructor. Qed.

Lemma shows_display results s : shows (_displaySuggestions results s).
Proof.
  rewrite _displaySuggestions_unfold. cbn zeta. unfold shows.
  destruct (slice results 0 (Some (suggestionLimit s))) as [|x l]; destruct s; simpl.
  - by repeat constructor.
  - by eexists.
Qed.

Lemma shows_resume q res s : shows s → shows (_handleInput_resume q res s).
Proof.
  intros Hs. unfold _handleInput_resume. destruct (endsWith _ _); [|done].
  apply shows_display.
Qed.

Lemma shows_click matches h s : shows s → shows (_handleSuggestionClick matches h s).
Proof.
  intros Hs. unfold _handleSuggestionClick. destruct matches; [|done].
  unfold shows. by destruct s; simpl.
Qed.

Lemma shows_submit s : shows s → shows (_handleFormSubmit s).
Proof.
  intros Hs. unfold _handleFormSubmit. cbn zeta.
  destruct (match currentPinyinQuery (add_call PreventDefault s) with
            | [] => trim (value (add_call PreventDefault s))
            | _ :: _ => _
            end) as [|c text]; [by destruct s|].
  unfold shows. by destruct s; simpl.
Qed.

Lemma shows_fields s s' :
  currentSuggestions s' = currentSuggestions s → children s' = children s →
  shows s → shows s'.
Proof. unfold shows. by intros -> ->. Qed.

Lemma shows_resume_fold objs ready : ∀ st,
  shows (state st) →
  shows (state (foldl (λ st' a, set_state
                         (_handleInput_resume a.1 (received objs a.2) (state st')) st')
                      st ready)).
Proof.
  induction ready as [|a ready IH]; intros st Hs; [done|].
  cbn [foldl]. apply IH. destruct st. simpl. by apply shows_resume.
Qed.

Lemma shows_run_continuations objs st :
  shows (state st) → shows (state (run_continuations objs st)).
Proof.
  intros Hs. unfold run_continuations. cbn zeta.
  apply shows_resume_fold. by destruct st.
Qed.

Lemma shows_handleInput val st : shows (state st) → shows (state (_handleInput val st)).
Proof.
  intros Hs. unfold _handleInput. destruct (match_fragment val) as [m0|].
  - cbn zeta. destruct (search _ _) as [b p]. destruct st as [? ? ? ? ? ? ? []]. done.
  - destruct st. simpl. apply shows_clear.
Qed.

Lemma shows_handleInitMessage m st :
  shows (state st) → shows (state (_handleInitMessage m st)).
Proof.
  intros Hs. destruct m as [|error|results id]; [| |done].
  - unfold _handleInitMessage, removeEventListener, bind_method, addEventListener, settle.
    simpl. case_bool_decide; simpl; by destruct (created st).
  - unfold _handleInitMessage, settle. by destruct (created st).
Qed.

Lemma shows_call e f st :
  shows (state st) → shows (state (microtasks e (call_listener f e st))).
Proof.
  intros Hs.
  assert (shows (state (call_listener f e st))) as Hc.
  { destruct f as [m|m n]; [by destruct e|].
    destruct m, e; try done; cbn [call_listener].
    - by apply shows_handleInitMessage.
    - by apply shows_handleInput.
    - destruct st. simpl in *. by apply shows_click.
    - destruct st. simpl in *. by apply shows_submit. }
  destruct e; try done. by apply shows_run_continuations.
Qed.

Lemma shows_dispatch e st : shows (state st) → shows (state (dispatch e st)).
Proof.
  rewrite dispatch_unfold.
  generalize (filter (λ l, listens_on l = event_target e) (listeners st)).
  intros ls. revert st. induction ls as [|l ls IH]; intros st Hs; [done|].
  cbn [foldl]. apply IH. unfold call_if. case_bool_decide; [|done].
  by apply shows_call.
Qed.

Lemma shows_attach o st st' : attach o st = Some st' → shows (state st) → shows (state st').
Proof.
  unfold attach. destruct (negb _ || negb _); [done|]. cbn zeta.
  unfold bind_method, addEventListener. simpl.
  intros Hst' Hs.
  assert (currentSuggestions (state st') = currentSuggestions (state st) ∧
          children (state st') = children (state st)) as [E1 E2].
  { repeat case_bool_decide; destruct (with_form o); simpl in Hst';
      repeat case_bool_decide; simplify_eq; simpl;
      destruct (with_suggestionBtnClass o) as [[|? ?]|], (with_suggestionLimit o),
        (with_onCommit o); by destruct st as [? ? ? ? ? ? ? []]. }
  by apply (shows_fields (state st)).
Qed.

Lemma reachable_shows value0 children0 st :
  Forall (λ n, matches_suggestion_btn n = false) children0 →
  reachable value0 children0 st → shows (state st).
Proof.
  intros H0. induction 1 as [|st e _ IH|st o st' _ IH Hc Ha|st p _ IH Hc].
  - done.
  - destruct e; simpl; by apply shows_dispatch.
  - by eapply shows_attach.
  - by destruct st.
Qed.

End Host.

End ShowsFacts.

(** ** Properties of the input method *)

Module ImeProperties.

Import Engine Client Ime Spec ImeSpec StringFacts ClientFacts ImeFacts InstanceFacts
  DispatchFacts ShowsFacts.
Import SearchFacts ResultFacts.

Section Host.
Context `{Hcase : CaseMapping} `{Hround : Rounding} `{Hproto : Prototype}.

(** *** _displaySuggestions (lines 120-134) *)

(** [_displaySuggestions] replaces what the suggestions element holds. It
    keeps [results.slice(0, suggestionLimit)] as the current suggestions,
    the first [suggestionLimit] results when the limit is not negative, and
    shows one button for each, in their order; a click on a button is a
    click on a [.suggestion-btn] whose [dataset.hanzi] is the hanzi of its
    result. When no suggestion is kept (no result, or a limit of 0) it
    shows the notice instead. The input, the query and the history are not
    touched. *)
Theorem displayed_suggestions results s :
  let s' := _displaySuggestions results s in
  let shown := slice results 0 (Some (suggestionLimit s)) in
  currentSuggestions s' = shown ∧
  (shown = [] → children s' = [Markup "<i>No suggestions.</i>"]) ∧
  (shown ≠ [] → children s' = button (suggestionBtnClass s) <$> shown) ∧
  (∀ i x, shown !! i = Some x →
     ∃ n, children s' !! i = Some n ∧
          click_on n = Click true (Some (to_string (hanzi (record_of x))))) ∧
  ((0 ≤ suggestionLimit s)%Z → shown = take (Z.to_nat (suggestionLimit s)) results) ∧
  value s' = value s ∧ currentPinyinQuery s' = currentPinyinQuery s ∧
  conversationHistory s' = conversationHistory s ∧ calls s' = calls s.
Proof.
  intros s' shown. unfold s'. rewrite _displaySuggestions_unfold. cbn zeta. fold shown.
  split; [by destruct s|].
  split; [by intros ->; destruct s|].
  assert (shown ≠ [] →
          children (set_children
                      match shown with
                      | [] => [Markup "<i>No suggestions.</i>"]
                      | _ :: _ => button (suggestionBtnClass s) <$> shown
                      end (set_currentSuggestions shown s))
          = button (suggestionBtnClass s) <$> shown) as Hch.
  { by destruct shown; [|destruct s]. }
  split; [done|].
  split.
  { intros i x Hx. exists (button (suggestionBtnClass s) x). split.
    - rewrite Hch by (by intros E; rewrite E in Hx).
      by rewrite list_lookup_fmap, Hx.
    - unfold click_on. by rewrite button_matches. }
  split; [by apply slice_take|].
  by destruct s.
Qed.

(** *** _handleInput (lines 106-117) *)

(** On an input event, [_handleInput] clears the suggestions and posts
    nothing when the value is empty or ends with a character outside
    [[A-Za-z0-9_']]. Otherwise the fragment is the longest suffix of the
    value made of such characters, and exactly one [search] message is
    posted, under the next [searchId]: its query is the fragment in lower
    case (not empty, without capital letters), its key is ['pinyin'], its
    threshold 0.2 and it has no length tolerance; its context is the one
    code unit before the fragment (a character outside the class) or, when
    the fragment is the whole value, the last element of the history. The
    suggestions shown stay as they are while the reply is awaited. *)
Theorem input_posts_search `{Hlaws : !CaseMappingLaws} val st :
  let st' := _handleInput val st in
  (match_fragment val = None ↔
     val = [] ∨ ∃ c, last val = Some c ∧ in_fragment_class c = false) ∧
  (match_fragment val = None →
     base st' = base st ∧ awaiting st' = awaiting st ∧ cleared (state st') ∧
     value (state st') = value (state st)) ∧
  (∀ m0, match_fragment val = Some m0 →
     ∃ pre,
       val = pre ++ m0 ∧ m0 ≠ [] ∧ forallb in_fragment_class m0 = true ∧
       (∀ c, last pre = Some c → in_fragment_class c = false) ∧
       let q := ascii_toLowerCase <$> m0 in
       let ctx := match last pre with
                  | Some c => Some [c]
                  | None => last (conversationHistory (state st))
                  end in
       Forall (λ c, in_fragment_class c = true ∧ is_upper c = false) q ∧
       posted (base st') = posted (base st) ++
         [SearchMessage
            (Payload q (Options (Some (js "pinyin")) (Some (round (2 # 10))) None) ctx)
            (searchIdCounter (base st))] ∧
       awaiting st' = awaiting st ++ [(length (promises (base st)), q)] ∧
       promises (base st') = promises (base st) ++ [Pending] ∧
       currentPinyinQuery (state st') = q ∧
       currentSuggestions (state st') = currentSuggestions (state st) ∧
       children (state st') = children (state st) ∧
       value (state st') = value (state st)).
Proof.
  intros st'. split; [apply match_fragment_None|]. split.
  - intros Hm. unfold st', _handleInput. rewrite Hm. by destruct st as [? ? ? ? ? ? ? []].
  - intros m0 Hm. unfold st'. rewrite (_handleInput_match val m0 st Hm). cbn zeta.
    apply match_fragment_Some in Hm as (Hne & Hall & pre & -> & Hlast).
    exists pre. split; [done|]. split; [done|]. split; [done|]. split; [done|].
    rewrite (toLowerCase_fragment m0 Hall), search_unfold. simpl.
    split.
    { apply Forall_forall. intros c (d & -> & Hd)%list_elem_of_fmap.
      apply in_fragment_class_lower. rewrite forallb_forall in Hall.
      apply Hall. by apply list_elem_of_In. }
    rewrite slice_drop_last, length_fmap, bool_decide_false by (by destruct m0).
    rewrite length_app, Nat.add_sub, take_app_length.
    assert (match pre with
            | [] => at_last (conversationHistory (state st))
            | _ :: _ => Some (slice pre (-1) None)
            end
            = match last pre with
              | Some c => Some [c]
              | None => last (conversationHistory (state st))
              end) as ->.
    { destruct pre as [|c pre]; [done|]. rewrite slice_last.
      destruct (last (c :: pre)) eqn:E; [done|]. by apply last_None in E. }
    by destruct st as [? ? ? ? ? ? ? []].
Qed.

(** The guard after the [await] compares the input with the lower case of
    the fragment: when the input has not changed since the event, the
    results of a fragment without capital letters are displayed, and those
    of a fragment with a capital letter are dropped, the state staying as
    it is. *)
Theorem stale_guard `{Hlaws : !CaseMappingLaws} val m0 res s :
  match_fragment val = Some m0 → value s = val →
  let s' := _handleInput_resume (toLowerCase m0) res s in
  (Forall (λ c, is_upper c = false) m0 → s' = _displaySuggestions res s) ∧
  (Exists (λ c, is_upper c = true) m0 → s' = s).
Proof.
  intros Hm Hv s'. unfold s', _handleInput_resume.
  apply match_fragment_Some in Hm as (Hne & Hall & pre & -> & Hlast).
  rewrite (toLowerCase_fragment m0 Hall), Hv. split.
  - intros Hlow. rewrite fragment_lower_fixed by done.
    assert (endsWith (pre ++ m0) m0 = true) as ->; [|done].
    apply endsWith_true. by exists pre.
  - intros Hup. destruct (endsWith _ _) eqn:E; [|done].
    apply endsWith_true in E as [pre' E].
    apply app_inj_2 in E as [_ E]; [|by rewrite length_fmap].
    symmetry in E. by apply fragment_lower_changed in E.
Qed.

(** *** _handleFormSubmit (lines 148-155) *)

(** A submission commits the trimmed value of the input; when a query is
    set and suggestions are current, it commits the trimmed value without
    its last [query.length] code units, followed by the hanzi of the first
    suggestion. An empty text is not committed: only the default action is
    prevented. A text that is committed is passed to [onCommit], its code
    points are appended to the history (put together again they are the
    text; each is one code unit or a surrogate pair), the input is emptied
    and the suggestions are cleared. *)
Theorem submit_commits s :
  let s' := _handleFormSubmit s in
  let txt := trim (value s) in
  (currentPinyinQuery s = [] ∨ currentSuggestions s = [] → commits s s' txt) ∧
  (∀ x l, currentPinyinQuery s ≠ [] → currentSuggestions s = x :: l →
     commits s s' (take (length txt - length (currentPinyinQuery s)) txt
                   ++ to_string (hanzi (record_of x)))) ∧
  (∀ text, mjoin (code_points text) = text ∧
           (text ≠ [] → code_points text ≠ []) ∧
           ∀ p, p ∈ code_points text →
             (∃ c, p = [c]) ∨
             (∃ c d, p = [c; d] ∧ is_leading_surrogate c = true ∧
                     is_trailing_surrogate d = true)).
Proof.
  intros s' txt. split; [|split].
  - intros Hcase'. apply _handleFormSubmit_commits. cbn zeta. fold txt.
    destruct Hcase' as [-> | ->]; [done|]. by destruct (currentPinyinQuery s).
  - intros x l Hq Hs. apply _handleFormSubmit_commits. cbn zeta. fold txt.
    rewrite Hs. destruct (currentPinyinQuery s) as [|c q] eqn:E; [done|].
    by rewrite slice_drop_last, bool_decide_false by done.
  - intros text. split; [apply code_points_concat|]. split.
    + intros Hne Hnil. by apply code_points_nil in Hnil.
    + apply code_points_elem.
Qed.

(** *** _handleSuggestionClick (lines 137-145) *)

(** Typing, receiving, clicking: after an input event whose fragment has
    no capital letter, when the results arrive with the input unchanged, a
    click on the button of the [i]-th suggestion replaces exactly the
    fragment by the hanzi of that suggestion and keeps what precedes it;
    the suggestions are cleared and the input is focused. With an empty
    query, a click on a suggestion button replaces the whole value of the
    input. *)
Theorem type_then_click `{Hlaws : !CaseMappingLaws} val m0 res st i x :
  value (state st) = val → match_fragment val = Some m0 →
  Forall (λ c, is_upper c = false) m0 →
  slice res 0 (Some (suggestionLimit (state st))) !! i = Some x →
  let st1 := _handleInput val st in
  let s2 := _handleInput_resume (toLowerCase m0) res (state st1) in
  (∃ n pre,
     children s2 !! i = Some n ∧ val = pre ++ m0 ∧
     click_on n = Click true (Some (to_string (hanzi (record_of x)))) ∧
     let s3 := _handleSuggestionClick true (Some (to_string (hanzi (record_of x)))) s2 in
     value s3 = pre ++ to_string (hanzi (record_of x)) ∧ cleared s3 ∧
     calls s3 = calls (state st) ++ [Focus] ∧
     conversationHistory s3 = conversationHistory (state st)) ∧
  (∀ s h, currentPinyinQuery s = [] →
     value (_handleSuggestionClick true (Some h) s) = h).
Proof.
  intros Hv Hm Hlow Hx st1 s2. split.
  - pose proof (proj1 (match_fragment_Some _ _) Hm) as (Hne & Hall & pre & Hval & _).
    assert (toLowerCase m0 = m0) as Hq.
    { by rewrite (toLowerCase_fragment m0 Hall), fragment_lower_fixed. }
    assert (state st1 = set_currentPinyinQuery m0 (state st)) as Hst1.
    { unfold st1. rewrite (_handleInput_match val m0 st Hm). cbn zeta. by rewrite Hq. }
    assert (s2 = _displaySuggestions res (set_currentPinyinQuery m0 (state st))) as Hs2.
    { unfold s2, _handleInput_resume. rewrite Hq, Hst1.
      assert (endsWith (value (set_currentPinyinQuery m0 (state st))) m0 = true) as ->;
        [|done].
      apply endsWith_true. exists pre. rewrite <- Hval, <- Hv.
      by destruct st as [? ? ? ? ? ? ? []]. }
    rewrite _displaySuggestions_unfold in Hs2. cbn zeta in Hs2.
    assert (suggestionLimit (set_currentPinyinQuery m0 (state st))
            = suggestionLimit (state st)) as El by (by destruct st as [? ? ? ? ? ? ? []]).
    rewrite El in Hs2.
    destruct (slice res 0 (Some (suggestionLimit (state st)))) as [|y shown] eqn:Eshown;
      [done|].
    exists (button (suggestionBtnClass (state st)) x), pre.
    split.
    { rewrite Hs2. destruct st as [? ? ? ? ? ? ? []]. simpl in *.
      by rewrite <- fmap_cons, list_lookup_fmap, Hx. }
    split; [done|].
    split; [unfold click_on; by rewrite button_matches|].
    cbn zeta. unfold _handleSuggestionClick.
    assert (value s2 = pre ++ m0 ∧ currentPinyinQuery s2 = m0 ∧
            calls s2 = calls (state st) ∧
            conversationHistory s2 = conversationHistory (state st)) as (E1 & E2 & E3 & E4).
    { rewrite Hs2, <- Hval, <- Hv. by destruct st as [? ? ? ? ? ? ? []]. }
    rewrite slice_drop_last, E1, E2, bool_decide_false by (by destruct m0).
    rewrite length_app, Nat.add_sub, take_app_length.
    split; [by destruct s2|]. split; [by destruct s2|].
    split; [rewrite <- E3; by destruct s2|].
    rewrite <- E4. by destruct s2.
  - intros s h Hq. unfold _handleSuggestionClick.
    rewrite slice_drop_last, Hq, bool_decide_true by done. by destruct s.
Qed.

(** After a submission that committed a text, the search posted for a
    value that is one fragment has the last code point of the committed
    text as its context. *)
Theorem context_after_commit `{Hlaws : !CaseMappingLaws} s st text frag :
  commits s (state st) text → text ≠ [] →
  frag ≠ [] → forallb in_fragment_class frag = true →
  ∃ p,
    last (posted (base (_handleInput frag st)))
    = Some (SearchMessage p (searchIdCounter (base st))) ∧
    query p = ascii_toLowerCase <$> frag ∧
    previousWordHanzi p = last (code_points text) ∧
    is_Some (previousWordHanzi p).
Proof.
  intros Hc Hne Hf Hall.
  assert (match_fragment frag = Some frag) as Hm.
  { apply match_fragment_Some. split; [done|]. split; [done|]. by exists []. }
  rewrite (_handleInput_match frag frag st Hm). cbn zeta.
  rewrite search_unfold. cbn [fst base posted]. rewrite last_snoc.
  eexists. split; [done|]. cbn [query previousWordHanzi].
  rewrite (toLowerCase_fragment frag Hall).
  split; [done|].
  rewrite slice_drop_last, length_fmap, bool_decide_false by (by destruct frag).
  rewrite Nat.sub_diag, take_0. unfold at_last.
  unfold commits in Hc. destruct text as [|c text]; [done|].
  destruct Hc as (_ & -> & _).
  destruct (code_points (c :: text)) as [|cp cps _] eqn:E using rev_ind.
  { by apply code_points_nil in E. }
  rewrite (assoc_L (++)), !last_snoc. eauto.
Qed.

(** In every state of an instance whose suggestions element held no
    [.suggestion-btn] at first, the suggestion buttons shown are those of
    the current suggestions, in their order. So, when a query is set and a
    button is shown first, a submission commits the trimmed input without
    its last [query.length] code units, followed by the hanzi of that
    button. *)
Theorem buttons_show_suggestions value0 children0 st :
  Forall (λ n, matches_suggestion_btn n = false) children0 →
  reachable value0 children0 st →
  let s := state st in
  let txt := trim (value s) in
  dataset_of <$> filter (λ n, matches_suggestion_btn n) (children s)
  = (λ x, Some (to_string (hanzi (record_of x)))) <$> currentSuggestions s ∧
  (∀ n rest, children s = n :: rest → matches_suggestion_btn n = true →
     currentPinyinQuery s ≠ [] →
     ∃ h, dataset_of n = Some h ∧
          commits s (_handleFormSubmit s)
                  (take (length txt - length (currentPinyinQuery s)) txt ++ h)).
Proof.
  intros H0 Hst s txt. pose proof (reachable_shows _ _ _ H0 Hst) as Hs. fold s in Hs.
  unfold shows in Hs.
  destruct (currentSuggestions s) as [|x l] eqn:Hcur.
  - split.
    + rewrite filter_none; [done|].
      intros n Hn. rewrite Forall_forall in Hs. by apply Is_true_false, Hs.
    + intros n rest Hch Hn _. rewrite Hch in Hs. apply Forall_cons in Hs as [Hs _].
      simpl in Hs. congruence.
  - destruct Hs as [cls Hch]. split.
    + rewrite Hch, filter_all by (intros n (y & -> & _)%list_elem_of_fmap;
                                   by rewrite button_matches).
      by rewrite <- list_fmap_compose.
    + intros n rest Hch' _ Hq. rewrite Hch' in Hch. injection Hch as -> _.
      eexists. split; [done|].
      apply _handleFormSubmit_commits. cbn zeta. fold s txt. rewrite Hcur.
      destruct (currentPinyinQuery s) as [|c q] eqn:E; [done|].
      by rewrite slice_drop_last, bool_decide_false by done.
Qed.

(** *** attach (lines 72-82) *)

(** [attach] throws when one of the two elements is missing, before it
    changes anything. Otherwise it sets the two elements, keeps [onCommit]
    and [suggestionBtnClass] unless a callback and a non-empty class are
    given, takes any [suggestionLimit] that is given (0 included), and
    registers new listeners after those registered before: one on the
    input, one on the suggestions element and, when the input has a form,
    one on the form. It leaves the correlation state and the page as they
    are. *)
Theorem attach_registers value0 children0 o st :
  reachable value0 children0 st →
  (with_inputEl o = false ∨ with_suggestionsEl o = false → attach o st = None) ∧
  (with_inputEl o = true → with_suggestionsEl o = true →
   ∃ st',
     attach o st = Some st' ∧
     listeners st' = listeners st ++ attach_listeners o (bound st) ∧
     input_listeners st' = input_listeners st ++ [Listener InputEl (Bound HandleInput (bound st))] ∧
     base st' = base st ∧ created st' = created st ∧ awaiting st' = awaiting st ∧
     inputEl st' = true ∧ suggestionsEl st' = true ∧
     onCommit (state st')
     = match with_onCommit o with Some f => Some f | None => onCommit (state st) end ∧
     suggestionLimit (state st')
     = default (suggestionLimit (state st)) (with_suggestionLimit o) ∧
     suggestionBtnClass (state st')
     = match with_suggestionBtnClass o with
       | Some (c :: cls) => c :: cls
       | _ => suggestionBtnClass (state st)
       end ∧
     value (state st') = value (state st) ∧ children (state st') = children (state st) ∧
     currentPinyinQuery (state st') = currentPinyinQuery (state st) ∧
     currentSuggestions (state st') = currentSuggestions (state st) ∧
     conversationHistory (state st') = conversationHistory (state st) ∧
     calls (state st') = calls (state st)).
Proof.
  intros Hst. pose proof (reachable_instance_ok _ _ _ Hst) as (_ & Hl & _).
  rewrite attach_unfold by done. split.
  - intros [-> | ->]; [done|]. by rewrite orb_true_r.
  - intros -> ->. cbn [negb orb]. eexists. split; [done|].
    cbn [listeners base created awaiting inputEl suggestionsEl state].
    split; [done|]. split.
    { unfold input_listeners. cbn [listeners]. rewrite filter_app. f_equal.
      unfold attach_listeners. by destruct (with_form o). }
    unfold attach_fields.
    destruct (with_onCommit o), (with_suggestionLimit o),
      (with_suggestionBtnClass o) as [[|c cls]|]; by destruct st as [? ? ? ? ? ? ? []].
Qed.

(** An input event whose value ends with a fragment posts one [search]
    message for each listener registered on the input, that is, for each
    call of [attach] that did not throw. *)
Theorem search_per_input_listener value0 children0 st val m0 :
  reachable value0 children0 st → match_fragment val = Some m0 →
  length (posted (base (step st (Input val))))
  = length (posted (base st)) + length (input_listeners st).
Proof.
  intros Hst Hm. pose proof (reachable_instance_ok _ _ _ Hst) as Hok.
  cbn [step]. rewrite dispatch_unfold. cbn [event_target].
  rewrite (foldl_input val m0); [by destruct st as [? ? ? ? ? ? ? []]|by destruct st|done|].
  intros l [Ht Hin]%list_elem_of_filter. split; [|done]. by destruct st.
Qed.

(** *** create and _handleInitMessage (lines 37-69) *)

(** In every state of an instance, the listener the constructor
    registered for [_handleInitMessage] is registered, first: the call
    [removeEventListener('message', this._handleInitMessage)] removes
    nothing, the function registered being the one [bind] returned. Every
    [init_success] registers one more listener for [_handleSearchResult];
    the promise of [create] is resolved by an [init_success] and rejected,
    with the error of the message, by an [init_error] only while it is
    pending. When it is resolved, a listener for the results is
    registered. *)
Theorem init_listener_stays value0 children0 st objs :
  reachable value0 children0 st →
  (∃ rest, listeners st = init_listener :: rest) ∧
  removeEventListener TheWorker (Unbound HandleInitMessage) st = st ∧
  (let st' := step st (Message InitSuccess objs) in
   listeners st'
   = listeners st ++ [Listener TheWorker (Bound HandleSearchResult (bound st))] ∧
   created st' = match created st with Creating => Created | c => c end) ∧
  (∀ error,
     let st' := step st (Message (InitError error) objs) in
     listeners st' = listeners st ∧
     created st' = match created st with Creating => Rejected error | c => c end) ∧
  (created st = Created → ∃ l, l ∈ listeners st ∧ is_search_listener l = true).
Proof.
  intros Hst. pose proof (reachable_instance_ok _ _ _ Hst) as Hok.
  pose proof Hok as (_ & Hl & _ & (rest & Hls & _) & Hcr & _).
  split; [by exists rest|].
  split; [by apply removeEventListener_unbound|].
  split; [|split; [|done]].
  - cbn [step]. rewrite dispatch_init by done.
    by rewrite _handleInitMessage_success.
  - intros error. cbn [step]. rewrite dispatch_init by done.
    rewrite _handleInitMessage_error. by destruct st.
Qed.

(** However many listeners for the results are registered, a message of
    the worker changes the correlation state of an instance that was handed
    out as one call of [_handleSearchResult] does. *)
Theorem reply_handled_once value0 children0 st m objs :
  reachable value0 children0 st → created st = Created →
  base (step st (Message m objs)) = _handleSearchResult (base st) m.
Proof.
  intros Hst Hc. pose proof (reachable_instance_ok _ _ _ Hst) as Hok.
  pose proof Hok as (_ & Hl & _ & _ & Hcr & _).
  cbn [step]. destruct m as [|error|results id].
  - rewrite dispatch_init by done. by rewrite _handleInitMessage_success.
  - rewrite dispatch_init by done. rewrite _handleInitMessage_error. by destruct st.
  - rewrite dispatch_results by auto.
    destruct (run_continuations_fields objs
      (set_base (_handleSearchResult (base st) (SearchResults results id)) st)) as (-> & _).
    by destruct st.
Qed.

Lemma reply_displays `{Hlaws : !CaseMappingLaws} st w val m0 :
  instance_ok st → created st = Created → Engine.reachable w →
  value (state st) = val → match_fragment val = Some m0 →
  Forall (λ c, is_upper c = false) m0 →
  let st1 := _handleInput val st in
  let id := searchIdCounter (base st) in
  ∃ p results,
    last (posted (base st1)) = Some (SearchMessage p id) ∧
    query p = m0 ∧
    performSearch w (query p) (search_options p) (previousWordHanzi p) = Some results ∧
    let copied := forallb (λ x, serializable (bigramScore x)) results in
    onmessage w (Search p id)
    = (w, if copied then [PostMessage (SearchResults results id)] else []) ∧
    (plain_worker w → plain_context (previousWordHanzi p) → copied = true) ∧
    (copied = true →
     let st2 := step st1 (Message (SearchResults results id) (heap w)) in
     let shown := slice (received (heap w) results) 0 (Some (suggestionLimit (state st))) in
     Forall2 (λ x s, heap w !! item x = Some (record_of s)) results
             (received (heap w) results) ∧
     promises (base st2) !! length (promises (base st)) = Some (Resolved results) ∧
     awaiting st2 = awaiting st ∧
     currentSuggestions (state st2) = shown ∧
     (shown = [] → children (state st2) = [Markup "<i>No suggestions.</i>"]) ∧
     (∀ i s, shown !! i = Some s →
        ∃ hz, hanzi (record_of s) = Some hz ∧ hz ≠ [] ∧
          children (state st2) !! i
          = Some (Button (js "suggestion-btn " ++ suggestionBtnClass (state st)) hz hz))).
Proof.
  intros Hok Hc Hw Hv Hm Hlow st1 id.
  pose proof Hok as (_ & _ & _ & _ & Hcr & _).
  pose proof (proj1 (match_fragment_Some _ _) Hm) as (Hne & Hall & pre & Hval & _).
  assert (toLowerCase m0 = m0) as Hq.
  { by rewrite (toLowerCase_fragment m0 Hall), fragment_lower_fixed. }
  pose proof (_handleInput_match val m0 st Hm) as Hst1. cbn zeta in Hst1. fold st1 in Hst1.
  rewrite Hq in Hst1.
  set (p := Payload m0 (Options (Some (js "pinyin")) (Some (round (2 # 10))) None)
              match slice val 0 (Some (- Z.of_nat (length m0))%Z) with
              | [] => at_last (conversationHistory (state st))
              | _ :: _ =>
                  Some (slice (slice val 0 (Some (- Z.of_nat (length m0))%Z)) (-1) None)
              end) in *.
  destruct (performSearch_results w (query p) (search_options p) (previousWordHanzi p) Hw)
    as (results & Hrs & _).
  exists p, results.
  split. { rewrite Hst1, search_unfold. cbn [fst base posted]. by rewrite last_snoc. }
  split; [done|]. split; [done|]. cbn zeta.
  split. { destruct (ResultFacts.onmessage_search w p id Hw) as (rs' & Hrs' & ->).
           by simplify_eq. }
  split. { intros Hplain Hprev.
           exact (ResultFacts.plain_serializable w _ _ _ results Hw Hplain Hprev Hrs). }
  intros _.
  destruct (_handleInput_ok val st Hok) as (Hok1 & Hls1 & Hc1). fold st1 in Hok1, Hls1, Hc1.
  cbn [step]. rewrite dispatch_results; [|done|rewrite Hls1; by apply Hcr].
  pose proof (reply_resumes val m0 st results (heap w) Hok Hm) as Hres.
  cbn zeta in Hres. fold st1 id in Hres. rewrite Hres, Hq. clear Hres.
  cbn [base promises awaiting state].
  pose proof (received_valid (heap w) results) as Hrec.
  assert (∀ x, x ∈ results →
            ∃ rec hz, heap w !! item x = Some rec ∧ hanzi rec = Some hz ∧ hz ≠ []) as Hhz.
  { by apply (results_hanzi w (query p) (search_options p) (previousWordHanzi p)). }
  assert (∀ x, x ∈ results → is_Some (heap w !! item x)) as Hvalid.
  { intros x Hx. destruct (Hhz x Hx) as (rec & _ & -> & _). eauto. }
  specialize (Hrec Hvalid).
  split; [eapply Forall2_impl; [exact Hrec|intros x s Hxs; apply Hxs]|].
  split; [by rewrite lookup_app_r, Nat.sub_diag|].
  split; [done|].
  unfold _handleInput_resume.
  assert (endsWith (value (set_currentPinyinQuery m0 (state st))) m0 = true) as ->.
  { apply endsWith_true. exists pre. rewrite <- Hval, <- Hv.
    by destruct st as [? ? ? ? ? ? ? []]. }
  rewrite _displaySuggestions_unfold. cbn zeta.
  assert (suggestionLimit (set_currentPinyinQuery m0 (state st)) = suggestionLimit (state st))
    as -> by (by destruct st as [? ? ? ? ? ? ? []]).
  assert (suggestionBtnClass (set_currentPinyinQuery m0 (state st))
          = suggestionBtnClass (state st))
    as -> by (by destruct st as [? ? ? ? ? ? ? []]).
  set (shown := slice (received (heap w) results) 0 (Some (suggestionLimit (state st)))).
  split; [by destruct st as [? ? ? ? ? ? ? []]|].
  split; [by intros ->; destruct st as [? ? ? ? ? ? ? []]|].
  intros i s Hs.
  assert (s ∈ received (heap w) results) as Hin.
  { apply (slice_elem _ 0 (Some (suggestionLimit (state st)))).
    by eapply list_elem_of_lookup_2. }
  assert (∃ hz, hanzi (record_of s) = Some hz ∧ hz ≠ []) as (hz & Hhanzi & Hnonempty).
  { apply list_elem_of_lookup in Hin as [j Hj].
    destruct (Forall2_lookup_r _ _ _ _ _ Hrec Hj) as (x & Hx & Hxs & _).
    destruct (Hhz x) as (rec & hz & Hr & ? & ?); [by eapply list_elem_of_lookup_2|].
    exists hz. split; [|done]. congruence. }
  exists hz. split; [done|]. split; [done|].
  assert (children
            (set_children
               match shown with
               | [] => [Markup "<i>No suggestions.</i>"]
               | _ :: _ => button (suggestionBtnClass (state st)) <$> shown
               end
               (set_currentSuggestions shown (set_currentPinyinQuery m0 (state st))))
          = button (suggestionBtnClass (state st)) <$> shown) as ->.
  { destruct shown; [done|]. by destruct st as [? ? ? ? ? ? ? []]. }
  rewrite list_lookup_fmap, Hs. simpl. unfold button, to_string. by rewrite Hhanzi.
Qed.

(** *** From the key stroke to the buttons *)

(** The page and the worker together: after an input event whose
    fragment has no capital letter, [_handleInput] posts a [search] for the
    fragment. The worker, in any of its states, answers it with one
    [search_results] message under the same [searchId] when the structured
    clone copies the bigram score of every result, which it does when no
    hanzi of a record and no context is the name of a member of
    [Object.prototype]; otherwise it posts nothing. When the reply
    arrives, the promise of the search is resolved with the results, the
    suspended call continues, and the suggestions element shows one button
    for each of the first [suggestionLimit] results, in the order of the
    worker, whose text and [dataset.hanzi] are the non-empty hanzi of the
    record; without results it shows the notice. *)
Theorem suggestions_round_trip `{Hlaws : !CaseMappingLaws} value0 children0 st0 w val m0 :
  reachable value0 children0 st0 → created st0 = Created → Engine.reachable w →
  match_fragment val = Some m0 → Forall (λ c, is_upper c = false) m0 →
  let st := set_state (set_value val (state st0)) st0 in
  let st1 := _handleInput val st in
  let id := searchIdCounter (base st) in
  (∀ l, input_listeners st0 = [l] → step st0 (Input val) = st1) ∧
  ∃ p results,
    last (posted (base st1)) = Some (SearchMessage p id) ∧
    query p = m0 ∧
    performSearch w (query p) (search_options p) (previousWordHanzi p) = Some results ∧
    let copied := forallb (λ x, serializable (bigramScore x)) results in
    onmessage w (Search p id)
    = (w, if copied then [PostMessage (SearchResults results id)] else []) ∧
    (plain_worker w → plain_context (previousWordHanzi p) → copied = true) ∧
    (copied = true →
     let st2 := step st1 (Message (SearchResults results id) (heap w)) in
     let shown := slice (received (heap w) results) 0 (Some (suggestionLimit (state st))) in
     Forall2 (λ x s, heap w !! item x = Some (record_of s)) results
             (received (heap w) results) ∧
     promises (base st2) !! length (promises (base st)) = Some (Resolved results) ∧
     awaiting st2 = awaiting st ∧
     currentSuggestions (state st2) = shown ∧
     (shown = [] → children (state st2) = [Markup "<i>No suggestions.</i>"]) ∧
     (∀ i s, shown !! i = Some s →
        ∃ hz, hanzi (record_of s) = Some hz ∧ hz ≠ [] ∧
          children (state st2) !! i
          = Some (Button (js "suggestion-btn " ++ suggestionBtnClass (state st)) hz hz))).
Proof.
  intros Hst Hc Hw Hm Hlow st st1 id.
  pose proof (reachable_instance_ok _ _ _ Hst) as Hok0.
  assert (instance_ok st) as Hok by (by apply set_value_ok).
  split.
  - intros l Hl. change (step st0 (Input val)) with (dispatch (Input val) st).
    rewrite dispatch_unfold. cbn [event_target].
    assert (filter (λ l', listens_on l' = InputEl) (listeners st) = [l]) as ->
      by (by destruct st0).
    assert (l ∈ listeners st) as Hin.
    { apply (list_elem_of_filter (λ l', listens_on l' = InputEl)).
      replace (listeners st) with (listeners st0) by (by destruct st0).
      fold (input_listeners st0). rewrite Hl. left. }
    assert (listens_on l = InputEl) as Ht.
    { assert (l ∈ input_listeners st0) as Hl' by (rewrite Hl; left).
      by apply list_elem_of_filter in Hl' as [? _]. }
    pose proof Hok as (_ & Hls & _). destruct (Hls l Hin) as (m & n & -> & _).
    destruct m; try done.
    cbn [foldl]. unfold call_if. by rewrite bool_decide_true.
  - by apply (reply_displays st w val m0).
Qed.


End Host.

End ImeProperties.

(** ** The claims on sample data *)

Module Examples.

Import Engine Client Spec Samples IndexFacts SearchFacts SortFacts ClientFacts.
Import EngineClaims ClientClaims ProtocolClaims.

#[local] Existing Instance latin_toLowerCase.
#[local] Existing Instance exact.
#[local] Existing Instance object_prototype.

Lemma loaded_reachable dict bigram : Engine.reachable (loaded dict bigram).
Proof. exact (Engine.reachable_step initial_worker _ Engine.reachable_initial). Defined.

(** Scenario 1: the digit is removed before the distance is computed, the
    score of 你 is 1. *)
Example scenario1_search :
  performSearch (loaded scenario1 ∅) (js "ni") (pinyin_options (3 # 10) None) None
  = Some [Result 0 (2 # 2) (Number 0); Result 1 (1 # 2) (Number 0)].
Proof. reflexivity. Qed.

(** Scenario 2: the two entries tie on the similarity score; 好 comes first
    after 你, and second (bucket order) without a context. *)
Example scenario2_search :
  performSearch (loaded scenario2 bigrams) (js "ao") (pinyin_options (3 # 10) None) (Some ni)
  = Some [Result 1 (2 # 3) (Number (9 # 10)); Result 0 (2 # 3) (Number (5 # 100))] ∧
  performSearch (loaded scenario2 bigrams) (js "ao") (pinyin_options (3 # 10) None) None
  = Some [Result 0 (2 # 3) (Number 0); Result 1 (2 # 3) (Number 0)].
Proof. split; reflexivity. Qed.

(** Scenario 3: the entry of length 3 passes the threshold with a tolerance
    of 1 and is not considered with a tolerance of 0. *)
Example scenario3_search :
  performSearch (loaded scenario3 ∅) (js "ni") (pinyin_options (3 # 10) (Some 1%Z)) None
  = Some [Result 0 (2 # 2) (Number 0); Result 1 (2 # 3) (Number 0)] ∧
  performSearch (loaded scenario3 ∅) (js "ni") (pinyin_options (3 # 10) (Some 0%Z)) None
  = Some [Result 0 (2 # 2) (Number 0)].
Proof. split; reflexivity. Qed.

(** The engine on doubles: 0.1 and 0.6 are the doubles next to them, and
    [1 - 4 / 5] is the double below 0.2. A record at distance 4 of a query
    of length 5 meets the threshold 0.2 in exact arithmetic and misses it
    on doubles. *)
Example binary64_values :
  round (Rounding := binary64) (1 # 10) = (3602879701896397 # 36028797018963968)%Q ∧
  round (Rounding := binary64) (6 # 10) = (5404319552844595 # 9007199254740992)%Q ∧
  Qle_bool (round (Rounding := binary64) (2 # 10))
           (similarityScore (Hround := binary64) 4 5) = false.
Proof. repeat split; reflexivity. Qed.

Example binary64_threshold :
  let w := loaded [entry "abcde" ni] ∅ in
  let o (thr : Q) := Options (Some (js "pinyin")) (Some thr) None in
  performSearch (Hround := exact) w (js "azzzz") (o (2 # 10)) None
  = Some [Result 0 (1 # 5) (Number 0)] ∧
  performSearch (Hround := binary64) w (js "azzzz")
    (o (round (Rounding := binary64) (2 # 10))) None
  = Some [].
Proof. split; reflexivity. Qed.

(** A search over the hanzi field, on a dictionary with an entry that has
    no hanzi. *)
Lemma performSearch_returns_witness :
  Engine.reachable (loaded mixed ∅) ∧
  is_Some (performSearch (loaded mixed ∅) ni
             (Options (Some (js "hanzi")) None None) (Some li)).
Proof.
  split; [exact (loaded_reachable mixed ∅)|].
  exact (performSearch_returns (loaded mixed ∅) ni _ (Some li) (loaded_reachable mixed ∅)).
Defined.

(** C1 as stated fails: the only record of the dictionary lies in a
    candidate bucket and its score, 1, meets the threshold, but it has no
    hanzi field and the result is empty. *)
Lemma performSearch_exact_counterexample :
  let w := loaded no_hanzi ∅ in
  searchIndex w !! js "pinyin" = Some {[ 2 := [0] ]} ∧
  candidates {[ 2 := [0] ]} (js "ni") 2 = [0] ∧
  (heap w !! 0 ≫= searchable_prop (js "pinyin")) = Some (js "ni") ∧
  Qle_bool (3 # 10) (similarityScore (levenshteinDistance (js "ni") (js "ni")) 2) = true ∧
  performSearch w (js "ni") (pinyin_options (3 # 10) None) None = Some [].
Proof. repeat split; reflexivity. Qed.

(** The amended C1 on a dictionary with a record without hanzi. *)
Lemma performSearch_exact_witness :
  let w := loaded mixed ∅ in
  let o := pinyin_options (3 # 10) None in
  Engine.reachable w ∧ js "ni" ≠ [] ∧ key o = Some (js "pinyin") ∧
  searchIndex w !! js "pinyin" = Some {[ 2 := [0; 1; 2] ]} ∧
  ∃ rs, performSearch w (js "ni") o None = Some rs ∧
    item <$> rs ≡ₚ filter (λ r, accepts w (js "pinyin") (js "ni") (3 # 10) r)
                     (candidates {[ 2 := [0; 1; 2] ]} (js "ni") 2).
Proof.
  pose proof (loaded_reachable mixed ∅) as Hw.
  split; [exact Hw|]. split; [discriminate|]. split; [reflexivity|].
  split; [reflexivity|].
  destruct (performSearch_exact (loaded mixed ∅) (js "ni")
              (pinyin_options (3 # 10) None) None Hw) as [_ Hmain].
  destruct (Hmain (js "pinyin") {[ 2 := [0; 1; 2] ]}) as (rs & Hrs & Hperm & _);
    [discriminate|reflexivity|reflexivity|].
  exists rs. split; [exact Hrs|exact Hperm].
Defined.

(** C3 on scenario 3, with a tolerance of 0. *)
Lemma results_within_tolerance_witness :
  let w := loaded scenario3 ∅ in
  let o := pinyin_options (3 # 10) (Some 0%Z) in
  Engine.reachable w ∧
  ∃ rs, performSearch w (js "ni") o None = Some rs ∧
    ∀ x, x ∈ rs →
      ∃ rec t, heap w !! item x = Some rec ∧
        searchable_prop (js "pinyin") rec = Some t ∧ length t = 2.
Proof.
  pose proof (loaded_reachable scenario3 ∅) as Hw.
  split; [exact Hw|].
  destruct (results_within_tolerance (loaded scenario3 ∅) (js "ni")
              (pinyin_options (3 # 10) (Some 0%Z)) None Hw) as (rs & Hrs & Hlen & _).
  exists rs. split; [exact Hrs|]. intros x Hx.
  destruct (Hlen x (js "pinyin") Hx eq_refl) as (rec & t & Hrec & Ht & _ & Heq).
  exists rec, t. split; [exact Hrec|]. split; [exact Ht|]. exact (Heq eq_refl).
Defined.

(** The records of the scenarios have hanzi that name no member of
    [Object.prototype]. *)
Ltac plain_heap :=
  unfold plain_worker; repeat constructor; intros hz [= <-]; reflexivity.


(** C5 fails on the code for a record whose hanzi is the name of a member
    of [Object.prototype]. After 你, whose row of the table has no entry,
    the bigram score of the record of hanzi ["constructor"] is not 0: it
    is the function [Object], which the row inherits, and [postMessage]
    does not copy it, so that the request gets no reply. Under the context
    ["constructor"], which is not a key of the table, the record of hanzi
    ["length"] gets the bigram score 1, the [length] of that function. *)
Lemma bigram_scores_inherited :
  let w := loaded inherited_name empty_row in
  let w' := loaded [entry "chang2" (js "length")] ∅ in
  (bigramProbabilities w !! ni ≫= λ row, row !! js "constructor") = None ∧
  (heap w !! 0 ≫= hanzi) = Some (js "constructor") ∧
  performSearch w (js "gou") (pinyin_options (3 # 10) None) (Some ni)
  = Some [Result 0 (3 # 3) function_object] ∧
  onmessage w (Search (request "gou" (3 # 10) None (Some ni)) 7) = (w, []) ∧
  bigramProbabilities w' !! js "constructor" = None ∧
  performSearch w' (js "chang") (pinyin_options (3 # 10) None) (Some (js "constructor"))
  = Some [Result 0 (5 # 5) (Number 1)].
Proof. repeat split; reflexivity. Qed.

(** The empty string is not a context, also when it is a key of the
    table: the guard of [hasBigramContext] tests the string itself. *)
Example empty_context :
  let w := loaded scenario1 empty_key_bigrams in
  (bigramProbabilities w !! [] ≫= λ row, row !! ni) = Some (9 # 10)%Q ∧
  (heap w !! 0 ≫= hanzi) = Some ni ∧
  performSearch w (js "ni") (pinyin_options (3 # 10) (Some 0%Z)) (Some [])
  = Some [Result 0 (2 # 2) (Number 0); Result 1 (1 # 2) (Number 0)].
Proof. repeat split; reflexivity. Qed.

(** The bigram scores on scenario 2, after 你. *)
Lemma bigram_scores_witness :
  let w := loaded scenario2 bigrams in
  Engine.reachable w ∧
  ∃ rs, performSearch w (js "ao") (pinyin_options (3 # 10) None) (Some ni) = Some rs ∧
    ∀ x, x ∈ rs →
      ∃ rec hz, heap w !! item x = Some rec ∧ hanzi rec = Some hz ∧
        (∀ v, ({[ hao := (9 # 10)%Q; men := (5 # 100)%Q ]} : gmap (list N) Q) !! hz = Some v →
              ∃ u, bigramScore x = Number u ∧ (u == v)%Q).
Proof.
  pose proof (loaded_reachable scenario2 bigrams) as Hw.
  split; [exact Hw|].
  destruct (bigram_scores (loaded scenario2 bigrams) (js "ao")
              (pinyin_options (3 # 10) None) (Some ni) Hw) as (rs & Hrs & Hall).
  exists rs. split; [exact Hrs|]. intros x Hx.
  destruct (Hall x Hx) as (rec & hz & Hrec & Hhz & Hkey & _).
  exists rec, hz. split; [exact Hrec|]. split; [exact Hhz|].
  destruct (Hkey ni {[ hao := (9 # 10)%Q; men := (5 # 100)%Q ]} eq_refl) as [Hv _];
    [discriminate|reflexivity|exact Hv].
Defined.

(** C10: the record without hanzi, at position 1, is not returned. *)
Lemma results_have_hanzi_witness :
  let w := loaded mixed ∅ in
  Engine.reachable w ∧
  ∃ rs, performSearch w (js "ni") (pinyin_options (3 # 10) None) None = Some rs ∧
    1 ∉ item <$> rs.
Proof.
  pose proof (loaded_reachable mixed ∅) as Hw.
  split; [exact Hw|].
  destruct (results_have_hanzi (loaded mixed ∅) (js "ni")
              (pinyin_options (3 # 10) None) None Hw) as (rs & Hrs & _ & Hnone).
  exists rs. split; [exact Hrs|].
  apply (Hnone 1 (Record_ (Some (js "Ni2")) None (Some (js "ni")) None));
    [reflexivity|left; reflexivity].
Defined.

(** C6: the record without hanzi is indexed under its pinyin form. *)
Lemma index_complete_witness :
  let w' := (initialize initial_worker (Loaded mixed ∅)).1.1 in
  mixed !! 1 = Some (Record_ (Some (js "Ni2")) None None None) ∧
  js "Ni2" ≠ [] ∧ normalize (js "Ni2") ≠ [] ∧
  ∃ grp b, searchIndex w' !! js "pinyin" = Some grp ∧
    grp !! 2 = Some b ∧ filter (λ x, x = 1) b = [1].
Proof.
  split; [reflexivity|]. split; [discriminate|]. split; [discriminate|].
  destruct (index_complete initial_worker mixed ∅ 1
              (Record_ (Some (js "Ni2")) None None None) Pinyin (js "Ni2"))
    as (_ & _ & grp & b & Hgrp & Hb & Hone & _);
    [reflexivity|reflexivity|discriminate|discriminate|].
  exists grp, b. split; [exact Hgrp|]. split; [exact Hb|exact Hone].
Defined.

(** C8 as stated fails: two [init] messages run the index construction
    twice. *)
Lemma init_runs_every_time_counterexample :
  let events := [Init (Loaded scenario1 bigrams); Init (Loaded scenario1 bigrams)] in
  load_attempts (run initial_worker events).2 = 2 ∧
  index_constructions (run initial_worker events).2 = 2.
Proof. split; vm_compute; reflexivity. Qed.

(** C9 as stated fails: before any [init] the request is answered like a
    search that found nothing on a loaded dictionary; nothing is kept for
    later, the [init] that follows answers no request. *)
Lemma search_before_init_counterexample :
  onmessage initial_worker (Search (request "ni" (3 # 10) None None) 7)
  = (initial_worker, [PostMessage (SearchResults [] 7)]) ∧
  (onmessage (loaded scenario1 ∅) (Search (request "zhong" (3 # 10) None None) 7)).2
  = [PostMessage (SearchResults [] 7)] ∧
  (run initial_worker [Search (request "ni" (3 # 10) None None) 7;
                       Init (Loaded scenario1 ∅)]).2
  = [PostMessage (SearchResults [] 7);
     ConsoleLog "[Worker] Loading data...";
     ConsoleLog "[Worker] Pre-processing and indexing data...";
     ConsoleLog "[Worker] Indexing complete.";
     PostMessage InitSuccess].
Proof. repeat split; reflexivity. Qed.

(** The amended C9 after two failed loads. *)
Lemma search_before_init_witness :
  let events := [Init (LoadFailed "Failed to fetch worker data.");
                 Init (BigramFailed scenario1 "Unexpected end of JSON input")] in
  Forall (λ e, is_loaded_init e = false) events ∧
  onmessage (run initial_worker events).1 (Search (request "ni" (3 # 10) None None) 7)
  = ((run initial_worker events).1, [PostMessage (SearchResults [] 7)]).
Proof.
  assert (Forall (λ e, is_loaded_init e = false)
            [Init (LoadFailed "Failed to fetch worker data.");
             Init (BigramFailed scenario1 "Unexpected end of JSON input")]) as Hall.
  { repeat constructor. }
  split; [exact Hall|].
  exact (proj2 (search_before_init _ (request "ni" (3 # 10) None None) 7 Hall)).
Defined.

(** C2: two requests, answered in the opposite order. *)
Lemma search_correlation_witness :
  let requests := [request "ni" (2 # 10) None None; request "hao" (2 # 10) None (Some ni)] in
  let res := λ id : nat, [Result id 1 (Number 0)] in
  let st1 := (search_all constructor requests).1 in
  let st2 := deliver st1 (respond res <$> [1; 0]) in
  Client.reachable constructor ∧
  [1; 0] ≡ₚ seq 0 2 ∧
  posted st1 = [SearchMessage (request "ni" (2 # 10) None None) 0;
                SearchMessage (request "hao" (2 # 10) None (Some ni)) 1] ∧
  promises st2 = [Resolved [Result 0 1 (Number 0)]; Resolved [Result 1 1 (Number 0)]] ∧
  pendingSearches st2 = ∅.
Proof.
  pose proof Client.reachable_new as Hst.
  assert ([1; 0] ≡ₚ seq 0 2) as Hperm by apply Permutation_swap.
  split; [exact Hst|]. split; [exact Hperm|].
  destruct (search_correlation constructor
              [request "ni" (2 # 10) None None; request "hao" (2 # 10) None (Some ni)]
              (λ id : nat, [Result id 1 (Number 0)]) [1; 0] Hst Hperm)
    as ((Hposted & _) & _ & _ & (_ & Hpending & _) & _).
  split; [exact Hposted|]. split; [reflexivity|exact Hpending].
Defined.

End Examples.

(** ** The further properties on the sample data *)

Module PropertyExamples.

Import Engine Client Spec Samples EngineClaims EngineProperties.

#[local] Existing Instance latin_toLowerCase.
#[local] Existing Instance exact.
#[local] Existing Instance object_prototype.

Lemma sample_reachable dict bigram : Engine.reachable (loaded dict bigram).
Proof. exact (Engine.reachable_step initial_worker _ Engine.reachable_initial). Defined.

Ltac plain_heap :=
  unfold plain_worker; repeat constructor; intros hz [= <-]; reflexivity.

(** Scenario 1 under the thresholds 0.3 and 0.6. *)
Lemma raising_threshold_witness :
  let w := loaded scenario1 ∅ in
  Engine.reachable w ∧ ((3 # 10) <= (6 # 10))%Q ∧ plain_worker w ∧
  ∃ rs1 rs2,
    performSearch w (js "ni") (pinyin_options (3 # 10) None) None = Some rs1 ∧
    performSearch w (js "ni") (pinyin_options (6 # 10) None) None = Some rs2 ∧
    rs2 = filter (λ x, Qle_bool (6 # 10) (score x)) rs1.
Proof.
  assert ((3 # 10) <= (6 # 10))%Q as Hthr by (unfold Qle; simpl; lia).
  assert (plain_worker (loaded scenario1 ∅)) as Hplain by plain_heap.
  split; [exact (sample_reachable scenario1 ∅)|]. split; [exact Hthr|].
  split; [exact Hplain|].
  destruct (raising_threshold (loaded scenario1 ∅) (js "ni")
              (pinyin_options (3 # 10) None) (pinyin_options (6 # 10) None) None
              (sample_reachable scenario1 ∅) eq_refl eq_refl Hthr)
    as (rs1 & rs2 & H1 & H2 & _ & _ & Heq).
  exists rs1, rs2. split; [exact H1|]. split; [exact H2|].
  apply Heq; [exact Hplain|]. intros p Hp. discriminate Hp.
Defined.

(** Scenario 1 under the thresholds 2 and 0. *)
Lemma threshold_bounds_witness :
  let w := loaded scenario1 ∅ in
  Engine.reachable w ∧ @RoundingLaws exact ∧ (1 < 2)%Q ∧ (0 <= 0)%Q ∧
  performSearch w (js "ni") (pinyin_options 2 None) None = Some [] ∧
  ∃ rs, performSearch w (js "ni") (pinyin_options 0 None) None = Some rs ∧
        item <$> rs ≡ₚ [0; 1].
Proof.
  assert (1 < 2)%Q as H2 by (unfold Qlt; simpl; lia).
  assert (0 <= 0)%Q as H0 by (unfold Qle; simpl; lia).
  split; [exact (sample_reachable scenario1 ∅)|]. split; [exact exact_laws|].
  split; [exact H2|]. split; [exact H0|]. split.
  - exact (proj1 (threshold_bounds (Hlaws := exact_laws) (loaded scenario1 ∅) (js "ni")
                    (pinyin_options 2 None) None 2
                    (sample_reachable scenario1 ∅) eq_refl) H2).
  - exact (proj2 (threshold_bounds (Hlaws := exact_laws) (loaded scenario1 ∅) (js "ni")
                    (pinyin_options 0 None) None 0
                    (sample_reachable scenario1 ∅) eq_refl) H0
             (js "pinyin") _ ltac:(discriminate) eq_refl eq_refl).
Defined.

(** Scenario 2 without a context and after 你. *)
Lemma context_only_reranks_witness :
  let w := loaded scenario2 bigrams in
  let o := pinyin_options (3 # 10) None in
  Engine.reachable w ∧
  ∃ rs1 rs2,
    performSearch w (js "ao") o None = Some rs1 ∧
    performSearch w (js "ao") o (Some ni) = Some rs2 ∧
    (λ x, (item x, score x)) <$> rs1 ≡ₚ (λ x, (item x, score x)) <$> rs2.
Proof.
  split; [exact (sample_reachable scenario2 bigrams)|].
  exact (context_only_reranks (loaded scenario2 bigrams) (js "ao")
           (pinyin_options (3 # 10) None) None (Some ni)
           (sample_reachable scenario2 bigrams)).
Defined.

(** A key that names no field. *)
Lemma performSearch_no_candidates_witness :
  let w := loaded scenario1 ∅ in
  let o := Options (Some (js "english")) None None in
  Engine.reachable w ∧ (∀ f, key o ≠ Some (field_name f)) ∧
  performSearch w (js "ni") o None = Some [].
Proof.
  assert (∀ f, Some (js "english") ≠ Some (field_name f)) as Hkey
    by (intros []; discriminate).
  split; [exact (sample_reachable scenario1 ∅)|]. split; [exact Hkey|].
  exact (performSearch_no_candidates (loaded scenario1 ∅) (js "ni")
           (Options (Some (js "english")) None None) None
           (sample_reachable scenario1 ∅) (or_introl Hkey)).
Defined.

(** Scenario 3 under the tolerances 0 and 2 (the default). *)
Lemma narrowing_tolerance_witness :
  let w := loaded scenario3 ∅ in
  Engine.reachable w ∧ (0 ≤ 2)%Z ∧ plain_worker w ∧
  ∃ rs1 rs2,
    performSearch w (js "ni") (pinyin_options (3 # 10) None) None = Some rs1 ∧
    performSearch w (js "ni") (pinyin_options (3 # 10) (Some 0%Z)) None = Some rs2 ∧
    rs2 = filter (λ x, within_window w (js "pinyin") 2 0 (item x)) rs1.
Proof.
  assert (0 ≤ 2)%Z as Htol by lia.
  assert (plain_worker (loaded scenario3 ∅)) as Hplain by plain_heap.
  split; [exact (sample_reachable scenario3 ∅)|]. split; [exact Htol|].
  split; [exact Hplain|].
  destruct (narrowing_tolerance (loaded scenario3 ∅) (js "ni")
              (pinyin_options (3 # 10) None) (pinyin_options (3 # 10) (Some 0%Z)) None
              (js "pinyin") (sample_reachable scenario3 ∅) eq_refl eq_refl eq_refl Htol)
    as (rs1 & rs2 & H1 & H2 & _ & _ & Heq).
  exists rs1, rs2. split; [exact H1|]. split; [exact H2|].
  apply Heq; [exact Hplain|]. intros p Hp. discriminate Hp.
Defined.

(** The query ["ni3"] on scenario 1. *)
Lemma digit_query_never_exact_witness :
  let w := loaded scenario1 ∅ in
  Engine.reachable w ∧ @CaseMappingLaws latin_toLowerCase ∧
  Exists (λ c, is_digit c = true) (js "ni3") ∧
  ∃ rs, performSearch w (js "ni3") (pinyin_options (3 # 10) None) None = Some rs ∧
    ∀ x, x ∈ rs →
      ∃ rec t, heap w !! item x = Some rec ∧
        searchable_prop (js "pinyin") rec = Some t ∧
        0 < levenshteinDistance (js "ni3") t.
Proof.
  assert (Exists (λ c, is_digit c = true) (js "ni3")) as Hq.
  { apply Exists_cons_tl, Exists_cons_tl, Exists_cons_hd. reflexivity. }
  split; [exact (sample_reachable scenario1 ∅)|]. split; [exact latin_laws|].
  split; [exact Hq|].
  destruct (digit_query_never_exact (Hlaws := latin_laws) (loaded scenario1 ∅) (js "ni3")
              (pinyin_options (3 # 10) None) None (sample_reachable scenario1 ∅) Hq)
    as (rs & Hrs & Hall).
  exists rs. split; [exact Hrs|]. intros x Hx.
  destruct (Hall x (js "pinyin") Hx eq_refl) as (rec & t & Hrec & Ht & _ & Hd).
  exists rec, t. split; [exact Hrec|]. split; [exact Ht|]. exact Hd.
Defined.

(** A second load whose bigram body does not parse, after scenario 1. *)
Lemma failed_init_keeps_answers_witness :
  let w := loaded scenario1 ∅ in
  let o := BigramFailed scenario2 "Unexpected end of JSON input" in
  let w' := (onmessage w (Init o)).1 in
  Engine.reachable w ∧ failed o = Some "Unexpected end of JSON input" ∧
  dictionary w' = [2; 3] ∧
  performSearch w' (js "ni") (pinyin_options (3 # 10) None) None
  = performSearch w (js "ni") (pinyin_options (3 # 10) None) None.
Proof.
  split; [exact (sample_reachable scenario1 ∅)|]. split; [reflexivity|].
  split; [reflexivity|].
  exact (proj2 (proj2 (proj2
    (failed_init_keeps_answers (loaded scenario1 ∅)
       (BigramFailed scenario2 "Unexpected end of JSON input")
       "Unexpected end of JSON input" (js "ni") (pinyin_options (3 # 10) None) None
       (sample_reachable scenario1 ∅) eq_refl)))).
Defined.

(** Two searches around a load that fails. *)
Lemma replies_in_order_witness :
  let w := loaded scenario1 ∅ in
  let events := [Search (request "ni" (3 # 10) None None) 7;
                 Init (LoadFailed "Failed to fetch worker data.");
                 Search (request "li" (3 # 10) None (Some ni)) 3] in
  Engine.reachable w ∧ plain_worker w ∧ Forall plain_event events ∧
  reply_ids (run w events).2 = [7; 3].
Proof.
  assert (plain_worker (loaded scenario1 ∅)) as Hplain by plain_heap.
  assert (Forall plain_event
            [Search (request "ni" (3 # 10) None None) 7;
             Init (LoadFailed "Failed to fetch worker data.");
             Search (request "li" (3 # 10) None (Some ni)) 3]) as Hevents.
  { repeat constructor; intros p [= <-]; reflexivity. }
  split; [exact (sample_reachable scenario1 ∅)|]. split; [exact Hplain|].
  split; [exact Hevents|].
  exact (proj2 (proj2 (proj2 (replies_in_order (loaded scenario1 ∅) _
                                (sample_reachable scenario1 ∅)))) Hplain Hevents).
Defined.

(** A search whose result cannot be copied gets no reply; the search
    that follows it is answered. *)
Example reply_not_posted :
  let w := loaded inherited_name empty_row in
  reply_ids (run w [Search (request "gou" (3 # 10) None (Some ni)) 7;
                    Search (request "gou" (3 # 10) None None) 8]).2 = [8].
Proof. reflexivity. Qed.

End PropertyExamples.

(** ** The properties of the input method on the sample instances *)

Module ImeExamples.

Import Engine Client Ime Spec ImeSpec Samples ImeSamples EngineProperties ImeProperties.

#[local] Existing Instance latin_toLowerCase.
#[local] Existing Instance exact.
#[local] Existing Instance object_prototype.

Lemma fresh_reachable : reachable [] [] fresh.
Proof. exact (reachable_create [] []). Defined.

Lemma ready_reachable : reachable [] [] ready.
Proof. exact (reachable_step [] [] fresh (Message InitSuccess []) fresh_reachable). Defined.

Lemma attached_reachable : reachable [] [] attached.
Proof.
  exact (reachable_attach [] [] ready form_options attached ready_reachable eq_refl eq_refl).
Defined.

Lemma typed_reachable val : reachable [] [] (typed val).
Proof. exact (reachable_step [] [] attached (Input val) attached_reachable). Defined.

(** The listeners after [create], [init_success] and [attach]. *)
Example attached_listeners :
  listeners attached =
  [Listener TheWorker (Bound HandleInitMessage 0);
   Listener TheWorker (Bound HandleSearchResult 1);
   Listener InputEl (Bound HandleInput 2);
   Listener SuggestionsEl (Bound HandleSuggestionClick 3);
   Listener TheForm (Bound HandleFormSubmit 4)].
Proof. reflexivity. Qed.

(** Typing ["Hao"] after 你: the query is ["hao"], the context 你. *)
Lemma input_posts_search_witness :
  @CaseMappingLaws latin_toLowerCase ∧
  posted (base (_handleInput (ni ++ js "Hao") attached))
  = posted (base attached)
    ++ [SearchMessage
          (Payload (js "hao") (Options (Some (js "pinyin")) (Some (2 # 10)%Q) None)
                   (Some ni)) 0].
Proof.
  split; [exact latin_laws|].
  destruct (input_posts_search (Hlaws := latin_laws) (ni ++ js "Hao") attached)
    as (_ & _ & Hmatch).
  destruct (Hmatch (js "Hao") eq_refl) as (pre & Hval & _ & _ & _ & _ & Hposted & _).
  apply (app_inv_tail (js "Hao")) in Hval. subst pre. exact Hposted.
Defined.

(** The results for ["Ni"] are dropped, those for ["ni"] are displayed. *)
Lemma stale_guard_witness :
  @CaseMappingLaws latin_toLowerCase ∧
  match_fragment (js "Ni") = Some (js "Ni") ∧
  Exists (λ c, is_upper c = true) (js "Ni") ∧
  _handleInput_resume (js "ni") [Suggestion (entry "ni3" ni) 1 (Number 0)] (page (js "Ni"))
  = page (js "Ni").
Proof.
  assert (Exists (λ c, is_upper c = true) (js "Ni")) as Hup
    by (apply Exists_cons_hd; reflexivity).
  split; [exact latin_laws|]. split; [reflexivity|]. split; [exact Hup|].
  exact (proj2 (stale_guard (Hlaws := latin_laws) (js "Ni") (js "Ni")
                  [Suggestion (entry "ni3" ni) 1 (Number 0)] (page (js "Ni")) eq_refl eq_refl) Hup).
Defined.

(** Typing ["ni"] after 李, receiving 你, clicking it: the input holds 李你. *)
Lemma type_then_click_witness :
  let st := set_state (page (li ++ js "ni")) attached in
  let res := [Suggestion (entry "ni3" ni) 1 (Number 0)] in
  let s2 := _handleInput_resume (js "ni") res (state (_handleInput (li ++ js "ni") st)) in
  @CaseMappingLaws latin_toLowerCase ∧
  match_fragment (li ++ js "ni") = Some (js "ni") ∧
  Forall (λ c, is_upper c = false) (js "ni") ∧
  ∃ n, children s2 !! 0 = Some n ∧
       click_on n = Click true (Some ni) ∧
       value (_handleSuggestionClick true (Some ni) s2) = li ++ ni.
Proof.
  assert (Forall (λ c, is_upper c = false) (js "ni")) as Hlow
    by (repeat constructor).
  split; [exact latin_laws|]. split; [reflexivity|]. split; [exact Hlow|].
  destruct (type_then_click (Hlaws := latin_laws) (li ++ js "ni") (js "ni")
              [Suggestion (entry "ni3" ni) 1 (Number 0)]
              (set_state (page (li ++ js "ni")) attached) 0
              (Suggestion (entry "ni3" ni) 1 (Number 0)) eq_refl eq_refl Hlow eq_refl)
    as [(n & pre & Hn & Hval & Hclick & Hvalue & _) _].
  apply (app_inv_tail (js "ni")) in Hval. subst pre.
  exists n. split; [exact Hn|]. split; [exact Hclick|]. exact Hvalue.
Defined.

(** Committing 你好, then typing ["ma"]: the context is 好. *)
Lemma context_after_commit_witness :
  let s := page (ni ++ hao) in
  let st := set_state (_handleFormSubmit s) attached in
  @CaseMappingLaws latin_toLowerCase ∧
  commits s (state st) (ni ++ hao) ∧
  ∃ p, last (posted (base (_handleInput (js "ma") st))) = Some (SearchMessage p 0) ∧
       previousWordHanzi p = Some hao.
Proof.
  assert (commits (page (ni ++ hao))
            (state (set_state (_handleFormSubmit (page (ni ++ hao))) attached))
            (ni ++ hao)) as Hc by (repeat split; reflexivity).
  split; [exact latin_laws|]. split; [exact Hc|].
  destruct (context_after_commit (Hlaws := latin_laws) (page (ni ++ hao))
              (set_state (_handleFormSubmit (page (ni ++ hao))) attached)
              (ni ++ hao) (js "ma") Hc ltac:(discriminate) ltac:(discriminate) eq_refl)
    as (p & Hp & _ & Hctx & _).
  exists p. split; [exact Hp|]. exact Hctx.
Defined.

(** After ["ni"] was typed and answered, the two buttons are those of the
    two suggestions. *)
Lemma buttons_show_suggestions_witness :
  let st := sample_step (typed (js "ni")) (reply 0) in
  Forall (λ n, matches_suggestion_btn n = false) [] ∧
  reachable [] [] st ∧
  dataset_of <$> filter (λ n, matches_suggestion_btn n) (children (state st))
  = [Some ni; Some li].
Proof.
  assert (reachable [] [] (sample_step (typed (js "ni")) (reply 0))) as Hst
    by exact (reachable_step [] [] _ (reply 0) (typed_reachable (js "ni"))).
  assert (Forall (λ n, matches_suggestion_btn n = false) []) as Hnone by constructor.
  split; [exact Hnone|]. split; [exact Hst|].
  exact (proj1 (buttons_show_suggestions [] [] _ Hnone Hst)).
Defined.

(** [attach] on the instance [create] resolves with. *)
Lemma attach_registers_witness :
  reachable [] [] ready ∧
  ∃ st', attach form_options ready = Some st' ∧
         listeners st' = listeners ready ++ attach_listeners form_options 2 ∧
         suggestionLimit (state st') = 15%Z.
Proof.
  split; [exact ready_reachable|].
  destruct (proj2 (attach_registers [] [] form_options ready ready_reachable)
              eq_refl eq_refl)
    as (st' & Hst' & Hls & _ & _ & _ & _ & _ & _ & _ & Hlimit & _).
  exists st'. split; [exact Hst'|]. split; [exact Hls|]. exact Hlimit.
Defined.

(** After a second call of [attach], one key stroke posts two searches. *)
Lemma search_per_input_listener_witness :
  let st := default attached (attach form_options attached) in
  reachable [] [] st ∧ match_fragment (js "ni") = Some (js "ni") ∧
  length (posted (base (sample_step st (Input (js "ni"))))) = length (posted (base st)) + 2.
Proof.
  assert (reachable [] [] (default attached (attach form_options attached))) as Hst
    by exact (reachable_attach [] [] attached form_options _ attached_reachable
                eq_refl eq_refl).
  split; [exact Hst|]. split; [reflexivity|].
  exact (search_per_input_listener [] [] _ (js "ni") (js "ni") Hst eq_refl).
Defined.

(** A second [init_success]: the first listener stays, a second listener
    for the results is registered. *)
Lemma init_listener_stays_witness :
  reachable [] [] ready ∧
  listeners (sample_step ready (Message InitSuccess []))
  = [Listener TheWorker (Bound HandleInitMessage 0);
     Listener TheWorker (Bound HandleSearchResult 1);
     Listener TheWorker (Bound HandleSearchResult 2)] ∧
  created (sample_step ready (Message InitSuccess [])) = Created.
Proof.
  split; [exact ready_reachable|].
  exact (proj1 (proj2 (proj2 (init_listener_stays [] [] ready [] ready_reachable)))).
Defined.

(** With two listeners for the results, the reply to ["ni"] is handled as
    by one. *)
Lemma reply_handled_once_witness :
  let st := sample_step (typed (js "ni")) (Message InitSuccess []) in
  reachable [] [] st ∧ created st = Created ∧
  length (filter (λ l, is_search_listener l) (listeners st)) = 2 ∧
  base (sample_step st (reply 0))
  = _handleSearchResult (base st)
      (SearchResults [Result 0 (2 # 2) (Number 0); Result 1 (1 # 2) (Number 0)] 0).
Proof.
  assert (reachable [] [] (sample_step (typed (js "ni")) (Message InitSuccess []))) as Hst
    by exact (reachable_step [] [] _ (Message InitSuccess []) (typed_reachable (js "ni"))).
  split; [exact Hst|]. split; [reflexivity|]. split; [reflexivity|].
  exact (reply_handled_once [] [] _ _ (heap (loaded scenario1 ∅)) Hst eq_refl).
Defined.

(** Typing ["ni"] on a page whose worker holds scenario 1: the two
    buttons 你 and 李. *)
Lemma suggestions_round_trip_witness :
  let w := loaded scenario1 ∅ in
  let st1 := sample_step attached (Input (js "ni")) in
  @CaseMappingLaws latin_toLowerCase ∧
  reachable [] [] attached ∧ created attached = Created ∧ Engine.reachable w ∧
  match_fragment (js "ni") = Some (js "ni") ∧
  Forall (λ c, is_upper c = false) (js "ni") ∧
  ∃ p results,
    last (posted (base st1)) = Some (SearchMessage p 0) ∧
    onmessage w (Search p 0) = (w, [PostMessage (SearchResults results 0)]) ∧
    currentSuggestions (state (sample_step st1 (Message (SearchResults results 0) (heap w))))
    = slice (received (heap w) results) 0 (Some 15%Z).
Proof.
  assert (Forall (λ c, is_upper c = false) (js "ni")) as Hlow
    by (repeat constructor).
  assert (Engine.reachable (loaded scenario1 ∅)) as Hw
    by exact (Engine.reachable_step initial_worker _ Engine.reachable_initial).
  assert (plain_worker (loaded scenario1 ∅)) as Hplain.
  { unfold plain_worker. repeat constructor; intros hz [= <-]; reflexivity. }
  split; [exact latin_laws|]. split; [exact attached_reachable|].
  split; [reflexivity|]. split; [exact Hw|]. split; [reflexivity|]. split; [exact Hlow|].
  destruct (suggestions_round_trip (Hlaws := latin_laws) [] [] attached
              (loaded scenario1 ∅) (js "ni") (js "ni")
              attached_reachable eq_refl Hw eq_refl Hlow)
    as (Hstep & p & results & Hp & _ & _ & Hreply & Hcopied & Hpage).
  rewrite <- (Hstep (Listener InputEl (Bound HandleInput 2)) eq_refl) in Hp, Hpage.
  assert (previousWordHanzi p = None) as Hprev.
  { vm_compute in Hp. injection Hp as <-. reflexivity. }
  assert (forallb (λ x, serializable (bigramScore x)) results = true) as Hclone.
  { apply Hcopied; [exact Hplain|]. rewrite Hprev. intros c Hc. discriminate Hc. }
  rewrite Hclone in Hreply.
  destruct (Hpage Hclone) as (_ & _ & _ & Hcur & _).
  exists p, results. split; [exact Hp|]. split; [exact Hreply|]. exact Hcur.
Defined.

End ImeExamples.
